(** * osformat: a shallow embedding of the format-string engine

    The development follows [osformat/osformat.h] and [osformat/osformat.cc].

    - Strings are lists of characters and positions in a string are natural
      numbers; flag words and machine integers are [Z] with the wrap-around
      written out.
    - A [Manip] reached through a pointer is an index into [format_], the
      vector that owns it; an iterator is a position in its vector.
    - A function that may call [Throw] and return false returns an
      [outcome]; the two loops of [ParseFormat] are given by their bodies
      ([SpecStep], [LoopStep]) and iterated with fuel, which never runs out
      ([ParseFormat_total]).
    - The first part holds the definitions, the second the properties:
      the flags of [Special], [ParseNumber], [SetWidth], the assembler, the
      dispatcher, the count of the arguments, the parser (progress, errors,
      the modifier ' ', the queue of the postponed requests, the free
      numbers, the borders, the directive [%%]).
    - The last part holds further properties: the helpers that find a
      number, the end of the parser and its errors at the end of the text,
      formats with one directive, the format given as a [bool], the newline
      flag, the states of an object, copies, the output to the sinks, the
      table of the arguments, the indirect modifiers, [Say], and the
      modifier ' ' from the format to the text.
    - The model is that of a run in which the allocations succeed
      ([HandleArgumentNumber]) and in which no locale that groups digits
      is imbued ([put_int]). *)

From Stdlib Require Import String Ascii ZArith List Bool Arith Lia Sorted.
Import ListNotations.

Set Implicit Arguments.

(** ** Strings as the code uses them *)

Definition text := list ascii.

Definition s2l (s : string) : text := list_ascii_of_string s.

(** [s[i]]: the accesses of the code are guarded by a size test; outside the
    string the model gives the terminating NUL. *)
Definition at_ (s : text) (i : nat) : ascii := nth i s zero.

Fixpoint find_from (c : ascii) (s : text) (k : nat) : option nat :=
  match s with
  | [] => None
  | x :: s' => if Ascii.eqb x c then Some k else find_from c s' (S k)
  end.

(** [s.find(c, pos)]; [None] is [string::npos]. *)
Definition find (c : ascii) (s : text) (pos : nat) : option nat :=
  find_from c (skipn pos s) pos.

(** [s.erase(i, 1)] *)
Definition erase1 (s : text) (i : nat) : text := firstn i s ++ skipn (S i) s.

(** [r.append(s, pos, n)] appends [substr s pos n]. *)
Definition substr (s : text) (pos n : nat) : text := firstn n (skipn pos s).

(** [v[i] = x] on a vector; an index outside the vector is undefined in C++,
    the model leaves the vector as it is. *)
Fixpoint upd {A} (i : nat) (x : A) (l : list A) : list A :=
  match l, i with
  | [], _ => []
  | _ :: l', O => x :: l'
  | y :: l', S i' => y :: upd i' x l'
  end.

(** [v.resize(n)] with the value-initialised element [d]. *)
Definition resize {A} (n : nat) (d : A) (l : list A) : list A :=
  firstn n l ++ repeat d (n - length l).

Definition isdigit (c : ascii) : bool :=
  (48 <=? nat_of_ascii c) && (nat_of_ascii c <=? 57).

(** [c - '0'] *)
Definition digit_val (c : ascii) : Z := Z.of_nat (nat_of_ascii c) - 48.

(** ** Error codes *)

Module Error.

Inductive Code :=
| kNone
| kWriteFailed
| kFlushFailed
| kTooManyArguments
| kTooFewArguments
| kTooEarlyArgument
| kLocaleArgIsNoLocale
| kLocaleMustNotBeOutput
| kPrecisionArgIsNotNumeric
| kWidthArgIsNotNumeric
| kFillArgIsNotChar
| kTrailingPercentage
| kNumberWithoutDollar
| kNumberOverflow
| kMissingSpecifier
| kUnknownSpecifier
| kMissingFillCharacter.

Definition Code_eqb (a b : Code) : bool :=
  match a, b with
  | kNone, kNone | kWriteFailed, kWriteFailed | kFlushFailed, kFlushFailed
  | kTooManyArguments, kTooManyArguments | kTooFewArguments, kTooFewArguments
  | kTooEarlyArgument, kTooEarlyArgument
  | kLocaleArgIsNoLocale, kLocaleArgIsNoLocale
  | kLocaleMustNotBeOutput, kLocaleMustNotBeOutput
  | kPrecisionArgIsNotNumeric, kPrecisionArgIsNotNumeric
  | kWidthArgIsNotNumeric, kWidthArgIsNotNumeric
  | kFillArgIsNotChar, kFillArgIsNotChar
  | kTrailingPercentage, kTrailingPercentage
  | kNumberWithoutDollar, kNumberWithoutDollar
  | kNumberOverflow, kNumberOverflow
  | kMissingSpecifier, kMissingSpecifier
  | kUnknownSpecifier, kUnknownSpecifier
  | kMissingFillCharacter, kMissingFillCharacter => true
  | _, _ => false
  end.

End Error.
Import Error.

(** ** The [Special] flags of the constructor *)

Module Special.

Local Open Scope Z_scope.

Definition Flags := Z.

Definition kNone : Flags := 0.
Definition kNewline : Flags := Z.shiftl 1 1.
Definition kFlush : Flags := Z.shiftl 1 2.
Definition kAll : Flags := Z.shiftl 1 3 - 1.

Record Special := New { flags_ : Flags }.

Definition None_ : Special := New kNone.
Definition Newline : Special := New kNewline.
Definition Flush : Special := New kNewline.
Definition NewlineFlush : Special := New (Z.lor kNewline kFlush).
Definition FlushNewline : Special := New (Z.lor kFlush kNewline).

Definition get (s : Special) : Flags := flags_ s.
Definition SetBits (s : Special) (f : Flags) : Special := New (Z.lor (flags_ s) f).
Definition ClearBits (s : Special) (f : Flags) : Special :=
  New (Z.land (flags_ s) (Z.lxor f kAll)).
Definition HaveBits (s : Special) (f : Flags) : bool :=
  negb (Z.land (flags_ s) f =? kNone).

End Special.

(** ** The flag words of [Format] *)

Module Defines.
Local Open Scope Z_scope.
Definition Flags := Z.
Definition kNone : Flags := 0.
Definition kLocale : Flags := Z.shiftl 1 1.
Definition kPrecision : Flags := Z.shiftl 1 2.
Definition kWidth : Flags := Z.shiftl 1 3.
Definition kFill : Flags := Z.shiftl 1 4.
Definition kArg : Flags := Z.shiftl 1 5.
Definition kAll : Flags := Z.shiftl 1 6 - 1.
End Defines.

Module Extensions.
Local Open Scope Z_scope.
Definition Flags := Z.
Definition kNone : Flags := 0.
Definition kIgnore : Flags := Z.shiftl 1 1.
Definition kPlusSpace : Flags := Z.shiftl 1 2.
Definition kStringNpos : Flags := Z.shiftl 1 3.
Definition kAll : Flags := Z.shiftl 1 4 - 1.
End Extensions.

(** [(w & f) != kNone] *)
Definition has (w f : Z) : bool := negb (Z.land w f =? 0)%Z.

(** ** The standard library's output stream

    Every [Manip] owns a [std::ostringstream]; the code sets its formatting
    state and inserts the argument with [<<].  The stream is part of the
    standard library, not of this repository: the record below holds the
    state the code touches, and [put] below follows the rules of the C++
    standard for the integer, character and string inserters.  The flag
    values are those of libstdc++; floating-point arguments and the
    wide-character types are outside the embedding. *)

Module ios_base.
Local Open Scope Z_scope.
Definition boolalpha := Z.shiftl 1 0.
Definition dec := Z.shiftl 1 1.
Definition fixed := Z.shiftl 1 2.
Definition hex := Z.shiftl 1 3.
Definition internal := Z.shiftl 1 4.
Definition left := Z.shiftl 1 5.
Definition oct := Z.shiftl 1 6.
Definition right := Z.shiftl 1 7.
Definition scientific := Z.shiftl 1 8.
Definition showbase := Z.shiftl 1 9.
Definition showpoint := Z.shiftl 1 10.
Definition showpos := Z.shiftl 1 11.
Definition skipws := Z.shiftl 1 12.
Definition unitbuf := Z.shiftl 1 13.
Definition uppercase := Z.shiftl 1 14.
Definition adjustfield := Z.lor (Z.lor left right) internal.
Definition basefield := Z.lor (Z.lor dec oct) hex.
Definition floatfield := Z.lor scientific fixed.
End ios_base.

Record ostringstream := mkOs {
  os_flags : Z;               (* flags() *)
  os_fill : ascii;            (* fill() *)
  os_width : Z;               (* width() *)
  os_precision : Z;           (* precision() *)
  os_loc : option text;       (* getloc(), by name; None is the global locale *)
  os_str : text               (* str() *)
}.

(** A freshly constructed [std::ostringstream]. *)
Definition new_ostringstream : ostringstream :=
  mkOs (Z.lor ios_base.skipws ios_base.dec) " "%char 0 6 None [].

Definition setf (f : Z) (os : ostringstream) : ostringstream :=
  mkOs (Z.lor (os_flags os) f) (os_fill os) (os_width os) (os_precision os)
       (os_loc os) (os_str os).

Definition setf_mask (f mask : Z) (os : ostringstream) : ostringstream :=
  mkOs (Z.lor (Z.land (os_flags os) (Z.lnot mask)) (Z.land f mask))
       (os_fill os) (os_width os) (os_precision os) (os_loc os) (os_str os).

Definition fill (c : ascii) (os : ostringstream) : ostringstream :=
  mkOs (os_flags os) c (os_width os) (os_precision os) (os_loc os) (os_str os).

Definition width (w : Z) (os : ostringstream) : ostringstream :=
  mkOs (os_flags os) (os_fill os) w (os_precision os) (os_loc os) (os_str os).

Definition precision (p : Z) (os : ostringstream) : ostringstream :=
  mkOs (os_flags os) (os_fill os) (os_width os) p (os_loc os) (os_str os).

Definition imbue (l : text) (os : ostringstream) : ostringstream :=
  mkOs (os_flags os) (os_fill os) (os_width os) (os_precision os) (Some l)
       (os_str os).

Definition write (s : text) (os : ostringstream) : ostringstream :=
  mkOs (os_flags os) (os_fill os) (os_width os) (os_precision os) (os_loc os)
       (os_str os ++ s).

(** ** Arguments

    [operator%] is a template over the argument type; the overloads of
    [SetWidth], [SetPrecision], [SetFill], [SetLocale], [StringStandard] and
    [StringNpos] choose by that type.  A value therefore carries its C++
    type.  The sizes are those of an LP64 platform with a signed [char]. *)

Inductive ctype :=
| TBool | TChar | TSChar | TUChar | TShort | TUShort | TInt | TUInt
| TLong | TULong | TLongLong | TULongLong.

Inductive Value :=
| VNum (t : ctype) (v : Z)       (* a value of an integral type *)
| VStr (s : text)                (* a [const char *] or a [std::string] *)
| VLocale (name : text).         (* a [std::locale] *)

Definition bits (t : ctype) : Z :=
  match t with
  | TBool => 1
  | TChar | TSChar | TUChar => 8
  | TShort | TUShort => 16
  | TInt | TUInt => 32
  | TLong | TULong | TLongLong | TULongLong => 64
  end%Z.

Definition is_signed (t : ctype) : bool :=
  match t with
  | TChar | TSChar | TShort | TInt | TLong | TLongLong => true
  | _ => false
  end.

Definition type_min (t : ctype) : Z :=
  if is_signed t then (- 2 ^ (bits t - 1))%Z else 0%Z.

Definition type_max (t : ctype) : Z :=
  if is_signed t then (2 ^ (bits t - 1) - 1)%Z else (2 ^ bits t - 1)%Z.

Definition in_range (t : ctype) (v : Z) : Prop :=
  (type_min t <= v <= type_max t)%Z.

(** Conversion of an integer to the type [t]: modulo [2 ^ bits t]. *)
Definition convert (t : ctype) (v : Z) : Z :=
  if is_signed t
  then ((v + 2 ^ (bits t - 1)) mod 2 ^ bits t - 2 ^ (bits t - 1))%Z
  else (v mod 2 ^ bits t)%Z.

(** [static_cast<std::streamsize>(arg)] *)
Definition to_streamsize (v : Z) : Z := convert TLong v.

(** [static_cast<char>(arg)] *)
Definition to_char (v : Z) : ascii := ascii_of_nat (Z.to_nat (v mod 256)).

(** [std::string::npos], a [size_type], that is an [unsigned long]. *)
Definition npos : Z := (2 ^ 64 - 1)%Z.

(** *** Formatted insertion, [os << arg] *)

Definition digit_char (upper : bool) (d : Z) : ascii :=
  if (d <? 10)%Z then ascii_of_nat (Z.to_nat (48 + d))
  else ascii_of_nat (Z.to_nat ((if upper then 65 else 97) + (d - 10))).

Fixpoint to_digits_fuel (fuel : nat) (base : Z) (upper : bool) (n : Z)
    (acc : text) : text :=
  match fuel with
  | O => acc
  | S fuel' =>
      let acc' := digit_char upper (n mod base) :: acc in
      if (n / base =? 0)%Z then acc'
      else to_digits_fuel fuel' base upper (n / base)%Z acc'
  end.

(** The digits of [n >= 0] in base [base]. *)
Definition to_digits (base : Z) (upper : bool) (n : Z) : text :=
  to_digits_fuel (S (Z.to_nat (Z.log2 n))) base upper n [].

(** Padding to [width()]: after the text for [left], after the first
    [lead] characters (the sign or the 0x prefix) for [internal], before
    the text otherwise.  A width that is not larger than the text, hence
    also a negative one, adds nothing. *)
Definition pad (os : ostringstream) (lead : nat) (s : text) : text :=
  let padding := repeat (os_fill os) (Z.to_nat (os_width os - Z.of_nat (length s))) in
  let adjust := Z.land (os_flags os) ios_base.adjustfield in
  if (adjust =? ios_base.left)%Z then s ++ padding
  else if (adjust =? ios_base.internal)%Z
       then firstn lead s ++ padding ++ skipn lead s
       else padding ++ s.

(** Every formatted inserter ends with [width(0)]. *)
Definition put_text (os : ostringstream) (s : text) : ostringstream :=
  width 0 (write (pad os 0 s) os).

(** The inserter of the integers.  The digits are those of the classic
    locale, which groups no digits: [os_loc] is not read.  A stream that has
    been imbued with a locale whose [numpunct] facet groups the digits
    renders a number with the separators of that locale, which the model
    does not give. *)
Definition put_int (os : ostringstream) (t : ctype) (v : Z) : ostringstream :=
  let fl := os_flags os in
  let basef := Z.land fl ios_base.basefield in
  let upper := has fl ios_base.uppercase in
  let unsigned_view := (v mod 2 ^ bits t)%Z in
  if (basef =? ios_base.oct)%Z then
    let ds := to_digits 8 upper unsigned_view in
    let s := if has fl ios_base.showbase && negb (v =? 0)%Z
             then "0"%char :: ds else ds in
    width 0 (write (pad os 0 s) os)
  else if (basef =? ios_base.hex)%Z then
    let ds := to_digits 16 upper unsigned_view in
    if has fl ios_base.showbase && negb (v =? 0)%Z
    then width 0 (write (pad os 2 ("0"%char :: (if upper then "X" else "x")%char :: ds)) os)
    else width 0 (write (pad os 0 ds) os)
  else if (v <? 0)%Z then
    width 0 (write (pad os 1 ("-"%char :: to_digits 10 upper (- v))) os)
  else if has fl ios_base.showpos && is_signed t then
    width 0 (write (pad os 1 ("+"%char :: to_digits 10 upper v)) os)
  else
    width 0 (write (pad os 0 (to_digits 10 upper v)) os).

(** [os << arg] for the argument types of the embedding.  A [bool] is
    inserted as a word under [boolalpha] and as the [long] 0 or 1 otherwise;
    the character types are inserted as characters.  A locale has no
    inserter that the code would reach: [StringStandard] and [StringNpos]
    throw before. *)
Definition put (os : ostringstream) (arg : Value) : ostringstream :=
  match arg with
  | VNum TBool v =>
      if has (os_flags os) ios_base.boolalpha
      then put_text os (if (v =? 0)%Z then s2l "false" else s2l "true")
      else put_int os TLong v
  | VNum TChar v | VNum TSChar v | VNum TUChar v => put_text os [to_char v]
  | VNum t v => put_int os t v
  | VStr s => put_text os s
  | VLocale _ => os
  end.

(** ** The data of [Format] *)

Record Manip := mkManip {
  ostream_ : ostringstream;
  extensions_ : Extensions.Flags;
  need_ : Defines.Flags
}.

Definition new_Manip : Manip :=
  mkManip new_ostringstream Extensions.kNone Defines.kNone.

(** [manip_] is the index of the [Manip] in [format_]. *)
Record References := mkRef {
  set_these_ : Defines.Flags;
  manip_ : nat
}.

Definition ArgsDefines := list References.
Definition ArgsList := list ArgsDefines.
Definition SpecifiedList := list bool.

(** The result of a function that may call [Throw]. *)
Inductive outcome (A : Type) :=
| Done (a : A)
| Thrown (e : Code).
Arguments Done {A} a.
Arguments Thrown {A} e.

Definition obind {A B} (x : outcome A) (k : A -> outcome B) : outcome B :=
  match x with
  | Done a => k a
  | Thrown e => Thrown e
  end.

Notation "'do' x <- a ; b" := (obind a (fun x => b))
  (at level 10, x name, a at level 100, b at level 200).

(** ** The static helpers of [osformat.cc] *)

Fixpoint EndNumber_from (rest : text) (start : nat) : nat :=
  match rest with
  | [] => start
  | c :: rest' => if isdigit c then EndNumber_from rest' (S start) else start
  end.

(** Find the end of a nonnegative number in [s], starting at [start]: the
    loop first increments [start], returns it when it is [s.size()] and
    otherwise looks at [s[start]]. *)
Definition EndNumber (s : text) (start : nat) : nat :=
  EndNumber_from (skipn (S start) s) (S start).

Definition IsPositiveNumber (c : ascii) : bool :=
  isdigit c && negb (Ascii.eqb c "0").

(** Return the end if [s] contains at [start] the expression [1-9][0-9]*\$;
    [None] is [string::npos]. *)
Definition EndArgumentNumber (s : text) (start : nat) : option nat :=
  if negb (IsPositiveNumber (at_ s start)) then None
  else
    let e := EndNumber s start in
    if negb (e =? length s) && Ascii.eqb (at_ s e) "$" then Some (e + 1)
    else None.

(** ** [ParseNumber]

    The template is instantiated at [Parse::size_type] (an unsigned 64-bit
    integer, for argument numbers) and at [std::streamsize] (a signed 64-bit
    integer, for widths and precisions).  Unsigned arithmetic wraps; signed
    overflow is undefined in C++ and the model takes the two's-complement
    result there. *)

Inductive numtype := size_type | streamsize.

Definition wrap (T : numtype) (v : Z) : Z :=
  match T with
  | size_type => convert TULong v
  | streamsize => convert TLong v
  end.

Fixpoint ParseNumber_loop (T : numtype) (digits : text) (result : Z)
    : outcome Z :=
  match digits with
  | [] => Done result
  | c :: digits' =>
      let next_result := wrap T (result * 10 + digit_val c) in
      if (next_result <=? result)%Z then Thrown kNumberOverflow
      else ParseNumber_loop T digits' next_result
  end.

(** Parse a number of nonzero length from [start] to [end_] (after the last
    digit). *)
Definition ParseNumber (T : numtype) (text_ : text) (start end_ : nat)
    : outcome Z :=
  ParseNumber_loop T (substr text_ (S start) (end_ - S start))
                   (wrap T (digit_val (at_ text_ start))).

(** ** The state of the parser

    [ParseFormat] works on [text_] and on the [Parse] object ([format_],
    [borders_], [args_]) and keeps [specified] and [define_queue] as locals. *)

Record PState := mkPState {
  p_text : text;
  p_format : list Manip;
  p_borders : list nat;
  p_args : ArgsList;
  p_specified : SpecifiedList;
  p_queue : ArgsDefines
}.

Definition set_text (t : text) (st : PState) : PState :=
  mkPState t (p_format st) (p_borders st) (p_args st) (p_specified st) (p_queue st).
Definition push_format (m : Manip) (st : PState) : PState :=
  mkPState (p_text st) (p_format st ++ [m]) (p_borders st) (p_args st)
           (p_specified st) (p_queue st).
Definition push_border (b : nat) (st : PState) : PState :=
  mkPState (p_text st) (p_format st) (p_borders st ++ [b]) (p_args st)
           (p_specified st) (p_queue st).
Definition set_args (a : ArgsList) (st : PState) : PState :=
  mkPState (p_text st) (p_format st) (p_borders st) a (p_specified st) (p_queue st).
Definition push_queue (r : References) (st : PState) : PState :=
  mkPState (p_text st) (p_format st) (p_borders st) (p_args st) (p_specified st)
           (p_queue st ++ [r]).

(** The references of one argument: a reference to the same [Manip]
    collects the flags, a new one is appended. *)
Fixpoint add_reference (set_these : Z) (manip : nat) (defs : ArgsDefines)
    : ArgsDefines :=
  match defs with
  | [] => [mkRef set_these manip]
  | r :: defs' =>
      if manip_ r =? manip
      then mkRef (Z.lor (set_these_ r) set_these) (manip_ r) :: defs'
      else r :: add_reference set_these manip defs'
  end.

(** [Parse::SetIndirect].  [args_[argnum]] outside the vector is undefined
    in C++; the model then leaves [args_] as it is. *)
Definition SetIndirect (argnum : nat) (set_these : Z) (manip : nat)
    (args : ArgsList) : ArgsList :=
  match nth_error args argnum with
  | Some defs => upd argnum (add_reference set_these manip defs) args
  | None => args
  end.

(** Store [argnum] in [specified] and resize [args_].  The lists of the
    model have no bound, and the model is that of a run in which the two
    calls of [resize] succeed.  In C++ [resize(argnum + 1)] throws
    [std::length_error] beyond [max_size()] and [std::bad_alloc] when the
    memory is short; the constructor is then left by that exception and no
    object exists.  Only an explicit argument number, which is followed by
    [$], can be that large: the numbers that the parser gives itself are
    bounded by the number of the directives. *)
Definition HandleArgumentNumber (argnum : nat) (st : PState) : PState :=
  let grow := length (p_specified st) <=? argnum in
  let specified := if grow then resize (argnum + 1) false (p_specified st)
                   else p_specified st in
  let args := if grow then resize (argnum + 1) [] (p_args st) else p_args st in
  mkPState (p_text st) (p_format st) (p_borders st) args
           (upd argnum true specified) (p_queue st).

Definition set_need (m : Manip) (n : Z) : Manip :=
  mkManip (ostream_ m) (extensions_ m) n.
Definition set_ext (m : Manip) (e : Z) : Manip :=
  mkManip (ostream_ m) e (need_ m).
Definition on_os (f : ostringstream -> ostringstream) (m : Manip) : Manip :=
  mkManip (f (ostream_ m)) (extensions_ m) (need_ m).

(** [SetArg]: set up [set_these] to be filled from an argument.  [index] is
    one before the number; the result holds the index after the number.
    [k] is the [Manip] under construction, whose content [manip] the parser
    holds until the directive ends. *)
Definition SetArg (set_these : Z) (st : PState) (manip : Manip) (k : nat)
    (index : nat) : outcome (PState * Manip * nat) :=
  let manip := set_need manip (Z.lor (need_ manip) set_these) in
  let index := S index in
  if index =? length (p_text st) then Thrown kMissingSpecifier
  else
    match EndArgumentNumber (p_text st) index with
    | Some end_ =>
        if end_ =? length (p_text st) then Thrown kMissingSpecifier
        else
          do argnum <- ParseNumber size_type (p_text st) index (end_ - 1);
          let argnum := Z.to_nat (argnum - 1) in
          let st := HandleArgumentNumber argnum st in
          Done (set_args (SetIndirect argnum set_these k (p_args st)) st,
                manip, end_)
    | None =>
        Done (push_queue (mkRef set_these k) st, manip, index)
    end.

(** ** [ParseFormat] *)

(** The labels of [switch (c)]. *)
Inductive Case :=
| c_hash | c_space | c_plus | c_zero | c_underscore | c_slash | c_minus
| c_colon | c_star | c_dot | c_tilde
| c_n | c_s | c_S | c_d | c_D | c_x | c_X | c_o | c_O
| c_f | c_F | c_e | c_E | c_a | c_A
| c_default.

Definition case_of (c : ascii) : Case :=
  if Ascii.eqb c "#" then c_hash
  else if Ascii.eqb c " " then c_space
  else if Ascii.eqb c "+" then c_plus
  else if Ascii.eqb c "0" then c_zero
  else if Ascii.eqb c "_" then c_underscore
  else if Ascii.eqb c "/" then c_slash
  else if Ascii.eqb c "-" then c_minus
  else if Ascii.eqb c ":" then c_colon
  else if Ascii.eqb c "*" then c_star
  else if Ascii.eqb c "." then c_dot
  else if Ascii.eqb c "~" then c_tilde
  else if Ascii.eqb c "n" then c_n
  else if Ascii.eqb c "s" then c_s
  else if Ascii.eqb c "S" then c_S
  else if Ascii.eqb c "d" then c_d
  else if Ascii.eqb c "D" then c_D
  else if Ascii.eqb c "x" then c_x
  else if Ascii.eqb c "X" then c_X
  else if Ascii.eqb c "o" then c_o
  else if Ascii.eqb c "O" then c_O
  else if Ascii.eqb c "f" then c_f
  else if Ascii.eqb c "F" then c_F
  else if Ascii.eqb c "e" then c_e
  else if Ascii.eqb c "E" then c_E
  else if Ascii.eqb c "a" then c_a
  else if Ascii.eqb c "A" then c_A
  else c_default.

Definition or_ext (e : Z) (m : Manip) : Manip :=
  set_ext m (Z.lor (extensions_ m) e).

(** What one pass through the body of the loop over the modifiers ends
    with. *)
Inductive spec_step :=
| Next (st : PState) (manip : Manip) (i : nat)   (* the loop goes on at [i] *)
| Last (st : PState) (manip : Manip) (i : nat)   (* the specifier is read *)
| Halt (e : Code).                               (* [Throw(e); return false] *)

(** The code after the switch, reached by [break]. *)
Definition after_switch (st : PState) (got_specifier : bool) (manip : Manip)
    (i : nat) : spec_step :=
  if got_specifier then Last st manip (S i)
  else if S i =? length (p_text st) then Halt kMissingSpecifier
  else Next st manip (S i).

(** [if (SetArg(...)) continue; return false;] *)
Definition with_SetArg (set_these : Z) (st : PState) (manip : Manip)
    (k i : nat) : spec_step :=
  match SetArg set_these st manip k i with
  | Done (st', manip', i') => Next st' manip' i'
  | Thrown e => Halt e
  end.

(** The body of [for (;; c = text_[i]) { switch (c) ... }], the loop over
    the modifiers and the specifier of one directive.  [k] is the [Manip] of
    the directive and [manip] its content. *)
Definition SpecStep (st : PState) (manip : Manip) (k i : nat) : spec_step :=
  let size := length (p_text st) in
  let c := at_ (p_text st) i in
  match case_of c with
  | c_hash => after_switch st false (on_os (setf ios_base.showbase) manip) i
  | c_space =>
      after_switch st false
        (on_os (setf ios_base.showpos) (or_ext Extensions.kPlusSpace manip)) i
  | c_plus => after_switch st false (on_os (setf ios_base.showpos) manip) i
  | c_zero => after_switch st false (on_os (fill "0") manip) i
  | c_underscore =>
      if S i =? size then Halt kMissingFillCharacter
      else after_switch st false (on_os (fill (at_ (p_text st) (S i))) manip) (S i)
  | c_slash => with_SetArg Defines.kFill st manip k i
  | c_minus =>
      after_switch st false
        (on_os (setf_mask ios_base.left ios_base.adjustfield) manip) i
  | c_colon =>
      after_switch st false
        (on_os (setf_mask ios_base.internal ios_base.adjustfield) manip) i
  | c_star => with_SetArg Defines.kWidth st manip k i
  | c_dot =>
      if S i =? size then Halt kMissingSpecifier
      else
        let i := S i in
        let c := at_ (p_text st) i in
        if IsPositiveNumber c then
          let end_ := EndNumber (p_text st) i in
          if end_ =? size then Halt kMissingSpecifier
          else
            match ParseNumber streamsize (p_text st) i end_ with
            | Thrown e => Halt e
            | Done p => Next st (on_os (precision p) manip) end_
            end
        else if Ascii.eqb c "*" then with_SetArg Defines.kPrecision st manip k i
        else
          (* a plain . is admissible and interpreted as precision 0 *)
          after_switch st false (on_os (precision 0) manip) i
  | c_tilde => with_SetArg Defines.kLocale st manip k i
  | c_n => after_switch st true (or_ext Extensions.kIgnore manip) i
  | c_s => after_switch st true manip i
  | c_S =>
      after_switch st true
        (or_ext Extensions.kStringNpos
           (on_os (setf (Z.lor ios_base.boolalpha ios_base.showpoint)) manip)) i
  | c_d =>
      after_switch st true
        (or_ext Extensions.kStringNpos
           (on_os (setf ios_base.boolalpha) manip)) i
  | c_D =>
      after_switch st true
        (or_ext Extensions.kStringNpos
           (on_os (setf (Z.lor ios_base.boolalpha ios_base.uppercase)) manip)) i
  | c_x =>
      after_switch st true
        (on_os (setf_mask ios_base.hex ios_base.basefield) manip) i
  | c_X =>
      after_switch st true
        (on_os (setf_mask (Z.lor ios_base.hex ios_base.uppercase)
                          (Z.lor ios_base.basefield ios_base.uppercase)) manip) i
  | c_o =>
      after_switch st true
        (on_os (setf_mask ios_base.oct ios_base.basefield) manip) i
  | c_O =>
      after_switch st true
        (on_os (setf_mask (Z.lor ios_base.oct ios_base.uppercase)
                          (Z.lor ios_base.basefield ios_base.uppercase)) manip) i
  | c_f => after_switch st true (on_os (setf ios_base.fixed) manip) i
  | c_F =>
      after_switch st true
        (on_os (setf (Z.lor ios_base.fixed ios_base.uppercase)) manip) i
  | c_e => after_switch st true (on_os (setf ios_base.scientific) manip) i
  | c_E =>
      after_switch st true
        (on_os (setf (Z.lor ios_base.scientific ios_base.uppercase)) manip) i
  | c_a =>
      after_switch st true
        (on_os (setf (Z.lor ios_base.fixed ios_base.scientific)) manip) i
  | c_A =>
      after_switch st true
        (on_os (setf (Z.lor (Z.lor ios_base.fixed ios_base.scientific)
                            ios_base.uppercase)) manip) i
  | c_default =>
      if negb (isdigit c) then Halt kUnknownSpecifier
      else
        let end_ := EndNumber (p_text st) i in
        if end_ =? size then Halt kMissingSpecifier
        else
          match ParseNumber streamsize (p_text st) i end_ with
          | Thrown e => Halt e
          | Done w => Next st (on_os (width w) manip) end_
          end
  end.

Definition spec_result := outcome (PState * Manip * nat).

(** The loop over the modifiers.  The result holds the index after the
    specifier.  [None] is returned when [fuel] passes do not finish the loop
    ([ParseFormat_total] shows that the fuel given by [LoopStep] always
    does). *)
Fixpoint ParseSpec (fuel : nat) (st : PState) (manip : Manip) (k i : nat)
    : option spec_result :=
  match fuel with
  | O => None
  | S fuel' =>
      match SpecStep st manip k i with
      | Next st' manip' i' => ParseSpec fuel' st' manip' k i'
      | Last st' manip' i' => Some (Done (st', manip', i'))
      | Halt e => Some (Thrown e)
      end
  end.

(** The block that reads the argument number of a directive, [i] being the
    index after the [%].  The result holds [unknown_number] and the index
    where the modifiers begin. *)
Definition ArgumentNumber (st : PState) (k i : nat)
    : outcome (PState * bool * nat) :=
  match EndArgumentNumber (p_text st) i with
  | Some end_ =>
      if end_ =? length (p_text st) then Thrown kMissingSpecifier
      else
        do argnum <- ParseNumber size_type (p_text st) i (end_ - 1);
        let argnum := Z.to_nat (argnum - 1) in
        let st := HandleArgumentNumber argnum st in
        Done (set_args (SetIndirect argnum Defines.kArg k (p_args st)) st,
              false, end_)
  | None => Done (st, true, i)
  end.

(** What one pass through the body of the loop over the directives ends
    with. *)
Inductive loop_step :=
| Again (st : PState) (i : nat)     (* the search for [%] goes on at [i] *)
| Stop (st : PState)                (* the loop is left *)
| Fail (e : Code)                   (* [Throw(e); return false] *)
| Exhausted.                        (* [ParseSpec] ran out of fuel *)

(** The body of [while (i = text_.find('%', i), i != string::npos)].  The
    [Manip] of a directive is pushed to [format_] when the directive begins
    and is filled through the pointer; the model appends the filled [Manip]
    when the directive ends, at the same index [k]. *)
Definition LoopStep (st : PState) (i : nat) : loop_step :=
  match find "%" (p_text st) i with
  | None => Stop st
  | Some start =>
    let i := S start in
    if i =? length (p_text st) then Fail kTrailingPercentage
    else if Ascii.eqb (at_ (p_text st) i) "%" then
      let st := set_text (erase1 (p_text st) i) st in
      if negb (i =? length (p_text st)) then Again st i
      else Stop st
    else
      let st := push_border start st in
      let k := length (p_format st) in
      match ArgumentNumber st k i with
      | Thrown e => Fail e
      | Done (st, unknown_number, i) =>
        match ParseSpec (S (length (p_text st))) st new_Manip k i with
        | None => Exhausted
        | Some (Thrown e) => Fail e
        | Some (Done (st, manip, i)) =>
            let st := if unknown_number : bool
                      then push_queue (mkRef Defines.kArg k) st else st in
            Again (push_border i (push_format manip st)) i
        end
      end
  end.

Fixpoint ParseLoop (fuel : nat) (st : PState) (i : nat)
    : option (outcome PState) :=
  match fuel with
  | O => None
  | S fuel' =>
      match LoopStep st i with
      | Again st' i' => ParseLoop fuel' st' i'
      | Stop st' => Some (Done st')
      | Fail e => Some (Thrown e)
      | Exhausted => None
      end
  end.

(** The loop [while ((argnum < specified.size()) && specified[argnum])
    ++argnum]. *)
Fixpoint next_free (rest : SpecifiedList) (argnum : nat) : nat :=
  match rest with
  | true :: rest' => next_free rest' (S argnum)
  | _ => argnum
  end.

Definition skip_specified (specified : SpecifiedList) (argnum : nat) : nat :=
  next_free (skipn argnum specified) argnum.

(** Give an argnumber to the postponed requests.  Next to [args_] the
    function returns the numbers it has given, in the order of the queue. *)
Fixpoint GiveNumbers (specified : SpecifiedList) (queue : ArgsDefines)
    (argnum : nat) (args : ArgsList) : ArgsList * list nat :=
  match queue with
  | [] => (args, [])
  | it :: queue' =>
      let argnum := skip_specified specified argnum in
      let r := GiveNumbers specified queue' (S argnum)
                 (SetIndirect argnum (set_these_ it) (manip_ it) args) in
      (fst r, argnum :: snd r)
  end.

Definition count_true (specified : SpecifiedList) : nat :=
  length (filter (fun b : bool => b) specified).

Definition Postponed (st : PState) : PState :=
  match p_queue st with
  | [] => st
  | _ =>
      let total_args := length (p_queue st) + count_true (p_specified st) in
      set_args (fst (GiveNumbers (p_specified st) (p_queue st) 0
                       (resize total_args [] (p_args st)))) st
  end.

Definition init_PState (t : text) : PState := mkPState t [] [] [] [] [].

Definition ParseFormat (t : text) : option (outcome PState) :=
  match ParseLoop (S (length t)) (init_PState t) 0 with
  | Some (Done st) => Some (Done (Postponed st))
  | r => r
  end.

(** [ParseFormat] works on [text_] itself: when it throws, [text_] holds the
    format with those pairs [%%] collapsed that the loop has met before.
    The pass that throws does not change the text, so this is the text of
    the state in which that pass begins. *)
Fixpoint ParseLoop_text (fuel : nat) (st : PState) (i : nat) : text :=
  match fuel with
  | O => p_text st
  | S fuel' =>
      match LoopStep st i with
      | Again st' i' => ParseLoop_text fuel' st' i'
      | _ => p_text st
      end
  end.

Definition text_at_Throw (t : text) : text :=
  ParseLoop_text (S (length t)) (init_PState t) 0.

(** ** The [Format] object *)

(** The sinks are outside the engine.  A [FILE] is given by what [fwrite]
    and [fflush] will answer, a [std::ostream] by what [bad()] will answer
    after the insertion and after the flush. *)
Record FILE := mkFILE {
  fwrite_accepts : nat;       (* fwrite writes at most that many bytes *)
  fflush_fails : bool
}.

Record sink_stream := mkStream {
  bad_after_write : bool;
  bad_after_flush : bool
}.

(** The [Parse] object.  [current_arg_] is the position of the iterator in
    [args_]; [append_] holds the present content of the string it points
    to. *)
Record Parse := mkParse {
  format_ : list Manip;
  borders_ : list nat;
  args_ : ArgsList;
  current_arg_ : nat;
  simple_ : bool;
  append_ : option text;
  file_ : option FILE;
  sink_ostream_ : option sink_stream
}.

(** [success_] is [None] for a NULL pointer and otherwise holds the present
    value of the pointee.  [appended_] is the content of the string behind
    the [append] pointer of the last output (the string outlives [Parse]).
    [aborted_] records that [Throw] has printed the diagnostic of the given
    error and has called [std::abort()]: the process has ended and no
    operation changes the object any more. *)
Record Format := mkFormat {
  abort_ : bool;
  success_ : option bool;
  error_ : Code;
  count_ : nat;
  text_ : text;
  parse_ : option Parse;
  flags_ : Special.Special;
  appended_ : option text;
  aborted_ : option Code
}.

Definition set_success_value (b : bool) (s : option bool) : option bool :=
  match s with
  | Some _ => Some b
  | None => None
  end.

Definition Throw (error : Code) (f : Format) : Format :=
  match aborted_ f with
  | Some _ => f
  | None =>
    if abort_ f then
      mkFormat (abort_ f) (success_ f) (error_ f) (count_ f) (text_ f)
               (parse_ f) (flags_ f) (appended_ f) (Some error)
    else
      mkFormat (abort_ f) (set_success_value false (success_ f)) error
               (count_ f) (text_ f) None (flags_ f) (appended_ f) None
  end.

Definition set_text_ (t : text) (f : Format) : Format :=
  mkFormat (abort_ f) (success_ f) (error_ f) (count_ f) t (parse_ f)
           (flags_ f) (appended_ f) (aborted_ f).

Definition set_parse_ (p : option Parse) (f : Format) : Format :=
  mkFormat (abort_ f) (success_ f) (error_ f) (count_ f) (text_ f) p
           (flags_ f) (appended_ f) (aborted_ f).

Definition flush (f : Format) : bool :=
  Special.HaveBits (flags_ f) Special.kFlush.

(** [OutputInternal(std::string *append)]; [target] is the content of the
    string. *)
Definition OutputInternal_string (target : text) (f : Format) : Format :=
  mkFormat (abort_ f) (set_success_value true (success_ f)) kNone (count_ f)
           (text_ f) (parse_ f) (flags_ f) (Some (target ++ text_ f))
           (aborted_ f).

Definition set_result (success : bool) (count : nat) (f : Format) : Format :=
  mkFormat (abort_ f) (set_success_value success (success_ f)) (error_ f) count
           (text_ f) (parse_ f) (flags_ f) (appended_ f) (aborted_ f).

Definition clear_error (count : nat) (f : Format) : Format :=
  mkFormat (abort_ f) (success_ f) kNone count (text_ f) (parse_ f) (flags_ f)
           (appended_ f) (aborted_ f).

(** [OutputInternal(FILE *file)] *)
Definition OutputInternal_file (file : FILE) (f : Format) : Format :=
  let f := clear_error 0 f in
  match text_ f with
  | [] => set_result true 0 f
  | _ =>
    let count := Nat.min (length (text_ f)) (fwrite_accepts file) in
    let f := clear_error count f in
    if count <? length (text_ f) then
      let f := Throw kWriteFailed f in
      match aborted_ f with
      | Some _ => f
      | None => set_result false count f
      end
    else if flush f && fflush_fails file then
      let f := Throw kFlushFailed f in
      match aborted_ f with
      | Some _ => f
      | None => set_result false count f
      end
    else set_result true count f
  end.

(** [OutputInternal(std::ostream& ostream)] *)
Definition OutputInternal_stream (s : sink_stream) (f : Format) : Format :=
  let f := clear_error (count_ f) f in
  match text_ f with
  | [] => set_result true (count_ f) f
  | _ =>
    if bad_after_write s then
      let f := Throw kWriteFailed f in
      match aborted_ f with
      | Some _ => f
      | None => set_result false (count_ f) f
      end
    else if flush f && bad_after_flush s then
      let f := Throw kFlushFailed f in
      match aborted_ f with
      | Some _ => f
      | None => set_result false (count_ f) f
      end
    else set_result true (count_ f) f
  end.

(** [InitialOutput] is called with [parse_] set. *)
Definition InitialOutput (f : Format) : Format :=
  match parse_ f with
  | None => f
  | Some parse =>
    let f := if Special.HaveBits (flags_ f) Special.kNewline
             then set_text_ (text_ f ++ ["010"%char]) f else f in
    let f :=
      match append_ parse, file_ parse, sink_ostream_ parse with
      | Some target, _, _ => OutputInternal_string target f
      | None, Some file, _ => OutputInternal_file file f
      | None, None, Some s => OutputInternal_stream s f
      | None, None, None =>
          set_result true (count_ f) (clear_error (count_ f) f)
      end in
    match aborted_ f with
    | Some _ => f
    | None => set_parse_ None f
    end
  end.

(** ** The overloads chosen by the type of the argument

    Each returns [Thrown e] where the code calls [Throw(e)] and returns
    false. *)

Definition SetLocale (os : ostringstream) (arg : Value) : outcome ostringstream :=
  match arg with
  | VLocale l => Done (imbue l os)
  | _ => Thrown kLocaleArgIsNoLocale
  end.

Definition SetPrecision (os : ostringstream) (arg : Value) : outcome ostringstream :=
  match arg with
  | VNum _ v => Done (precision (to_streamsize v) os)
  | _ => Thrown kPrecisionArgIsNotNumeric
  end.

(** [arg = -arg]: the negation is computed after integral promotion and the
    result is converted back to the type of [arg].  For [int] and the wider
    types the negation of the least value overflows, which is undefined in
    C++; the model takes the two's-complement result there. *)
Definition negate (t : ctype) (v : Z) : Z := convert t (- v).

Definition SetWidth (os : ostringstream) (arg : Value) : outcome ostringstream :=
  match arg with
  | VNum TBool v
  | VNum TUChar v | VNum TUShort v | VNum TUInt v | VNum TULong v
  | VNum TULongLong v =>
      Done (width (to_streamsize v) os)
  | VNum TChar v =>
      (* Do not trigger a warning if char is unsigned *)
      if (v <=? 0)%Z && negb (v =? 0)%Z
      then Done (width (to_streamsize (negate TChar v))
                   (setf_mask ios_base.left ios_base.adjustfield os))
      else Done (width (to_streamsize v) os)
  | VNum t v =>
      if (v <? 0)%Z
      then Done (width (to_streamsize (negate t v))
                   (setf_mask ios_base.left ios_base.adjustfield os))
      else Done (width (to_streamsize v) os)
  | _ => Thrown kWidthArgIsNotNumeric
  end.

Definition SetFill (os : ostringstream) (arg : Value) : outcome ostringstream :=
  match arg with
  | VNum _ v => Done (fill (to_char v) os)
  | _ => Thrown kFillArgIsNotChar
  end.

Definition StringStandard (os : ostringstream) (arg : Value) : outcome ostringstream :=
  match arg with
  | VLocale _ => Thrown kLocaleMustNotBeOutput
  | _ => Done (put os arg)
  end.

Definition StringNpos (os : ostringstream) (arg : Value) : outcome ostringstream :=
  match arg with
  | VLocale _ => Thrown kLocaleMustNotBeOutput
  | VNum TULong v =>
      if (v =? npos)%Z then Done (put os (VStr (s2l "std::string::npos")))
      else Done (put os arg)
  | _ => Done (put os arg)
  end.

(** ** [operator%] *)

Definition clear_need (kind : Z) (m : Manip) : Manip :=
  set_need m (Z.land (need_ m) (Z.lnot kind)).

(** One modifier of a reference: [if ((set_these & kind) != kNone)
    { if (!Set(&os, arg)) return *this; manip->need_ &= ~kind; }] *)
Definition apply_modifier (kind : Z)
    (Set_ : ostringstream -> Value -> outcome ostringstream)
    (set_these : Z) (arg : Value) (m : Manip) : outcome Manip :=
  if has set_these kind then
    do os <- Set_ (ostream_ m) arg;
    Done (clear_need kind (mkManip os (extensions_ m) (need_ m)))
  else Done m.

(** The body of the loop over the references of the current argument. *)
Definition apply_reference (set_these : Z) (arg : Value) (m : Manip)
    : outcome Manip :=
  do m <- apply_modifier Defines.kLocale SetLocale set_these arg m;
  do m <- apply_modifier Defines.kPrecision SetPrecision set_these arg m;
  do m <- apply_modifier Defines.kWidth SetWidth set_these arg m;
  do m <- apply_modifier Defines.kFill SetFill set_these arg m;
  (* It is important to process kArg last so that all data could be set *)
  if negb (has set_these Defines.kArg) then Done m
  else if negb (need_ m =? Defines.kNone)%Z then Thrown kTooEarlyArgument
  else if has (extensions_ m) Extensions.kIgnore then Done m
  else if has (extensions_ m) Extensions.kStringNpos then
    do os <- StringNpos (ostream_ m) arg;
    Done (mkManip os (extensions_ m) (need_ m))
  else
    do os <- StringStandard (ostream_ m) arg;
    Done (mkManip os (extensions_ m) (need_ m)).

(** The loop over [defines].  A reference always points into [format_]; the
    model skips one that does not. *)
Fixpoint apply_defines (defines : ArgsDefines) (arg : Value)
    (format : list Manip) : outcome (list Manip) :=
  match defines with
  | [] => Done format
  | it :: defines' =>
      match nth_error format (manip_ it) with
      | Some m =>
          do m' <- apply_reference (set_these_ it) arg m;
          apply_defines defines' arg (upd (manip_ it) m' format)
      | None => apply_defines defines' arg format
      end
  end.

(** ** [FinishInsertingArgs] *)

(** What the assembler appends for one [Manip]. *)
Definition plus_to_space (s : text) : text :=
  match find "+" s 0 with
  | Some plus => upd plus " "%char s
  | None => s
  end.

Definition manip_text (manip : Manip) : text :=
  let extensions := extensions_ manip in
  if has extensions Extensions.kIgnore then []
  else if negb (has extensions Extensions.kPlusSpace)
       then os_str (ostream_ manip)
       else plus_to_space (os_str (ostream_ manip)).

(** The loop over [formats] with the iterator over [borders_], which holds
    two entries per [Manip]; the result holds [current_pos] at the end. *)
Fixpoint assemble (t : text) (formats : list Manip) (borders : list nat)
    (current_pos : nat) (result : text) : text * nat :=
  match formats, borders with
  | manip :: formats', b :: e :: borders' =>
      assemble t formats' borders' e
        (result ++ substr t current_pos (b - current_pos) ++ manip_text manip)
  | _, _ => (result, current_pos)
  end.

Definition FinishInsertingArgs (f : Format) : Format :=
  match parse_ f with
  | None => f
  | Some parse =>
      let r := assemble (text_ f) (format_ parse) (borders_ parse) 0 [] in
      InitialOutput (set_text_ (fst r ++ skipn (snd r) (text_ f)) f)
  end.

Definition set_format_ (fm : list Manip) (p : Parse) : Parse :=
  mkParse fm (borders_ p) (args_ p) (current_arg_ p) (simple_ p)
          (append_ p) (file_ p) (sink_ostream_ p).

Definition next_arg (p : Parse) : Parse :=
  mkParse (format_ p) (borders_ p) (args_ p) (S (current_arg_ p)) (simple_ p)
          (append_ p) (file_ p) (sink_ostream_ p).

(** [operator%]: feed one argument.  [*(parse->current_arg_)] is taken
    inside [args_]: the iterator is at the end only when [args_] is empty
    in the simple mode, which returns before. *)
Definition feed (f : Format) (arg : Value) : Format :=
  match aborted_ f with
  | Some _ => f
  | None =>
    match parse_ f with
    | None =>
        if Code_eqb (error_ f) kNone then Throw kTooManyArguments f else f
    | Some parse =>
        if simple_ parse then
          match StringStandard new_ostringstream arg with
          | Thrown e => Throw e f
          | Done os => InitialOutput (set_text_ (os_str os) f)
          end
        else
          match apply_defines (nth (current_arg_ parse) (args_ parse) [])
                              arg (format_ parse) with
          | Thrown e => Throw e f
          | Done format =>
              let parse := next_arg (set_format_ format parse) in
              let f := set_parse_ (Some parse) f in
              if current_arg_ parse =? length (args_ parse)
              then FinishInsertingArgs f
              else f
          end
    end
  end.

Definition feed_all (f : Format) (args : list Value) : Format :=
  fold_left feed args f.

(** ** Reading the result *)

Definition Check (f : Format) : Format :=
  match aborted_ f with
  | Some _ => f
  | None =>
    match parse_ f with
    | Some _ => Throw kTooFewArguments f
    | None => f
    end
  end.

(** [str()], [StringReference()], [c_str()]: the object after the call and
    the string returned. *)
Definition str (f : Format) : Format * text :=
  let f := Check f in (f, text_ f).

Definition size (f : Format) : Format * nat :=
  let f := Check f in (f, length (text_ f)).

Definition empty (f : Format) : Format * bool :=
  let f := Check f in (f, match text_ f with [] => true | _ => false end).

(** [Output(std::string *append)], [Output(FILE *file)] and
    [Output(std::ostream& ostream)], the last one also behind [os << f]:
    [Check()] and then [OutputInternal]. *)
Definition Output_string (target : text) (f : Format) : Format :=
  let f := Check f in
  match aborted_ f with
  | Some _ => f
  | None => OutputInternal_string target f
  end.

Definition Output_file (file : FILE) (f : Format) : Format :=
  let f := Check f in
  match aborted_ f with
  | Some _ => f
  | None => OutputInternal_file file f
  end.

Definition Output_stream (s : sink_stream) (f : Format) : Format :=
  let f := Check f in
  match aborted_ f with
  | Some _ => f
  | None => OutputInternal_stream s f
  end.

(** ** Construction *)

Definition new_Parse (simple : bool) (append : option text)
    (file : option FILE) (os : option sink_stream) : Parse :=
  mkParse [] [] [] 0 simple append file os.

(** The state that the constructors hand to [Init]: [abort_] is true for
    the constructors without the [success] parameter, [error_] and [count_]
    are not initialised there (the model starts them at [kNone] and 0; [Init]
    always sets [error_]). *)
Definition raw_Format (abort : bool) (success : option bool) (t : text)
    (flags : Special.Special) : Format :=
  mkFormat abort (if abort then None else success) kNone 0 t None flags None
           None.

Definition awaiting (f : Format) : Format :=
  mkFormat (abort_ f) (set_success_value false (success_ f)) kTooFewArguments
           (count_ f) (text_ f) (parse_ f) (flags_ f) (appended_ f)
           (aborted_ f).

(** [Init(append, file, ostream, bool format)]: the format is a [bool] or is
    omitted. *)
Definition Init_simple (append : option text) (file : option FILE)
    (os : option sink_stream) (format : bool) (f : Format) : Format :=
  let f := set_parse_ (Some (new_Parse true append file os)) f in
  if negb format then InitialOutput f else awaiting f.

(** [Init(append, file, ostream)]: the format is a string.  [ParseFormat]
    never runs out of fuel ([ParseFormat_total]).  After an error of the
    parser [text_] holds the format with the pairs [%%] collapsed so far
    ([text_at_Throw]); that is the text which [Throw] prints or leaves in
    the object. *)
Definition Init (append : option text) (file : option FILE)
    (os : option sink_stream) (f : Format) : Format :=
  let f := set_parse_ (Some (new_Parse false append file os)) f in
  match ParseFormat (text_ f) with
  | None => f
  | Some (Thrown e) => Throw e (set_text_ (text_at_Throw (text_ f)) f)
  | Some (Done st) =>
      let parse := mkParse (p_format st) (p_borders st) (p_args st) 0 false
                           append file os in
      let f := set_parse_ (Some parse) (set_text_ (p_text st) f) in
      match p_args st with
      | [] => InitialOutput f
      | _ => awaiting f
      end
  end.

(** [Format(bool *success, const char *format, Special flags)] and its
    relatives without a sink; [success] is the content of the pointee. *)
Definition Format_reported (success : option bool) (format : string)
    (flags : Special.Special) : Format :=
  Init None None None (raw_Format false success (s2l format) flags).

(** ** Notions used in the statements *)

(** The decimal value of a run of digits. *)
Definition decimal_value (digits : text) : Z :=
  fold_left (fun acc c => (acc * 10 + digit_val c)%Z) digits 0%Z.

(** The digits of the number that a directive holds from [start] to
    [end_]. *)
Definition digits_between (t : text) (start end_ : nat) : text :=
  substr t start (end_ - start).

(** The value accumulated from [acc] over a run of digits. *)
Definition accumulate (acc : Z) (digits : text) : Z :=
  fold_left (fun acc c => (acc * 10 + digit_val c)%Z) digits acc.

(** The alignment of a stream. *)
Definition alignment (os : ostringstream) : Z :=
  Z.land (os_flags os) ios_base.adjustfield.

(** A [Manip] with the ignore extension (the specifier [n]) never receives
    text: [operator%] leaves its stream alone. *)
Definition ignored_is_empty (manip : Manip) : Prop :=
  has (extensions_ manip) Extensions.kIgnore = true ->
  os_str (ostream_ manip) = [].

(** The modifier kinds in the canonical order, each with the function that
    applies an argument as a modifier of that kind. *)
Definition canonical_order
    : list (Z * (ostringstream -> Value -> outcome ostringstream)) :=
  [ (Defines.kLocale, SetLocale);
    (Defines.kPrecision, SetPrecision);
    (Defines.kWidth, SetWidth);
    (Defines.kFill, SetFill) ].

(** The modifiers of a reference, applied one after the other in the
    canonical order; the first one that fails ends the application. *)
Definition apply_modifiers (set_these : Z) (arg : Value) (m : Manip)
    : outcome Manip :=
  fold_left
    (fun acc ks => do m <- acc; apply_modifier (fst ks) (snd ks) set_these arg m)
    canonical_order (Done m).

(** The argument applied as the main argument of a [Manip]. *)
Definition apply_MainArg (arg : Value) (m : Manip) : outcome Manip :=
  if negb (need_ m =? Defines.kNone)%Z then Thrown kTooEarlyArgument
  else if has (extensions_ m) Extensions.kIgnore then Done m
  else
    do os <- (if has (extensions_ m) Extensions.kStringNpos
              then StringNpos (ostream_ m) arg
              else StringStandard (ostream_ m) arg);
    Done (mkManip os (extensions_ m) (need_ m)).

(** The dispatch of one reference as the specification words it: Locale,
    Precision, Width, Fill, then MainArg last. *)
Definition apply_in_canonical_order (set_these : Z) (arg : Value) (m : Manip)
    : outcome Manip :=
  do m <- apply_modifiers set_these arg m;
  if has set_these Defines.kArg then apply_MainArg arg m else Done m.

(** The dispatch of all the bindings of one argument as the specification
    words it, in the canonical order over the whole list: first the
    bindings of the kind Locale of every [Manip], then those of the kinds
    Precision, Width and Fill, and the main arguments last. *)
Fixpoint apply_kind_to_all (kind : Z)
    (Set_ : ostringstream -> Value -> outcome ostringstream)
    (defines : ArgsDefines) (arg : Value) (format : list Manip)
    : outcome (list Manip) :=
  match defines with
  | [] => Done format
  | it :: defines' =>
      match nth_error format (manip_ it) with
      | Some m =>
          do m' <- apply_modifier kind Set_ (set_these_ it) arg m;
          apply_kind_to_all kind Set_ defines' arg (upd (manip_ it) m' format)
      | None => apply_kind_to_all kind Set_ defines' arg format
      end
  end.

Fixpoint apply_MainArg_to_all (defines : ArgsDefines) (arg : Value)
    (format : list Manip) : outcome (list Manip) :=
  match defines with
  | [] => Done format
  | it :: defines' =>
      match nth_error format (manip_ it) with
      | Some m =>
          if has (set_these_ it) Defines.kArg then
            do m' <- apply_MainArg arg m;
            apply_MainArg_to_all defines' arg (upd (manip_ it) m' format)
          else apply_MainArg_to_all defines' arg format
      | None => apply_MainArg_to_all defines' arg format
      end
  end.

Definition apply_bindings_in_canonical_order (defines : ArgsDefines)
    (arg : Value) (format : list Manip) : outcome (list Manip) :=
  do format <- apply_kind_to_all Defines.kLocale SetLocale defines arg format;
  do format <- apply_kind_to_all Defines.kPrecision SetPrecision defines arg
                 format;
  do format <- apply_kind_to_all Defines.kWidth SetWidth defines arg format;
  do format <- apply_kind_to_all Defines.kFill SetFill defines arg format;
  apply_MainArg_to_all defines arg format.

(** The operation that led from [f] to [f'] has failed with the error [e]:
    under the abort policy the diagnostic of [e] was printed and the process
    was aborted, under the reported policy [e] is recorded, the success flag
    is cleared and the object takes no further argument. *)
Definition failed_with (e : Code) (f f' : Format) : Prop :=
  if abort_ f then aborted_ f' = Some e
  else aborted_ f' = None /\ error_ f' = e /\ parse_ f' = None /\
       success_ f' = set_success_value false (success_ f).

(** The number of arguments that an object still awaits. *)
Definition pending (f : Format) : nat :=
  match parse_ f with
  | Some p => if simple_ p then 1 else length (args_ p) - current_arg_ p
  | None => 0
  end.

(** An object on which no operation has failed so far and which awaits [n]
    more arguments: in progress for [n > 0], complete for [n = 0]. *)
Definition awaits (f : Format) (n : nat) : Prop :=
  aborted_ f = None /\
  match parse_ f with
  | Some p => 0 < n /\ n = pending f
  | None => n = 0 /\ error_ f = kNone
  end.

(** An object on which an operation has failed. *)
Definition has_failed (f : Format) : Prop :=
  aborted_ f <> None \/ (parse_ f = None /\ error_ f <> kNone).

(** The kinds of the indirect modifiers. *)
Definition is_modifier (kind : Z) : Prop :=
  kind = Defines.kLocale \/ kind = Defines.kPrecision \/
  kind = Defines.kWidth \/ kind = Defines.kFill.

(** [x] may stand before [y] in the queue of the postponed requests: the
    [Manip] of [x] is not a later one, and when both belong to the same
    [Manip] then [x] is not its main argument. *)
Definition before (x y : References) : Prop :=
  manip_ x <= manip_ y /\
  (manip_ x = manip_ y -> set_these_ x <> Defines.kArg).

(** The queue is in textual order: directive by directive (the [Manip]s are
    numbered in the order of the format string), and within a directive the
    indirect modifiers before the main argument. *)
Fixpoint queue_ordered (queue : ArgsDefines) : Prop :=
  match queue with
  | [] => True
  | x :: queue' => Forall (before x) queue' /\ queue_ordered queue'
  end.

(** Every request of the queue asks for one kind. *)
Definition one_kind (r : References) : Prop :=
  is_modifier (set_these_ r) \/ set_these_ r = Defines.kArg.




(** Tactics for the case analysis of the parser. *)
Ltac destruct_match_in H :=
  match type of H with
  | context [match ?x with _ => _ end] =>
      lazymatch x with
      | context [match _ with _ => _ end] => fail
      | _ => destruct x eqn:?
      end
  end.

Ltac destruct_match_goal :=
  match goal with
  | |- context [match ?x with _ => _ end] =>
      lazymatch x with
      | context [match _ with _ => _ end] => fail
      | _ => destruct x eqn:?
      end
  end.

(** What the parser keeps of a [Manip] while it reads the modifiers: the
    stream has received no text, no extension flag is withdrawn, and
    [showpos] stays set once it is set. *)
Definition manip_kept (m m' : Manip) : Prop :=
  os_str (ostream_ m') = os_str (ostream_ m) /\
  (forall b, has (extensions_ m) b = true -> has (extensions_ m') b = true) /\
  (has (os_flags (ostream_ m)) ios_base.showpos = true ->
   has (os_flags (ostream_ m')) ios_base.showpos = true).

(** The errors of the format string that the parser throws. *)
Definition syntax_error (e : Code) : Prop :=
  e = kTrailingPercentage \/ e = kMissingSpecifier \/
  e = kUnknownSpecifier \/ e = kMissingFillCharacter \/
  e = kNumberOverflow.

(** A request postponed by the directive of the [Manip] [k] for one of its
    indirect modifiers. *)
Definition modifier_of (k : nat) (r : References) : Prop :=
  manip_ r = k /\ is_modifier (set_these_ r).

(** The loop over the modifiers, started at [i], comes to a pass whose
    character is the modifier ' '. *)
Fixpoint meets_space (fuel : nat) (st : PState) (manip : Manip) (k i : nat)
    : bool :=
  match fuel with
  | O => false
  | S fuel' =>
      match case_of (at_ (p_text st) i) with
      | c_space => true
      | _ =>
          match SpecStep st manip k i with
          | Next st' manip' i' => meets_space fuel' st' manip' k i'
          | _ => false
          end
      end
  end.



(** The invariant of the queue of the postponed requests while the format
    is parsed. *)
Definition queue_inv (st : PState) : Prop :=
  queue_ordered (p_queue st) /\
  Forall (fun r => manip_ r < length (p_format st) /\ one_kind r) (p_queue st).

(** *** A literal prefix

    The parser state of a format [t] seen as the part of [p ++ t] after the
    prefix [p]: the text begins with [p] and the borders are moved by the
    length of [p]. *)
Definition shift (p : text) (st : PState) : PState :=
  mkPState (p ++ p_text st) (p_format st)
           (map (Nat.add (length p)) (p_borders st))
           (p_args st) (p_specified st) (p_queue st).

Definition shift_spec (p : text) (r : spec_result) : spec_result :=
  match r with
  | Done (st, m, i) => Done (shift p st, m, length p + i)
  | Thrown e => Thrown e
  end.

Definition shift_step (p : text) (s : spec_step) : spec_step :=
  match s with
  | Next st m i => Next (shift p st) m (length p + i)
  | Last st m i => Last (shift p st) m (length p + i)
  | Halt e => Halt e
  end.

Definition shift_loop (p : text) (s : loop_step) : loop_step :=
  match s with
  | Again st i => Again (shift p st) (length p + i)
  | Stop st => Stop (shift p st)
  | Fail e => Fail e
  | Exhausted => Exhausted
  end.

Definition shift_result (p : text) (r : outcome PState) : outcome PState :=
  match r with
  | Done st => Done (shift p st)
  | Thrown e => Thrown e
  end.

(** Two objects without a sink that differ by a literal prefix [p] of the
    text only. *)
Definition same_but_prefix (p : text) (f1 f2 : Format) : Prop :=
  abort_ f1 = abort_ f2 /\ success_ f1 = success_ f2 /\
  error_ f1 = error_ f2 /\ flags_ f1 = flags_ f2 /\
  aborted_ f1 = aborted_ f2 /\
  text_ f1 = p ++ text_ f2 /\
  match parse_ f1, parse_ f2 with
  | None, None => True
  | Some p1, Some p2 =>
      format_ p1 = format_ p2 /\ args_ p1 = args_ p2 /\
      current_arg_ p1 = current_arg_ p2 /\
      simple_ p1 = false /\ simple_ p2 = false /\
      borders_ p1 = map (Nat.add (length p)) (borders_ p2) /\
      append_ p1 = None /\ file_ p1 = None /\ sink_ostream_ p1 = None /\
      append_ p2 = None /\ file_ p2 = None /\ sink_ostream_ p2 = None
  | _, _ => False
  end.

(** Every [Manip] of an object in progress satisfies [ignored_is_empty]. *)
Definition manips_ok (f : Format) : Prop :=
  match parse_ f with
  | Some p => Forall ignored_is_empty (format_ p)
  | None => True
  end.



(** ** Further members of the classes *)

(** [Error::Description], the table that [Error::c_str] indexes with the
    code. *)
Definition Description : list string :=
  [ EmptyString;
    "not all data was properly written";
    "flush failed";
    "too many arguments passed (or too few specified)";
    "too few arguments passed (or too many specified)";
    "too early argument, e.g. a width is passed only after the argument";
    "argument for ~ is not a locale";
    "locale argument must not be output";
    "argument for . is not numeric";
    "argument for width is not numeric";
    "argument for fill is not a character";
    "trailing % sign";
    "argument number without trailing $";
    "number overflow";
    "missing specifier";
    "unknown specifier";
    "missing fill character" ]%string.

(** [static_cast<unsigned int>(c)] *)
Definition index_of (c : Code) : nat :=
  match c with
  | kNone => 0
  | kWriteFailed => 1
  | kFlushFailed => 2
  | kTooManyArguments => 3
  | kTooFewArguments => 4
  | kTooEarlyArgument => 5
  | kLocaleArgIsNoLocale => 6
  | kLocaleMustNotBeOutput => 7
  | kPrecisionArgIsNotNumeric => 8
  | kWidthArgIsNotNumeric => 9
  | kFillArgIsNotChar => 10
  | kTrailingPercentage => 11
  | kNumberWithoutDollar => 12
  | kNumberOverflow => 13
  | kMissingSpecifier => 14
  | kUnknownSpecifier => 15
  | kMissingFillCharacter => 16
  end.

(** The enumerator after the last code. *)
Definition kEnd : nat := 17.

(** [Error::c_str]; [None] is the failed assertion [index < kEnd], or an
    index outside the table. *)
Definition Error_c_str (c : Code) : option string :=
  let index := index_of c in
  if index <? kEnd then nth_error Description index else None.

(** [bool count() const { return count_; }]: the accessor is declared
    [bool], so that it returns the count converted to [bool], that is
    whether [count_] is not 0. *)
Definition count (f : Format) : bool := negb (count_ f =? 0).

(** [Format::flush(bool flush_state)] *)
Definition set_flags_ (s : Special.Special) (f : Format) : Format :=
  mkFormat (abort_ f) (success_ f) (error_ f) (count_ f) (text_ f) (parse_ f)
           s (appended_ f) (aborted_ f).

Definition flush_bool (flush_state : bool) (f : Format) : Format :=
  if flush_state
  then set_flags_ (Special.SetBits (flags_ f) Special.kFlush) f
  else set_flags_ (Special.ClearBits (flags_ f) Special.kFlush) f.

(** [Format(const Format& s)]: [assign] copies every member but [parse_],
    which the copy does not get.  The copy has sent nothing to a string;
    the pointer [success_] is copied, so that the copy starts with the
    value of the pointee. *)
Definition Format_copy (s : Format) : Format :=
  mkFormat (abort_ s) (success_ s) (error_ s) (count_ s) (text_ s) None
           (flags_ s) None (aborted_ s).

(** The objects that a constructor and [operator%] lead to. *)
Inductive reachable : Format -> Prop :=
| reach_Init append file os abort success t flags :
    reachable (Init append file os (raw_Format abort success t flags))
| reach_Init_simple append file os format abort success flags :
    reachable (Init_simple append file os format
                 (raw_Format abort success [] flags))
| reach_feed f arg : reachable f -> reachable (feed f arg).

(** [Say(bool *success, const char *format, Special flags)] and
    [Say(const char *format, Special flags)], the latter with [abort];
    [stdout] holds the answers of the standard output. *)
Definition Say (abort : bool) (success : option bool) (stdout : FILE)
    (format : text) (flags : Special.Special) : Format :=
  Init None (Some stdout) None
       (raw_Format abort success format
          (Special.New (Z.lor (Special.flags_ flags) Special.kNewline))).

(** ** Further notions used in the statements *)

(** The first value that the type of [ParseNumber] does not hold. *)
Definition limit (T : numtype) : Z :=
  match T with
  | size_type => 2 ^ 64
  | streamsize => 2 ^ 63
  end%Z.

(** The modifiers that stand for themselves: [#], the space, [+], [0], [-]
    and [:]. *)
Definition flag_character (c : ascii) : bool :=
  match case_of c with
  | c_hash | c_space | c_plus | c_zero | c_minus | c_colon => true
  | _ => false
  end.

(** The newline that [InitialOutput] appends under the newline flag. *)
Definition newline_of (flags : Special.Special) : text :=
  if Special.HaveBits flags Special.kNewline then ["010"%char] else [].

(** The integral types that are inserted as numbers. *)
Definition number_type (t : ctype) : bool :=
  match t with
  | TShort | TUShort | TInt | TUInt | TLong | TULong | TLongLong
  | TULongLong => true
  | _ => false
  end.

(** The value of [t] as the unsigned number that the octal and the
    hexadecimal conversion show. *)
Definition unsigned_view (t : ctype) (v : Z) : Z := (v mod 2 ^ bits t)%Z.

(** A signed decimal number as the stream writes it without [showpos]. *)
Definition signed_decimal (v : Z) : text :=
  if (v <? 0)%Z then "-"%char :: to_digits 10 false (- v)
  else to_digits 10 false v.

(** Two objects that agree in every member but [parse_], and in whether
    [parse_] is NULL. *)
Definition same_observables (f g : Format) : Prop :=
  abort_ f = abort_ g /\ success_ f = success_ g /\ error_ f = error_ g /\
  count_ f = count_ g /\ text_ f = text_ g /\ flags_ f = flags_ g /\
  appended_ f = appended_ g /\ aborted_ f = aborted_ g /\
  (parse_ f = None <-> parse_ g = None).


(** Two objects without a sink of which the first has the newline flag and
    the second has not, and which are otherwise in the same state: in
    progress with the same text, or no longer in progress, where the first
    one, if no error is recorded, holds the text of the second one and a
    newline. *)
Definition newline_added (f1 f2 : Format) : Prop :=
  abort_ f1 = abort_ f2 /\ success_ f1 = success_ f2 /\
  error_ f1 = error_ f2 /\ aborted_ f1 = aborted_ f2 /\
  Special.HaveBits (flags_ f1) Special.kNewline = true /\
  Special.HaveBits (flags_ f2) Special.kNewline = false /\
  match parse_ f1, parse_ f2 with
  | Some p1, Some p2 =>
      p1 = p2 /\ text_ f1 = text_ f2 /\
      append_ p1 = None /\ file_ p1 = None /\ sink_ostream_ p1 = None
  | None, None => error_ f1 = kNone -> text_ f1 = text_ f2 ++ ["010"%char]
  | _, _ => False
  end.

(** The references of every argument point to different [Manip]s, all of
    them among the first [k] of [format_]. *)
Definition refs_inv (k : nat) (args : ArgsList) : Prop :=
  Forall (fun defs => NoDup (map manip_ defs) /\
                      Forall (fun r => manip_ r < k) defs) args.

(** The fields of [newline_added] for two objects built alike. *)
Ltac newline_added_fields :=
  unfold newline_added; cbn;
  repeat match goal with
         | E : parse_ _ = _ |- _ => rewrite E
         end;
  repeat split; first [assumption | reflexivity | congruence].

(** What holds of an object made by [Say] and fed arguments: the newline
    flag is set, the sink is the standard output, and a complete object
    holds a text that ends with a newline and has been written as a
    whole. *)
Definition Say_inv (stdout : FILE) (f : Format) : Prop :=
  Special.HaveBits (flags_ f) Special.kNewline = true /\
  (forall p, parse_ f = Some p ->
             append_ p = None /\ file_ p = Some stdout) /\
  (awaits f 0 ->
   (exists body, text_ f = body ++ ["010"%char]) /\
   count_ f = length (text_ f)).

(** * Properties *)

(** ** Strings and vectors *)

Lemma isdigit_digit_val c : isdigit c = true -> (0 <= digit_val c <= 9)%Z.
Proof.
  unfold isdigit, digit_val. intros H.
  apply andb_true_iff in H. destruct H as [H1 H2].
  apply Nat.leb_le in H1. apply Nat.leb_le in H2. lia.
Qed.

Lemma IsPositiveNumber_digit_val c :
  IsPositiveNumber c = true -> (1 <= digit_val c <= 9)%Z.
Proof.
  unfold IsPositiveNumber. intros H.
  apply andb_true_iff in H. destruct H as [H1 H2].
  pose proof (isdigit_digit_val _ H1) as Hd.
  assert (digit_val c <> 0%Z); [|lia].
  intros H0. unfold digit_val in H0.
  assert (nat_of_ascii c = 48) as E by lia.
  assert (c = "0"%char) as ->.
  { rewrite <- (ascii_nat_embedding c), E. reflexivity. }
  discriminate.
Qed.

Lemma skipn_nth_cons {A} (l : list A) (d : A) : forall n,
  n < length l -> skipn n l = nth n l d :: skipn (S n) l.
Proof.
  induction l as [|x l IH]; intros n Hn; simpl in Hn; [lia|].
  destruct n; [reflexivity|].
  simpl. apply IH. lia.
Qed.

(** ** [Special] *)

(** C7: [Special::Flush()] returns a value whose flag bits are [kNewline]
    and not [kFlush], so that [Flush()] and [Newline()] return equal
    values. *)
Theorem Flush_returns_Newline :
  Special.flags_ Special.Flush = Special.kNewline /\
  Special.flags_ Special.Flush <> Special.kFlush /\
  Special.Flush = Special.Newline /\
  Special.HaveBits Special.Flush Special.kFlush = false.
Proof. repeat split. discriminate. Qed.

(** ** [ParseNumber] *)

Lemma convert_ULong_small v :
  (0 <= v < 2 ^ 64)%Z -> convert TULong v = v.
Proof. intros H. unfold convert. simpl. apply Z.mod_small. exact H. Qed.

Lemma accumulate_ge digits : forall acc,
  (0 <= acc)%Z -> Forall (fun c => isdigit c = true) digits ->
  (acc <= accumulate acc digits)%Z.
Proof.
  induction digits as [|c ds IH]; intros acc Hacc Hd; simpl.
  - unfold accumulate. simpl. lia.
  - inversion Hd as [|? ? Hc Hds]; subst.
    pose proof (isdigit_digit_val _ Hc).
    unfold accumulate in *. simpl.
    specialize (IH (acc * 10 + digit_val c)%Z).
    assert (0 <= acc * 10 + digit_val c)%Z by lia.
    specialize (IH H0 Hds). lia.
Qed.

(** As long as the number fits into [size_type], the loop returns its
    decimal value. *)
Lemma ParseNumber_loop_fits digits : forall result,
  (1 <= result)%Z -> Forall (fun c => isdigit c = true) digits ->
  (accumulate result digits < 2 ^ 64)%Z ->
  ParseNumber_loop size_type digits result = Done (accumulate result digits).
Proof.
  induction digits as [|c ds IH]; intros result Hr Hd Hfit.
  - reflexivity.
  - inversion Hd as [|? ? Hc Hds]; subst.
    pose proof (isdigit_digit_val _ Hc) as Hv.
    assert (accumulate result (c :: ds)
            = accumulate (result * 10 + digit_val c) ds) as E by reflexivity.
    rewrite E in *.
    assert (result * 10 + digit_val c
            <= accumulate (result * 10 + digit_val c) ds)%Z as Hge
      by (apply accumulate_ge; [lia | exact Hds]).
    simpl. rewrite convert_ULong_small by lia.
    destruct (Z.leb_spec (result * 10 + digit_val c) result); [lia|].
    apply IH; [lia | exact Hds | exact Hfit].
Qed.

(** For a number that begins with a positive
    digit and whose decimal value fits into [size_type], [ParseNumber]
    returns the decimal value. *)
Lemma ParseNumber_fits t start end_ :
  start < end_ <= length t ->
  IsPositiveNumber (at_ t start) = true ->
  Forall (fun c => isdigit c = true) (digits_between t start end_) ->
  (decimal_value (digits_between t start end_) < 2 ^ 64)%Z ->
  ParseNumber size_type t start end_
  = Done (decimal_value (digits_between t start end_)).
Proof.
  intros Hse Hpos Hd Hfit.
  assert (digits_between t start end_
          = at_ t start :: substr t (S start) (end_ - S start)) as E.
  { unfold digits_between, substr, at_.
    replace (end_ - start) with (S (end_ - S start)) by lia.
    rewrite (skipn_nth_cons t zero) by lia. reflexivity. }
  rewrite E in *. inversion Hd as [|? ? Hc Hds]; subst.
  pose proof (IsPositiveNumber_digit_val _ Hpos) as Hv.
  unfold ParseNumber. simpl wrap.
  unfold decimal_value in *. simpl in Hfit |- *.
  change (fold_left (fun acc c => (acc * 10 + digit_val c)%Z)
            (substr t (S start) (end_ - S start)) (digit_val (at_ t start)))
    with (accumulate (digit_val (at_ t start))
            (substr t (S start) (end_ - S start))) in *.
  pose proof (@accumulate_ge (substr t (S start) (end_ - S start))
                (digit_val (at_ t start)) ltac:(lia) Hds).
  rewrite convert_ULong_small by lia.
  apply ParseNumber_loop_fits; [lia | exact Hds | exact Hfit].
Qed.

(** C6: an overflow that the test [next_result <= result] does not see.
    The argument number 30000000000000000000 does not fit into the 64 bits
    of [size_type]; the accumulation wraps to a value that is larger than
    the one before, so no [NumberOverflow] is thrown and the number is read
    as 11553255926290448384. *)
Theorem ParseNumber_overflow_unnoticed :
  let t := s2l "%30000000000000000000$s" in
  EndArgumentNumber t 1 = Some 22 /\
  decimal_value (digits_between t 1 21) = 30000000000000000000%Z /\
  ParseNumber size_type t 1 21 = Done 11553255926290448384%Z /\
  ParseNumber size_type t 1 21 <> Thrown kNumberOverflow /\
  ParseNumber size_type t 1 21 <> Done (decimal_value (digits_between t 1 21)).
Proof.
  vm_compute. repeat split; try reflexivity; discriminate.
Qed.

(** ** [SetWidth] *)

Lemma has_testbit w n : (0 <= n)%Z -> has w (Z.shiftl 1 n) = Z.testbit w n.
Proof.
  intros Hn. unfold has.
  destruct (Z.testbit w n) eqn:E.
  - apply negb_true_iff, Z.eqb_neq. intros H0.
    assert (Z.testbit (Z.land w (Z.shiftl 1 n)) n = false) as H1
      by (rewrite H0; apply Z.bits_0).
    rewrite Z.land_spec, E, Z.shiftl_spec, Z.sub_diag in H1 by lia.
    discriminate.
  - apply negb_false_iff, Z.eqb_eq, Z.bits_inj'. intros m Hm.
    rewrite Z.land_spec, Z.bits_0.
    destruct (Z.eq_dec m n) as [->|Hne]; [rewrite E; reflexivity|].
    rewrite Z.shiftl_spec by lia.
    destruct (Z.ltb_spec m n).
    + rewrite (Z.testbit_neg_r 1 (m - n)) by lia. apply andb_false_r.
    + replace (Z.testbit 1 (m - n)) with false; [apply andb_false_r|].
      symmetry. apply (Z.bits_above_log2 1 (m - n)); simpl; lia.
Qed.

(** [setf(f, mask)] leaves the field [mask] holding [f & mask]. *)
Lemma setf_mask_field f mask os :
  Z.land (os_flags (setf_mask f mask os)) mask = Z.land f mask.
Proof.
  unfold setf_mask. simpl. apply Z.bits_inj'. intros n Hn.
  rewrite !Z.land_spec, Z.lor_spec, !Z.land_spec, Z.lnot_spec by lia.
  destruct (Z.testbit (os_flags os) n), (Z.testbit mask n), (Z.testbit f n);
    reflexivity.
Qed.

Lemma convert_signed_small t v :
  is_signed t = true -> (type_min t <= v <= type_max t)%Z -> convert t v = v.
Proof.
  intros Hs Hr. unfold convert, type_min, type_max in *. rewrite Hs in *.
  assert (0 < bits t)%Z as Hb by (destruct t; simpl; lia).
  assert (2 ^ bits t = 2 * 2 ^ (bits t - 1))%Z as E.
  { rewrite <- Z.pow_succ_r by lia. f_equal. lia. }
  rewrite Z.mod_small by lia. lia.
Qed.

Lemma type_bounds_in_streamsize t v :
  (type_min t <= v <= type_max t)%Z -> (- 2 ^ 63 <= v < 2 ^ 64)%Z.
Proof.
  unfold type_min, type_max. destruct t; simpl; lia.
Qed.

Lemma to_streamsize_small v :
  (- 2 ^ 63 <= v <= 2 ^ 63 - 1)%Z -> to_streamsize v = v.
Proof.
  intros H. unfold to_streamsize. apply convert_signed_small; [reflexivity|].
  unfold type_min, type_max. simpl. lia.
Qed.

(** A negative width argument of a signed type,
    other than the least value of the type, sets the width to the negated
    value and the alignment to left. *)
Lemma SetWidth_negative os t v :
  is_signed t = true -> (type_min t < v < 0)%Z ->
  exists os',
    SetWidth os (VNum t v) = Done os' /\
    os_width os' = (- v)%Z /\ (0 < os_width os')%Z /\
    alignment os' = ios_base.left.
Proof.
  intros Hs Hv.
  assert (negate t v = (- v)%Z) as En.
  { unfold negate. apply convert_signed_small; [exact Hs|].
    unfold type_min, type_max in *. rewrite Hs in *. lia. }
  assert (to_streamsize (- v) = (- v)%Z) as Es.
  { apply to_streamsize_small.
    unfold type_min in Hv. rewrite Hs in Hv.
    assert (2 ^ (bits t - 1) <= 2 ^ 63)%Z
      by (destruct t; simpl; try discriminate; lia).
    lia. }
  exists (width (- v) (setf_mask ios_base.left ios_base.adjustfield os)).
  split; [|split; [reflexivity|split; [simpl; lia|]]].
  - assert ((v <? 0)%Z = true) as E1 by (apply Z.ltb_lt; lia).
    assert ((v <=? 0)%Z = true) as E2 by (apply Z.leb_le; lia).
    assert ((v =? 0)%Z = false) as E3 by (apply Z.eqb_neq; lia).
    destruct t; try discriminate; simpl;
      rewrite ?E1, ?E2, ?E3, En, Es; reflexivity.
  - unfold alignment.
    change (os_flags (width (- v) (setf_mask ios_base.left ios_base.adjustfield os)))
      with (os_flags (setf_mask ios_base.left ios_base.adjustfield os)).
    rewrite setf_mask_field. reflexivity.
Qed.

(** A width argument that is not negative, or
    whose type is unsigned, leaves the alignment as it is. *)
Lemma SetWidth_keeps_alignment os t v :
  (0 <= v)%Z \/ is_signed t = false ->
  exists os',
    SetWidth os (VNum t v) = Done os' /\
    os_width os' = to_streamsize v /\ os_flags os' = os_flags os.
Proof.
  intros H. exists (width (to_streamsize v) os).
  split; [|split; reflexivity].
  destruct H as [H|H].
  - assert ((v <? 0)%Z = false) as E1 by (apply Z.ltb_ge; lia).
    assert ((v <=? 0)%Z && negb (v =? 0)%Z = false) as E2.
    { destruct (Z.eqb_spec v 0); [apply andb_false_r|].
      apply andb_false_iff. left. apply Z.leb_gt. lia. }
    destruct t; simpl; rewrite ?E1, ?E2; reflexivity.
  - destruct t; try discriminate; reflexivity.
Qed.

(** A [bool] is taken as the width 0 or 1; the
    overload has no test of the sign. *)
Lemma SetWidth_bool os (b : bool) :
  SetWidth os (VNum TBool (if b then 1 else 0)%Z)
  = Done (width (if b then 1 else 0)%Z os).
Proof. destruct b; reflexivity. Qed.

(** C8: the least value of a signed type.  [arg = -arg] yields the same
    least value again (for [short] and [signed char] the negation is
    computed in [int] and converted back), so the width is set to a negative
    number, not to the negated value, while the alignment is set to left. *)
Theorem SetWidth_least_value_stays_negative :
  in_range TShort (-32768) /\
  (exists os',
     SetWidth new_ostringstream (VNum TShort (-32768)) = Done os' /\
     os_width os' = (-32768)%Z /\ alignment os' = ios_base.left) /\
  in_range TSChar (-128) /\
  (exists os',
     SetWidth new_ostringstream (VNum TSChar (-128)) = Done os' /\
     os_width os' = (-128)%Z /\ alignment os' = ios_base.left) /\
  text_ (feed_all (Format_reported (Some true) "%*s|" Special.None_)
           [VNum TSChar (-128); VStr (s2l "Hello")]) = s2l "Hello|" /\
  text_ (feed_all (Format_reported (Some true) "%*s|" Special.None_)
           [VNum TSChar (-7); VStr (s2l "Hello")]) = s2l "Hello  |".
Proof.
  split; [unfold in_range; vm_compute; split; discriminate|].
  split; [eexists; split; [reflexivity|split; reflexivity]|].
  split; [unfold in_range; vm_compute; split; discriminate|].
  split; [eexists; split; [reflexivity|split; reflexivity]|].
  split; vm_compute; reflexivity.
Qed.

(** ** The assembler *)

Lemma find_from_first c a b : forall k,
  ~ In c a -> find_from c (a ++ c :: b) k = Some (k + length a).
Proof.
  induction a as [|x a IH]; intros k Hn; simpl.
  - rewrite Ascii.eqb_refl. f_equal. lia.
  - destruct (Ascii.eqb_spec x c) as [->|Hne].
    + exfalso. apply Hn. left. reflexivity.
    + rewrite IH by (intros H; apply Hn; right; exact H). f_equal. lia.
Qed.

Lemma find_from_absent c s : forall k, ~ In c s -> find_from c s k = None.
Proof.
  induction s as [|x s IH]; intros k Hn; simpl; [reflexivity|].
  destruct (Ascii.eqb_spec x c) as [->|Hne].
  - exfalso. apply Hn. left. reflexivity.
  - apply IH. intros H. apply Hn. right. exact H.
Qed.

Lemma upd_middle {A} (a b : list A) (x y : A) :
  upd (length a) y (a ++ x :: b) = a ++ y :: b.
Proof. induction a as [|z a IH]; simpl; [reflexivity|]. f_equal. exact IH. Qed.

Lemma plus_to_space_first a b :
  ~ In "+"%char a ->
  plus_to_space (a ++ "+"%char :: b) = a ++ " "%char :: b.
Proof.
  intros Hn. unfold plus_to_space, find. simpl skipn.
  rewrite find_from_first by exact Hn. simpl. apply upd_middle.
Qed.

Lemma plus_to_space_absent s : ~ In "+"%char s -> plus_to_space s = s.
Proof.
  intros Hn. unfold plus_to_space, find. simpl skipn.
  rewrite find_from_absent by exact Hn. reflexivity.
Qed.


(** ** The dispatcher *)

Lemma Code_eqb_eq a b : Code_eqb a b = true <-> a = b.
Proof. split; [destruct a, b; simpl; congruence | intros ->; destruct b; reflexivity]. Qed.

Lemma Throw_failed_with e f : aborted_ f = None -> failed_with e f (Throw e f).
Proof.
  intros Ha. unfold failed_with, Throw. rewrite Ha.
  destruct (abort_ f); simpl; auto.
Qed.

Lemma apply_reference_canonical set_these arg m :
  apply_reference set_these arg m = apply_in_canonical_order set_these arg m.
Proof.
  unfold apply_reference, apply_in_canonical_order, apply_modifiers. simpl.
  destruct (apply_modifier Defines.kLocale SetLocale set_these arg m) as [m1|];
    [simpl|reflexivity].
  destruct (apply_modifier Defines.kPrecision SetPrecision set_these arg m1) as [m2|];
    [simpl|reflexivity].
  destruct (apply_modifier Defines.kWidth SetWidth set_these arg m2) as [m3|];
    [simpl|reflexivity].
  destruct (apply_modifier Defines.kFill SetFill set_these arg m3) as [m4|];
    [simpl|reflexivity].
  unfold apply_MainArg.
  destruct (has set_these Defines.kArg); simpl; [|reflexivity].
  destruct (negb (need_ m4 =? Defines.kNone)%Z); [reflexivity|].
  destruct (has (extensions_ m4) Extensions.kIgnore); [reflexivity|].
  destruct (has (extensions_ m4) Extensions.kStringNpos); reflexivity.
Qed.

Lemma apply_defines_app a b arg : forall format,
  apply_defines (a ++ b) arg format
  = do format' <- apply_defines a arg format; apply_defines b arg format'.
Proof.
  induction a as [|it a IH]; intros format; simpl; [reflexivity|].
  destruct (nth_error format (manip_ it)) as [m|]; [|apply IH].
  destruct (apply_reference (set_these_ it) arg m) as [m'|]; simpl;
    [apply IH | reflexivity].
Qed.

(** An argument that fits no modifier shows the order: the error is the
    one of the first kind of the reference in the canonical order. *)
Lemma first_modifier_fails_first set_these s m :
  apply_reference set_these (VStr s) m
  = if has set_these Defines.kLocale then Thrown kLocaleArgIsNoLocale
    else if has set_these Defines.kPrecision then Thrown kPrecisionArgIsNotNumeric
    else if has set_these Defines.kWidth then Thrown kWidthArgIsNotNumeric
    else if has set_these Defines.kFill then Thrown kFillArgIsNotChar
    else if has set_these Defines.kArg then apply_MainArg (VStr s) m
    else Done m.
Proof.
  rewrite apply_reference_canonical.
  unfold apply_in_canonical_order, apply_modifiers, apply_modifier. simpl.
  destruct (has set_these Defines.kLocale); [reflexivity|]. simpl.
  destruct (has set_these Defines.kPrecision); [reflexivity|]. simpl.
  destruct (has set_these Defines.kWidth); [reflexivity|]. simpl.
  destruct (has set_these Defines.kFill); reflexivity.
Qed.

Lemma nth_error_upd_same {A} (x : A) l : forall i y,
  nth_error l i = Some y -> nth_error (upd i x l) i = Some x.
Proof.
  induction l as [|z l IH]; intros [|i] y H; try discriminate; cbn in *.
  - reflexivity.
  - eapply IH. exact H.
Qed.

Lemma upd_upd {A} (x y : A) l : forall i,
  upd i y (upd i x l) = upd i y l.
Proof.
  induction l as [|z l IH]; intros [|i]; cbn; try reflexivity.
  f_equal. apply IH.
Qed.

Lemma apply_kind_to_one kind Set_ it arg format m :
  nth_error format (manip_ it) = Some m ->
  apply_kind_to_all kind Set_ [it] arg format
  = do m' <- apply_modifier kind Set_ (set_these_ it) arg m;
    Done (upd (manip_ it) m' format).
Proof. intros H. cbn [apply_kind_to_all]. rewrite H. reflexivity. Qed.

(** When the bindings of the argument belong to one [Manip], the order of
    the list is the canonical order over all the bindings. *)
Lemma apply_defines_one_Manip it arg format :
  apply_defines [it] arg format
  = apply_bindings_in_canonical_order [it] arg format.
Proof.
  unfold apply_bindings_in_canonical_order. cbn [apply_defines].
  destruct (nth_error format (manip_ it)) as [m|] eqn:E.
  - rewrite apply_reference_canonical.
    unfold apply_in_canonical_order, apply_modifiers, canonical_order.
    cbn [fold_left fst snd obind].
    rewrite (apply_kind_to_one _ _ _ _ _ E).
    destruct (apply_modifier Defines.kLocale SetLocale (set_these_ it) arg m)
      as [m1|]; cbn [obind]; [|reflexivity].
    rewrite (apply_kind_to_one _ _ _ _ _ (nth_error_upd_same m1 _ _ E)).
    destruct (apply_modifier Defines.kPrecision SetPrecision (set_these_ it)
                arg m1) as [m2|]; cbn [obind]; [|reflexivity].
    rewrite upd_upd.
    rewrite (apply_kind_to_one _ _ _ _ _ (nth_error_upd_same m2 _ _ E)).
    destruct (apply_modifier Defines.kWidth SetWidth (set_these_ it) arg m2)
      as [m3|]; cbn [obind]; [|reflexivity].
    rewrite upd_upd.
    rewrite (apply_kind_to_one _ _ _ _ _ (nth_error_upd_same m3 _ _ E)).
    destruct (apply_modifier Defines.kFill SetFill (set_these_ it) arg m3)
      as [m4|]; cbn [obind]; [|reflexivity].
    rewrite upd_upd. cbn [apply_MainArg_to_all].
    rewrite (nth_error_upd_same m4 _ _ E).
    destruct (has (set_these_ it) Defines.kArg).
    + destruct (apply_MainArg arg m4) as [m5|]; cbn [obind]; [|reflexivity].
      rewrite upd_upd. reflexivity.
    + reflexivity.
  - cbn [apply_kind_to_all apply_MainArg_to_all].
    do 5 (rewrite E; cbn [obind]). reflexivity.
Qed.

(** The first binding of the list that fails decides the error of
    [operator%]. *)
Lemma first_failing_binding f parse arg pre it rest format m e :
  aborted_ f = None -> parse_ f = Some parse -> simple_ parse = false ->
  nth (current_arg_ parse) (args_ parse) [] = pre ++ it :: rest ->
  apply_defines pre arg (format_ parse) = Done format ->
  nth_error format (manip_ it) = Some m ->
  apply_in_canonical_order (set_these_ it) arg m = Thrown e ->
  failed_with e f (feed f arg).
Proof.
  intros Ha Hp Hs Hn Hpre Hm He.
  assert (apply_defines (pre ++ it :: rest) arg (format_ parse) = Thrown e)
    as E.
  { rewrite apply_defines_app, Hpre. simpl. rewrite Hm.
    rewrite apply_reference_canonical, He. reflexivity. }
  unfold feed. rewrite Ha, Hp, Hs, Hn, E.
  apply Throw_failed_with. exact Ha.
Qed.

(** C2, as it is stated, fails: the bindings of one argument that belong to
    different [Manip]s are not applied in the canonical order.  In
    "%1$*2$s %*1$s" the first argument is the main argument of the first
    directive and the width of the second one.  The text "x" fed to it
    fails with [TooEarlyArgument], the error of the main argument, which
    stands first in the list; in the canonical order over all the bindings
    the width would be applied first and fail with
    [WidthArgIsNotNumeric]. *)
Lemma bindings_of_two_Manips_in_list_order :
  let f := Format_reported (Some true) "%1$*2$s %*1$s" Special.None_ in
  let x := VStr (s2l "x") in
  exists parse,
    parse_ f = Some parse /\ current_arg_ parse = 0 /\
    nth 0 (args_ parse) []
    = [mkRef Defines.kArg 0; mkRef Defines.kWidth 1] /\
    apply_bindings_in_canonical_order (nth 0 (args_ parse) []) x
      (format_ parse) = Thrown kWidthArgIsNotNumeric /\
    apply_defines (nth 0 (args_ parse) []) x (format_ parse)
    = Thrown kTooEarlyArgument /\
    apply_defines (nth 0 (args_ parse) []) x (format_ parse)
    <> apply_bindings_in_canonical_order (nth 0 (args_ parse) []) x
         (format_ parse) /\
    failed_with kTooEarlyArgument f (feed f x) /\
    error_ (feed f x) = kTooEarlyArgument.
Proof.
  eexists. split; [vm_compute; reflexivity|].
  split; [reflexivity|]. split; [reflexivity|].
  split; [vm_compute; reflexivity|]. split; [vm_compute; reflexivity|].
  split; [vm_compute; discriminate|].
  split; [vm_compute; auto|]. vm_compute. reflexivity.
Qed.

(** C2, amended: the bindings of one argument are applied [Manip] by
    [Manip] in the order of the list, and the first one that fails decides
    the error; within the binding of one [Manip] the kinds are applied in
    the canonical order Locale, Precision, Width, Fill and the main
    argument last, so that an argument that fits no modifier fails with the
    error of the first kind in that order; where all the bindings of the
    argument belong to one [Manip] this is the canonical order over all of
    them.  A main argument that meets a [Manip] whose [need_] is not empty
    fails with [TooEarlyArgument]: the format "%1$*2$s" fed 1 fails so, its
    width being unresolved; "%1$*1$d" takes the width from the argument
    before it renders the same argument. *)
Theorem arguments_applied_in_canonical_order :
  (forall set_these arg m,
     apply_reference set_these arg m
     = apply_in_canonical_order set_these arg m) /\
  (forall set_these s m,
     apply_reference set_these (VStr s) m
     = if has set_these Defines.kLocale then Thrown kLocaleArgIsNoLocale
       else if has set_these Defines.kPrecision
            then Thrown kPrecisionArgIsNotNumeric
       else if has set_these Defines.kWidth then Thrown kWidthArgIsNotNumeric
       else if has set_these Defines.kFill then Thrown kFillArgIsNotChar
       else if has set_these Defines.kArg then apply_MainArg (VStr s) m
       else Done m) /\
  (forall it defines arg format m,
     nth_error format (manip_ it) = Some m ->
     apply_defines (it :: defines) arg format
     = do m' <- apply_in_canonical_order (set_these_ it) arg m;
       apply_defines defines arg (upd (manip_ it) m' format)) /\
  (forall f parse arg pre it rest format m e,
     aborted_ f = None -> parse_ f = Some parse -> simple_ parse = false ->
     nth (current_arg_ parse) (args_ parse) [] = pre ++ it :: rest ->
     apply_defines pre arg (format_ parse) = Done format ->
     nth_error format (manip_ it) = Some m ->
     apply_in_canonical_order (set_these_ it) arg m = Thrown e ->
     failed_with e f (feed f arg)) /\
  (forall it arg format,
     apply_defines [it] arg format
     = apply_bindings_in_canonical_order [it] arg format) /\
  (forall f parse arg pre it rest format m m',
     aborted_ f = None -> parse_ f = Some parse -> simple_ parse = false ->
     nth (current_arg_ parse) (args_ parse) [] = pre ++ it :: rest ->
     apply_defines pre arg (format_ parse) = Done format ->
     nth_error format (manip_ it) = Some m ->
     has (set_these_ it) Defines.kArg = true ->
     apply_modifiers (set_these_ it) arg m = Done m' ->
     need_ m' <> Defines.kNone ->
     failed_with kTooEarlyArgument f (feed f arg)) /\
  (let f := Format_reported (Some true) "%1$*2$s" Special.None_ in
   error_ f = kTooFewArguments /\
   failed_with kTooEarlyArgument f (feed f (VNum TInt 1)) /\
   error_ (feed_all f [VNum TInt 1; VNum TInt 2]) = kTooEarlyArgument) /\
  text_ (feed (Format_reported (Some true) "%1$*1$d" Special.None_)
           (VNum TInt 5)) = s2l "    5".
Proof.
  split; [exact apply_reference_canonical|].
  split; [exact first_modifier_fails_first|].
  split; [|split; [exact first_failing_binding|]].
  - intros it defines arg format m Hm. cbn [apply_defines]. rewrite Hm.
    rewrite apply_reference_canonical. reflexivity.
  - split; [exact apply_defines_one_Manip|].
    split; [|split; [|vm_compute; reflexivity]].
    + intros f parse arg pre it rest format m m' Ha Hp Hs Hn Hpre Hm Harg
        Hmod Hneed.
      apply (@first_failing_binding f parse arg pre it rest format m
               kTooEarlyArgument Ha Hp Hs Hn Hpre Hm).
      unfold apply_in_canonical_order. rewrite Hmod. cbn [obind].
      rewrite Harg. unfold apply_MainArg.
      destruct (Z.eqb_spec (need_ m') Defines.kNone); [contradiction|].
      reflexivity.
    + vm_compute. repeat split; reflexivity.
Qed.

Lemma arguments_applied_in_canonical_order_witness :
  let f := Format_reported (Some true) "%1$*2$s" Special.None_ in
  failed_with kTooEarlyArgument f (feed f (VNum TInt 1)).
Proof.
  intros f.
  destruct arguments_applied_in_canonical_order
    as [_ [_ [_ [_ [_ [H _]]]]]].
  refine (H f _ (VNum TInt 1) [] (mkRef Defines.kArg 0) [] _ _ _
            eq_refl eq_refl eq_refl eq_refl eq_refl eq_refl eq_refl eq_refl _).
  vm_compute. discriminate.
Defined.

(** ** Too few and too many arguments *)

Lemma Throw_has_failed e f : e <> kNone -> has_failed (Throw e f).
Proof.
  intros He. unfold has_failed, Throw.
  destruct (aborted_ f) eqn:Ea; [left; rewrite Ea; discriminate|].
  destruct (abort_ f); simpl; [left; discriminate | right; auto].
Qed.

Lemma InitialOutput_result f :
  aborted_ f = None -> parse_ f <> None ->
  awaits (InitialOutput f) 0 \/ has_failed (InitialOutput f).
Proof.
  intros Ha Hp. unfold InitialOutput.
  destruct (parse_ f) as [parse|] eqn:Ep; [clear Hp|contradiction].
  set (f1 := if Special.HaveBits (flags_ f) Special.kNewline
             then set_text_ (text_ f ++ ["010"%char]) f else f).
  assert (aborted_ f1 = None) as Ha1
    by (unfold f1; destruct (Special.HaveBits _ _); simpl; exact Ha).
  assert (abort_ f1 = abort_ f) as Hab
    by (unfold f1; destruct (Special.HaveBits _ _); reflexivity).
  clearbody f1.
  destruct (append_ parse) as [target|].
  { left. unfold awaits. simpl. rewrite Ha1. simpl. auto. }
  destruct (file_ parse) as [file|].
  { unfold OutputInternal_file. simpl.
    destruct (text_ f1) eqn:Et; simpl.
    - rewrite Ha1. simpl. left. unfold awaits. simpl. auto.
    - destruct (_ <? _).
      + unfold Throw. simpl. rewrite Ha1.
        destruct (abort_ f1); simpl.
        * right. left. simpl. discriminate.
        * right. right. simpl. split; [reflexivity|discriminate].
      + destruct (_ && _).
        * unfold Throw. simpl. rewrite Ha1.
          destruct (abort_ f1); simpl.
          -- right. left. simpl. discriminate.
          -- right. right. simpl. split; [reflexivity|discriminate].
        * simpl. rewrite Ha1. simpl. left. unfold awaits. simpl. auto. }
  destruct (sink_ostream_ parse) as [s|].
  { unfold OutputInternal_stream. simpl.
    destruct (text_ f1) eqn:Et; simpl.
    - rewrite Ha1. simpl. left. unfold awaits. simpl. auto.
    - destruct (bad_after_write s).
      + unfold Throw. simpl. rewrite Ha1.
        destruct (abort_ f1); simpl.
        * right. left. simpl. discriminate.
        * right. right. simpl. split; [reflexivity|discriminate].
      + destruct (_ && _).
        * unfold Throw. simpl. rewrite Ha1.
          destruct (abort_ f1); simpl.
          -- right. left. simpl. discriminate.
          -- right. right. simpl. split; [reflexivity|discriminate].
        * simpl. rewrite Ha1. simpl. left. unfold awaits. simpl. auto. }
  simpl. rewrite Ha1. simpl. left. unfold awaits. simpl. auto.
Qed.

Lemma apply_modifier_error kind Set_ set_these arg m e :
  (forall os e', Set_ os arg = Thrown e' -> e' <> kNone) ->
  apply_modifier kind Set_ set_these arg m = Thrown e -> e <> kNone.
Proof.
  intros HS. unfold apply_modifier.
  destruct (has set_these kind); [|discriminate].
  destruct (Set_ (ostream_ m) arg) eqn:E; simpl; [discriminate|].
  intros H. injection H as <-. eapply HS. exact E.
Qed.

Lemma apply_reference_error set_these arg m e :
  apply_reference set_these arg m = Thrown e -> e <> kNone.
Proof.
  unfold apply_reference.
  destruct (apply_modifier Defines.kLocale _ _ _ _) as [m1|] eqn:E1; simpl.
  2:{ intros H; injection H as <-. eapply apply_modifier_error; [|exact E1].
      intros os e'. destruct arg; simpl; intros H; inversion H; discriminate. }
  destruct (apply_modifier Defines.kPrecision _ _ _ _) as [m2|] eqn:E2; simpl.
  2:{ intros H; injection H as <-. eapply apply_modifier_error; [|exact E2].
      intros os e'. destruct arg; simpl; intros H; inversion H; discriminate. }
  destruct (apply_modifier Defines.kWidth _ _ _ _) as [m3|] eqn:E3; simpl.
  2:{ intros H; injection H as <-. eapply apply_modifier_error; [|exact E3].
      intros os e'. destruct arg as [t v| |]; simpl.
      - destruct t; simpl;
          repeat match goal with |- context [if ?b then _ else _] => destruct b end;
          discriminate.
      - intros H; inversion H; discriminate.
      - intros H; inversion H; discriminate. }
  destruct (apply_modifier Defines.kFill _ _ _ _) as [m4|] eqn:E4; simpl.
  2:{ intros H; injection H as <-. eapply apply_modifier_error; [|exact E4].
      intros os e'. destruct arg; simpl; intros H; inversion H; discriminate. }
  destruct (negb (has set_these Defines.kArg)); [discriminate|].
  destruct (negb (need_ m4 =? Defines.kNone)%Z);
    [intros H; inversion H; discriminate|].
  destruct (has (extensions_ m4) Extensions.kIgnore); [discriminate|].
  destruct (has (extensions_ m4) Extensions.kStringNpos).
  - destruct arg as [t v| |]; simpl.
    + destruct t; simpl; try discriminate.
      destruct (v =? npos)%Z; discriminate.
    + discriminate.
    + intros H; inversion H; discriminate.
  - destruct arg; simpl; try discriminate.
    intros H; inversion H; discriminate.
Qed.

Lemma apply_defines_error defines arg : forall format e,
  apply_defines defines arg format = Thrown e -> e <> kNone.
Proof.
  induction defines as [|it ds IH]; intros format e; simpl; [discriminate|].
  destruct (nth_error format (manip_ it)) as [m|]; [|apply IH].
  destruct (apply_reference (set_these_ it) arg m) as [m'|] eqn:E; simpl.
  - apply IH.
  - intros H; injection H as <-. eapply apply_reference_error. exact E.
Qed.

(** One argument fed to an object in progress: the object awaits one
    argument less, or the operation has failed. *)
Lemma feed_awaits f n arg :
  awaits f (S n) -> awaits (feed f arg) n \/ has_failed (feed f arg).
Proof.
  intros [Ha Hp]. unfold feed. rewrite Ha.
  destruct (parse_ f) as [parse|] eqn:Ep; [|destruct Hp; discriminate].
  destruct Hp as [_ Hn]. unfold pending in Hn. rewrite Ep in Hn.
  destruct (simple_ parse) eqn:Es.
  - assert (n = 0) as -> by lia.
    destruct (StringStandard new_ostringstream arg) as [os|e] eqn:E.
    + apply InitialOutput_result; simpl; [exact Ha | rewrite Ep; discriminate].
    + right. apply Throw_has_failed.
      destruct arg; simpl in E; inversion E; discriminate.
  - destruct (apply_defines _ arg (format_ parse)) as [format|e] eqn:E.
    + set (parse' := next_arg (set_format_ format parse)).
      change (current_arg_ parse') with (S (current_arg_ parse)).
      change (args_ parse') with (args_ parse).
      destruct (Nat.eqb_spec (S (current_arg_ parse)) (length (args_ parse)))
        as [Hend|Hmore].
      * assert (n = 0) as -> by lia.
        unfold FinishInsertingArgs.
        change (parse_ (set_parse_ (Some parse') f)) with (Some parse').
        cbv beta iota.
        apply InitialOutput_result; [exact Ha | discriminate].
      * left. unfold awaits, pending, parse'. simpl.
        rewrite Es. split; [exact Ha|]. lia.
    + right. apply Throw_has_failed. eapply apply_defines_error. exact E.
Qed.

Lemma has_failed_feed f arg : has_failed f -> feed f arg = f.
Proof.
  intros [Ha|[Hp He]]; unfold feed.
  - destruct (aborted_ f); [reflexivity|contradiction].
  - destruct (aborted_ f); [reflexivity|]. rewrite Hp.
    destruct (Code_eqb (error_ f) kNone) eqn:E; [|reflexivity].
    apply Code_eqb_eq in E. contradiction.
Qed.

Lemma has_failed_feed_all args : forall f, has_failed f -> feed_all f args = f.
Proof.
  induction args as [|arg args IH]; intros f Hf; simpl; [reflexivity|].
  rewrite has_failed_feed by exact Hf. apply IH. exact Hf.
Qed.

Lemma feed_all_awaits args : forall f n,
  awaits f n -> length args <= n ->
  awaits (feed_all f args) (n - length args) \/ has_failed (feed_all f args).
Proof.
  induction args as [|arg args IH]; intros f n Hf Hlen; simpl in *.
  - left. rewrite Nat.sub_0_r. exact Hf.
  - destruct n as [|n]; [lia|].
    destruct (feed_awaits arg Hf) as [Hok|Hfail].
    + apply IH; [exact Hok | lia].
    + right. rewrite has_failed_feed_all by exact Hfail. exact Hfail.
Qed.

Lemma awaits_not_failed f n : awaits f n -> ~ has_failed f.
Proof.
  intros [Ha Hp] [Hf|[Hf He]]; [contradiction|].
  rewrite Hf in Hp. destruct Hp. contradiction.
Qed.

(** An object in progress that is read fails with [TooFewArguments]. *)
Lemma Check_in_progress f :
  aborted_ f = None -> parse_ f <> None ->
  failed_with kTooFewArguments f (Check f).
Proof.
  intros Ha Hp. unfold Check. rewrite Ha.
  destruct (parse_ f); [|contradiction].
  apply Throw_failed_with. exact Ha.
Qed.

(** A complete object that is fed fails with [TooManyArguments]. *)
Lemma feed_complete f arg :
  aborted_ f = None -> parse_ f = None -> error_ f = kNone ->
  failed_with kTooManyArguments f (feed f arg).
Proof.
  intros Ha Hp He. unfold feed. rewrite Ha, Hp, He. simpl.
  apply Throw_failed_with. exact Ha.
Qed.

(** An object that awaits [n] arguments and is fed fewer of them, none of
    which failed, is in progress; the check that every read begins with
    fails with [TooFewArguments], and so do [str], [size] and [empty].  Fed
    all [n] arguments the object is complete, and one more argument fails
    with [TooManyArguments]. *)
Lemma too_few_and_too_many_arguments f n args :
  awaits f n ->
  ~ has_failed (feed_all f args) ->
  (length args < n ->
     let f' := feed_all f args in
     failed_with kTooFewArguments f' (Check f') /\
     failed_with kTooFewArguments f' (fst (str f')) /\
     failed_with kTooFewArguments f' (fst (size f')) /\
     failed_with kTooFewArguments f' (fst (empty f'))) /\
  (length args = n ->
     forall arg,
       let f' := feed_all f args in
       parse_ f' = None /\ error_ f' = kNone /\
       failed_with kTooManyArguments f' (feed f' arg)).
Proof.
  intros Hf Hok. split.
  - intros Hlen f'.
    destruct (@feed_all_awaits args f n Hf ltac:(lia)) as [[Ha Hp]|Hfail];
      [|contradiction].
    fold f' in Ha, Hp.
    assert (parse_ f' <> None) as Hin.
    { destruct (parse_ f'); [discriminate|]. destruct Hp. lia. }
    pose proof (Check_in_progress f' Ha Hin) as HC.
    repeat split; exact HC.
  - intros Hlen arg f'.
    destruct (@feed_all_awaits args f n Hf ltac:(lia)) as [[Ha Hp]|Hfail];
      [|contradiction].
    fold f' in Ha, Hp.
    assert (parse_ f' = None /\ error_ f' = kNone) as [Hp' He].
    { destruct (parse_ f'); [destruct Hp; lia|]. split; [reflexivity|apply Hp]. }
    split; [exact Hp'|]. split; [exact He|].
    apply feed_complete; assumption.
Qed.

Example too_few_and_too_many_arguments_at_two :
  let f := Format_reported (Some true) "%s and %s" Special.None_ in
  let f' := feed_all f [VStr (s2l "this")] in
  failed_with kTooFewArguments f' (Check f') /\
  (forall arg,
     let f'' := feed_all f [VStr (s2l "this"); VStr (s2l "that")] in
     failed_with kTooManyArguments f'' (feed f'' arg)).
Proof.
  intros f f'.
  assert (awaits f 2) as Hf by (vm_compute; auto).
  split.
  - assert (~ has_failed (feed_all f [VStr (s2l "this")])) as Hok.
    { intros [H|[H _]]; vm_compute in H; [apply H; reflexivity | discriminate H]. }
    destruct (too_few_and_too_many_arguments [VStr (s2l "this")] Hf Hok)
      as [H _].
    apply H. simpl. lia.
  - intros arg.
    assert (~ has_failed
              (feed_all f [VStr (s2l "this"); VStr (s2l "that")])) as Hok.
    { intros [H|[_ H]]; vm_compute in H; apply H; reflexivity. }
    destruct (too_few_and_too_many_arguments
                [VStr (s2l "this"); VStr (s2l "that")] Hf Hok) as [_ H].
    apply H. reflexivity.
Qed.

(** Under the reported policy [Output] goes on after the check has thrown:
    [OutputInternal] sends the unformatted text to the sink and records a
    success. *)
Lemma Output_string_in_progress f target :
  aborted_ f = None -> abort_ f = false -> parse_ f <> None ->
  let f' := Output_string target f in
  error_ f' = kNone /\ success_ f' = set_success_value true (success_ f) /\
  appended_ f' = Some (target ++ text_ f) /\ parse_ f' = None.
Proof.
  intros Ha Hab Hp. unfold Output_string, Check, Throw. rewrite Ha.
  destruct (parse_ f); [|contradiction]. rewrite Hab. simpl.
  repeat split. destruct (success_ f); reflexivity.
Qed.

(** C3: a read that does not fail.  The object made from "%s" under the
    reported policy awaits one argument.  [Check], and with it [str],
    [size] and [empty], fail with [TooFewArguments], and a second argument
    fails with [TooManyArguments]; [Output], which begins
    with the same check, goes on to [OutputInternal], which sends the
    unformatted text "%s" to the sink, sets the error to [kNone] and the
    success flag to true. *)
Theorem Output_hides_TooFewArguments :
  let f := Format_reported (Some true) "%s" Special.None_ in
  awaits f 1 /\ abort_ f = false /\
  failed_with kTooFewArguments f (Check f) /\
  failed_with kTooFewArguments f (fst (str f)) /\
  failed_with kTooManyArguments (feed f (VNum TInt 1))
    (feed (feed f (VNum TInt 1)) (VNum TInt 2)) /\
  (let f' := Output_string [] f in
   error_ f' = kNone /\ success_ f' = Some true /\
   appended_ f' = Some (s2l "%s") /\
   ~ failed_with kTooFewArguments f f') /\
  (let f' := Output_file (mkFILE 80 false) f in
   error_ f' = kNone /\ success_ f' = Some true /\ count_ f' = 2 /\
   ~ failed_with kTooFewArguments f f') /\
  (let f' := Output_stream (mkStream false false) f in
   error_ f' = kNone /\ success_ f' = Some true /\
   ~ failed_with kTooFewArguments f f').
Proof.
  vm_compute.
  repeat split; try reflexivity; try lia;
    intros (_ & H & _); discriminate H.
Qed.

(** ** The parser: progress *)

Lemma find_from_spec c s : forall k j,
  find_from c s k = Some j ->
  k <= j < k + length s /\ nth (j - k) s zero = c /\
  ~ In c (firstn (j - k) s).
Proof.
  induction s as [|x s IH]; intros k j; simpl; [discriminate|].
  destruct (Ascii.eqb_spec x c) as [->|Hne].
  - intros H; injection H as <-. rewrite Nat.sub_diag. simpl.
    split; [lia|]. split; [reflexivity|]. intros [].
  - intros H. apply IH in H. destruct H as [H1 [H2 H3]].
    replace (j - k) with (S (j - S k)) by lia. simpl.
    split; [lia|]. split; [exact H2|].
    intros [H|H]; [contradiction|]. apply H3. exact H.
Qed.

Lemma find_spec c s pos j :
  find c s pos = Some j -> pos <= j < length s /\ at_ s j = c.
Proof.
  unfold find, at_. intros H. apply find_from_spec in H.
  destruct H as [H1 [H2 _]].
  rewrite length_skipn in H1.
  split; [lia|].
  rewrite <- H2. rewrite nth_skipn. f_equal. lia.
Qed.

Lemma length_erase1 s i : i < length s -> length (erase1 s i) = length s - 1.
Proof.
  intros H. unfold erase1.
  rewrite length_app, length_firstn, length_skipn. lia.
Qed.

Lemma EndNumber_from_bounds rest : forall start,
  start <= EndNumber_from rest start <= start + length rest.
Proof.
  induction rest as [|c rest IH]; intros start; simpl; [lia|].
  destruct (isdigit c); [|lia].
  specialize (IH (S start)). lia.
Qed.

Lemma EndNumber_bounds s start :
  start < length s -> start < EndNumber s start <= length s.
Proof.
  intros H. unfold EndNumber.
  pose proof (EndNumber_from_bounds (skipn (S start) s) (S start)) as B.
  rewrite length_skipn in B. lia.
Qed.

Lemma at_outside s i : length s <= i -> at_ s i = zero.
Proof. intros H. unfold at_. apply nth_overflow. exact H. Qed.

Lemma IsPositiveNumber_inside s i :
  IsPositiveNumber (at_ s i) = true -> i < length s.
Proof.
  intros H. destruct (Nat.lt_ge_cases i (length s)) as [Hlt|Hge]; [exact Hlt|].
  rewrite at_outside in H by exact Hge. discriminate.
Qed.

Lemma EndArgumentNumber_bounds s start e :
  EndArgumentNumber s start = Some e -> start < length s /\ S start < e <= length s.
Proof.
  unfold EndArgumentNumber.
  destruct (IsPositiveNumber (at_ s start)) eqn:Ep; simpl; [|discriminate].
  pose proof (IsPositiveNumber_inside _ _ Ep) as Hin.
  pose proof (EndNumber_bounds s Hin) as B.
  destruct (Nat.eqb_spec (EndNumber s start) (length s)); simpl; [discriminate|].
  destruct (Ascii.eqb _ _); [|discriminate].
  intros H; injection H as <-. lia.
Qed.

Lemma ParseNumber_loop_error T digits : forall result e,
  ParseNumber_loop T digits result = Thrown e -> e = kNumberOverflow.
Proof.
  induction digits as [|c ds IH]; intros result e; simpl; [discriminate|].
  destruct (_ <=? _)%Z; [intros H; injection H as <-; reflexivity|apply IH].
Qed.

Lemma ParseNumber_error T t start end_ e :
  ParseNumber T t start end_ = Thrown e -> e = kNumberOverflow.
Proof. apply ParseNumber_loop_error. Qed.

Lemma HandleArgumentNumber_fields argnum st :
  let st' := HandleArgumentNumber argnum st in
  p_text st' = p_text st /\ p_format st' = p_format st /\
  p_borders st' = p_borders st /\ p_queue st' = p_queue st.
Proof. simpl. auto. Qed.

(** What [SetArg] does when it returns true. *)
Lemma SetArg_Done kind st manip k i st' manip' i' :
  SetArg kind st manip k i = Done (st', manip', i') ->
  p_text st' = p_text st /\ p_format st' = p_format st /\
  p_borders st' = p_borders st /\
  (p_queue st' = p_queue st \/ p_queue st' = p_queue st ++ [mkRef kind k]) /\
  ostream_ manip' = ostream_ manip /\ extensions_ manip' = extensions_ manip /\
  (i < length (p_text st) -> i < i' < length (p_text st)).
Proof.
  unfold SetArg.
  destruct (Nat.eqb_spec (S i) (length (p_text st))) as [|Hne]; [discriminate|].
  destruct (EndArgumentNumber (p_text st) (S i)) as [e|] eqn:Ee.
  - apply EndArgumentNumber_bounds in Ee.
    destruct (Nat.eqb_spec e (length (p_text st))) as [|Hne']; [discriminate|].
    destruct (ParseNumber _ _ _ _) as [argnum|]; simpl; [|discriminate].
    intros H. injection H as <- <- <-. simpl.
    repeat split; auto; lia.
  - intros H. injection H as <- <- <-. simpl.
    repeat split; auto; lia.
Qed.

Lemma SetArg_Thrown kind st manip k i e :
  SetArg kind st manip k i = Thrown e ->
  e = kMissingSpecifier \/ e = kNumberOverflow.
Proof.
  unfold SetArg.
  destruct (_ =? _); [intros H; injection H as <-; auto|].
  destruct (EndArgumentNumber _ _); [|discriminate].
  destruct (_ =? _); [intros H; injection H as <-; auto|].
  destruct (ParseNumber _ _ _ _) eqn:E; simpl; [discriminate|].
  intros H; injection H as <-. right. eapply ParseNumber_error. exact E.
Qed.

Lemma has_lor_l w f b : has w b = true -> has (Z.lor w f) b = true.
Proof.
  unfold has. intros H. apply negb_true_iff, Z.eqb_neq in H.
  apply negb_true_iff, Z.eqb_neq. intros H0. apply H.
  rewrite Z.land_lor_distr_l in H0. apply Z.lor_eq_0_iff in H0. apply H0.
Qed.


Lemma has_setf_mask_other f mask w b :
  Z.land mask b = 0%Z ->
  has (Z.lor (Z.land w (Z.lnot mask)) (Z.land f mask)) b = has w b.
Proof.
  intros H0. unfold has. f_equal. f_equal.
  apply Z.bits_inj'. intros n Hn.
  assert (Z.testbit (Z.land mask b) n = false) as Hb
    by (rewrite H0; apply Z.bits_0).
  rewrite Z.land_spec in Hb.
  rewrite !Z.land_spec, Z.lor_spec, !Z.land_spec, Z.lnot_spec by lia.
  destruct (Z.testbit w n), (Z.testbit mask n), (Z.testbit f n),
    (Z.testbit b n); simpl in *; congruence.
Qed.

Lemma manip_kept_refl m : manip_kept m m.
Proof. unfold manip_kept. auto. Qed.

Lemma manip_kept_trans m1 m2 m3 :
  manip_kept m1 m2 -> manip_kept m2 m3 -> manip_kept m1 m3.
Proof.
  unfold manip_kept. intros [A1 [B1 C1]] [A2 [B2 C2]].
  split; [congruence|]. split; auto.
Qed.

Lemma manip_kept_setf f m : manip_kept m (on_os (setf f) m).
Proof.
  unfold manip_kept. simpl. split; [reflexivity|]. split; [auto|].
  apply has_lor_l.
Qed.

Lemma manip_kept_setf_mask f mask m :
  Z.land mask ios_base.showpos = 0%Z ->
  manip_kept m (on_os (setf_mask f mask) m).
Proof.
  intros H0. unfold manip_kept. simpl. split; [reflexivity|]. split; [auto|].
  rewrite has_setf_mask_other by exact H0. auto.
Qed.

Lemma manip_kept_or_ext e m : manip_kept m (or_ext e m).
Proof.
  unfold manip_kept. simpl. split; [reflexivity|]. split; [|auto].
  intros b. apply has_lor_l.
Qed.

Lemma manip_kept_same m m' :
  ostream_ m' = ostream_ m -> extensions_ m' = extensions_ m ->
  manip_kept m m'.
Proof. unfold manip_kept. intros -> ->. auto. Qed.

Lemma manip_kept_fill c m : manip_kept m (on_os (fill c) m).
Proof. unfold manip_kept. simpl. auto. Qed.

Lemma manip_kept_width w m : manip_kept m (on_os (width w) m).
Proof. unfold manip_kept. simpl. auto. Qed.

Lemma manip_kept_precision p m : manip_kept m (on_os (precision p) m).
Proof. unfold manip_kept. simpl. auto. Qed.

Create HintDb kept.
#[local] Hint Resolve manip_kept_refl manip_kept_setf manip_kept_or_ext
  manip_kept_fill manip_kept_width manip_kept_precision : kept.
#[local] Hint Extern 1 (manip_kept _ (on_os (setf_mask _ _) _)) =>
  apply manip_kept_setf_mask; reflexivity : kept.
#[local] Hint Extern 2 (manip_kept _ _) =>
  eapply manip_kept_trans; [|solve [eauto with kept]] : kept.

Lemma is_modifier_kinds :
  is_modifier Defines.kLocale /\ is_modifier Defines.kPrecision /\
  is_modifier Defines.kWidth /\ is_modifier Defines.kFill.
Proof. unfold is_modifier. auto 10. Qed.

(** One pass through the loop over the modifiers that goes on. *)
Lemma SpecStep_Next st m k i st' m' i' :
  SpecStep st m k i = Next st' m' i' ->
  p_text st' = p_text st /\ p_format st' = p_format st /\
  p_borders st' = p_borders st /\
  (p_queue st' = p_queue st \/
   exists kind, is_modifier kind /\ p_queue st' = p_queue st ++ [mkRef kind k]) /\
  manip_kept m m' /\
  (i < length (p_text st) -> i < i' < length (p_text st)).
Proof.
  unfold SpecStep, after_switch, with_SetArg. intros H.
  repeat (destruct_match_in H; try discriminate).
  all: inversion H; subst; clear H.
  all: repeat match goal with
       | E : SetArg _ _ _ _ _ = Done _ |- _ =>
           apply SetArg_Done in E; destruct E as (? & ? & ? & ? & ? & ? & ?)
       | E : (_ =? _) = false |- _ => apply Nat.eqb_neq in E
       end.
  all: split; [congruence|]; split; [congruence|]; split; [congruence|].
  all: split;
    [ first [ left; congruence
            | match goal with
              | Q : _ \/ _ |- _ =>
                  destruct Q as [Q|Q];
                  [ left; exact Q
                  | right; eexists; split; [|exact Q];
                    unfold is_modifier; auto 10 ]
              end ] |].
  all: split; [ first [ solve [auto with kept]
                      | apply manip_kept_same; assumption ] |].
  all: intros Hi.
  all: try match goal with
       | |- _ < EndNumber ?s ?j < _ =>
           pose proof (@EndNumber_bounds s j ltac:(lia))
       end.
  all: try lia.
  all: match goal with
       | Hb : S ?i < length _ -> _ |- _ => specialize (Hb ltac:(lia)); lia
       | Hb : ?i < length _ -> _ |- _ => specialize (Hb ltac:(lia)); lia
       end.
Qed.

(** The pass through the loop that reads the specifier. *)
Lemma SpecStep_Last st m k i st' m' i' :
  SpecStep st m k i = Last st' m' i' ->
  st' = st /\ manip_kept m m' /\ i' = S i.
Proof.
  unfold SpecStep, after_switch, with_SetArg. intros H.
  repeat (destruct_match_in H; try discriminate).
  all: inversion H; subst; clear H.
  all: split; [reflexivity|]; split; [|reflexivity]; auto with kept.
Qed.

(** The errors of one pass. *)
Lemma SpecStep_Halt st m k i e :
  SpecStep st m k i = Halt e ->
  e = kMissingSpecifier \/ e = kUnknownSpecifier \/
  e = kMissingFillCharacter \/ e = kNumberOverflow.
Proof.
  unfold SpecStep, after_switch, with_SetArg. intros H.
  repeat (destruct_match_in H; try discriminate).
  all: inversion H; subst; clear H; auto.
  all: try match goal with
       | E : SetArg _ _ _ _ _ = Thrown _ |- _ =>
           apply SetArg_Thrown in E; destruct E as [->| ->]; auto
       | E : ParseNumber _ _ _ _ = Thrown _ |- _ =>
           apply ParseNumber_error in E; subst; auto
       end.
Qed.

Lemma ParseSpec_Done fuel k : forall st m i st' m' i',
  ParseSpec fuel st m k i = Some (Done (st', m', i')) ->
  i < length (p_text st) ->
  p_text st' = p_text st /\ p_format st' = p_format st /\
  p_borders st' = p_borders st /\
  (exists q, p_queue st' = p_queue st ++ q /\ Forall (modifier_of k) q) /\
  manip_kept m m' /\ i < i' <= length (p_text st).
Proof.
  induction fuel as [|fuel IH]; intros st m i st' m' i' H Hi; [discriminate|].
  simpl in H. destruct (SpecStep st m k i) as [st1 m1 i1|st1 m1 i1|e] eqn:E.
  - apply SpecStep_Next in E.
    destruct E as (Et & Ef & Eb & Eq & Ek & Ei). specialize (Ei Hi).
    apply IH in H; [|rewrite Et; lia].
    destruct H as (Ht & Hf & Hb & (q & Hq & HF) & Hk & Hi').
    split; [congruence|]. split; [congruence|]. split; [congruence|].
    split; [|split; [eapply manip_kept_trans; eassumption | rewrite Et in Hi'; lia]].
    destruct Eq as [Eq|(kind & Hkind & Eq)].
    + exists q. split; [congruence|exact HF].
    + exists (mkRef kind k :: q). split.
      * rewrite Hq, Eq, <- app_assoc. reflexivity.
      * constructor; [split; [reflexivity|exact Hkind] | exact HF].
  - injection H as <- <- <-. apply SpecStep_Last in E.
    destruct E as (-> & Ek & ->).
    split; [reflexivity|]. split; [reflexivity|]. split; [reflexivity|].
    split; [|split; [exact Ek | lia]].
    exists []. split; [rewrite app_nil_r; reflexivity | constructor].
  - discriminate.
Qed.

Lemma ParseSpec_Thrown fuel k : forall st m i e,
  ParseSpec fuel st m k i = Some (Thrown e) -> syntax_error e.
Proof.
  induction fuel as [|fuel IH]; intros st m i e H; [discriminate|].
  simpl in H. destruct (SpecStep st m k i) as [st1 m1 i1|st1 m1 i1|e1] eqn:E.
  - eapply IH. exact H.
  - discriminate.
  - injection H as <-. apply SpecStep_Halt in E. unfold syntax_error.
    destruct E as [->|[->|[->| ->]]]; auto 10.
Qed.

(** The loop over the modifiers ends: every pass moves [i] on. *)
Lemma ParseSpec_total fuel k : forall st m i,
  i < length (p_text st) -> length (p_text st) - i < fuel ->
  ParseSpec fuel st m k i <> None.
Proof.
  induction fuel as [|fuel IH]; intros st m i Hi Hfuel; [lia|].
  simpl. destruct (SpecStep st m k i) as [st1 m1 i1|st1 m1 i1|e] eqn:E;
    try discriminate.
  apply SpecStep_Next in E. destruct E as (Et & _ & _ & _ & _ & Ei).
  specialize (Ei Hi). apply IH; rewrite Et; lia.
Qed.

Lemma ArgumentNumber_Done st k i st' unknown i' :
  ArgumentNumber st k i = Done (st', unknown, i') ->
  i < length (p_text st) ->
  p_text st' = p_text st /\ p_format st' = p_format st /\
  p_borders st' = p_borders st /\ p_queue st' = p_queue st /\
  i <= i' < length (p_text st).
Proof.
  unfold ArgumentNumber. intros H Hi.
  destruct (EndArgumentNumber (p_text st) i) as [e|] eqn:Ee.
  - apply EndArgumentNumber_bounds in Ee.
    destruct (Nat.eqb_spec e (length (p_text st))); [discriminate|].
    destruct (ParseNumber _ _ _ _); simpl in H; [|discriminate].
    injection H as <- <- <-. simpl. repeat split; auto; lia.
  - injection H as <- <- <-. repeat split; auto.
Qed.

Lemma ArgumentNumber_Thrown st k i e :
  ArgumentNumber st k i = Thrown e -> syntax_error e.
Proof.
  unfold ArgumentNumber, syntax_error. intros H.
  destruct (EndArgumentNumber _ _); [|discriminate].
  destruct (_ =? _); [injection H as <-; auto|].
  destruct (ParseNumber _ _ _ _) eqn:E; simpl in H; [discriminate|].
  injection H as <-. apply ParseNumber_error in E. auto 10.
Qed.

(** One pass through the loop over the directives that goes on: either a
    [%%] was collapsed, or a directive was read. *)
Lemma LoopStep_Again st i st' i' :
  LoopStep st i = Again st' i' ->
  (exists start,
     find "%" (p_text st) i = Some start /\
     at_ (p_text st) (S start) = "%"%char /\
     st' = set_text (erase1 (p_text st) (S start)) st /\
     i' = S start /\ S start < length (p_text st)) \/
  (exists start m q,
     find "%" (p_text st) i = Some start /\
     p_text st' = p_text st /\
     p_format st' = p_format st ++ [m] /\
     p_borders st' = p_borders st ++ [start; i'] /\
     (p_queue st' = p_queue st ++ q \/
      p_queue st' = p_queue st ++ q
                      ++ [mkRef Defines.kArg (length (p_format st))]) /\
     Forall (modifier_of (length (p_format st))) q /\
     manip_kept new_Manip m /\
     S start < i' <= length (p_text st)).
Proof.
  unfold LoopStep. intros H.
  destruct (find "%" (p_text st) i) as [start|] eqn:Ef; [|discriminate].
  pose proof (find_spec _ _ _ Ef) as [Hs _].
  destruct (Nat.eqb_spec (S start) (length (p_text st))) as [|Hne];
    [discriminate|].
  destruct (Ascii.eqb_spec (at_ (p_text st) (S start)) "%") as [Hc|Hc].
  - simpl in H. destruct (negb _); [|discriminate].
    injection H as <- <-. left. exists start.
    repeat split; auto; lia.
  - destruct (ArgumentNumber _ _ _) as [[[st1 unknown] i1]|] eqn:Ea;
      [|discriminate].
    apply ArgumentNumber_Done in Ea; [|simpl; lia].
    simpl in Ea. destruct Ea as (Et1 & Ef1 & Eb1 & Eq1 & Ei1).
    destruct (ParseSpec _ st1 new_Manip _ i1)
      as [[[[st2 m2] i2]|]|] eqn:Ep; try discriminate.
    apply ParseSpec_Done in Ep; [|rewrite Et1; lia].
    destruct Ep as (Et2 & Ef2 & Eb2 & (q & Eq2 & HF) & Ek & Ei2).
    injection H as <- <-. right. exists start, m2, q.
    split; [reflexivity|].
    split; [destruct unknown; simpl; congruence|].
    split; [destruct unknown; simpl; congruence|].
    split; [destruct unknown; simpl; rewrite Eb2, Eb1, <- app_assoc; reflexivity|].
    split; [destruct unknown; simpl; [right|left]; rewrite Eq2, Eq1;
            rewrite <- ?app_assoc; reflexivity|].
    split; [exact HF|]. split; [exact Ek|].
    rewrite Et1 in Ei2. lia.
Qed.

Lemma LoopStep_Stop st i st' :
  LoopStep st i = Stop st' ->
  (find "%" (p_text st) i = None /\ st' = st) \/
  (exists start,
     find "%" (p_text st) i = Some start /\
     at_ (p_text st) (S start) = "%"%char /\
     st' = set_text (erase1 (p_text st) (S start)) st /\
     S (S start) = length (p_text st)).
Proof.
  unfold LoopStep. intros H.
  destruct (find "%" (p_text st) i) as [start|] eqn:Ef;
    [|injection H as <-; left; auto].
  pose proof (find_spec _ _ _ Ef) as [Hs _].
  destruct (Nat.eqb_spec (S start) (length (p_text st))) as [|Hne];
    [discriminate|].
  destruct (Ascii.eqb_spec (at_ (p_text st) (S start)) "%") as [Hc|Hc].
  - cbv zeta in H.
    change (p_text (set_text (erase1 (p_text st) (S start)) st))
      with (erase1 (p_text st) (S start)) in H.
    destruct (Nat.eqb_spec (S start) (length (erase1 (p_text st) (S start))))
      as [He|He]; cbv [negb] in H; [|discriminate].
    injection H as <-. right. exists start.
    rewrite length_erase1 in He by lia.
    repeat split; auto; lia.
  - destruct (ArgumentNumber _ _ _) as [[[st1 unknown] i1]|]; [|discriminate].
    destruct (ParseSpec _ _ _ _ _) as [[[[st2 m2] i2]|]|]; discriminate.
Qed.

Lemma LoopStep_Fail st i e : LoopStep st i = Fail e -> syntax_error e.
Proof.
  unfold LoopStep. intros H.
  destruct (find "%" (p_text st) i) as [start|]; [|discriminate].
  destruct (_ =? _); [injection H as <-; unfold syntax_error; auto|].
  destruct (Ascii.eqb _ _).
  - destruct (negb _); discriminate.
  - destruct (ArgumentNumber _ _ _) as [[[st1 unknown] i1]|] eqn:Ea.
    + destruct (ParseSpec _ _ _ _ _) as [[[[st2 m2] i2]|]|] eqn:Ep;
        try discriminate.
      injection H as <-. eapply ParseSpec_Thrown. exact Ep.
    + injection H as <-. eapply ArgumentNumber_Thrown. exact Ea.
Qed.

Lemma LoopStep_not_Exhausted st i : LoopStep st i <> Exhausted.
Proof.
  unfold LoopStep. intros H.
  destruct (find "%" (p_text st) i) as [start|] eqn:Ef; [|discriminate].
  pose proof (find_spec _ _ _ Ef) as [Hs _].
  destruct (Nat.eqb_spec (S start) (length (p_text st))); [discriminate|].
  destruct (Ascii.eqb _ _).
  - destruct (negb _); discriminate.
  - destruct (ArgumentNumber _ _ _) as [[[st1 unknown] i1]|] eqn:Ea;
      [|discriminate].
    apply ArgumentNumber_Done in Ea; [|simpl; lia].
    simpl in Ea. destruct Ea as (Et1 & _ & _ & _ & Ei1).
    destruct (ParseSpec _ st1 new_Manip _ i1) as [[[[st2 m2] i2]|]|] eqn:Ep;
      try discriminate.
    eapply ParseSpec_total; [| |exact Ep]; rewrite Et1; lia.
Qed.

(** The loop over the directives ends: every pass shortens what is left of
    the text. *)
Lemma ParseLoop_total fuel : forall st i,
  length (p_text st) - i < fuel -> ParseLoop fuel st i <> None.
Proof.
  induction fuel as [|fuel IH]; intros st i Hfuel; [lia|].
  simpl. destruct (LoopStep st i) as [st' i'| | |] eqn:E; try discriminate.
  - apply IH. apply LoopStep_Again in E.
    destruct E as [(start & Ef & _ & -> & -> & Hlt)
                  |(start & m & q & Ef & Et & _ & _ & _ & _ & _ & Hi)];
      apply find_spec in Ef; destruct Ef as [Hs _].
    + simpl. rewrite length_erase1 by lia. lia.
    + rewrite Et. lia.
  - apply LoopStep_not_Exhausted in E. contradiction.
Qed.

(** [ParseFormat] returns for every format. *)
Lemma ParseFormat_total t : ParseFormat t <> None.
Proof.
  unfold ParseFormat.
  pose proof (@ParseLoop_total (S (length t)) (init_PState t) 0) as H.
  destruct (ParseLoop _ _ _) as [[st|e]|]; try discriminate.
  apply H. simpl. lia.
Qed.

(** An invariant of the loop over the directives holds for its result. *)
Lemma ParseLoop_invariant (P : PState -> Prop) :
  (forall st i st' i', P st -> LoopStep st i = Again st' i' -> P st') ->
  (forall st i st', P st -> LoopStep st i = Stop st' -> P st') ->
  forall fuel st i st',
    P st -> ParseLoop fuel st i = Some (Done st') -> P st'.
Proof.
  intros HA HS. induction fuel as [|fuel IH]; intros st i st' HP H;
    [discriminate|].
  simpl in H. destruct (LoopStep st i) as [st1 i1|st1|e|] eqn:E;
    try discriminate.
  - eapply IH; [|exact H]. eapply HA; eassumption.
  - injection H as <-. eapply HS; eassumption.
Qed.

Lemma ParseLoop_Thrown fuel : forall st i e,
  ParseLoop fuel st i = Some (Thrown e) -> syntax_error e.
Proof.
  induction fuel as [|fuel IH]; intros st i e H; [discriminate|].
  simpl in H. destruct (LoopStep st i) as [st1 i1|st1|e1|] eqn:E;
    try discriminate.
  - eapply IH. exact H.
  - injection H as <-. eapply LoopStep_Fail. exact E.
Qed.

(** ** The errors of the parser *)

Lemma ParseFormat_Thrown t e :
  ParseFormat t = Some (Thrown e) -> syntax_error e.
Proof.
  unfold ParseFormat. intros H.
  destruct (ParseLoop _ _ _) as [[st|e']|] eqn:E; try discriminate.
  injection H as <-. eapply ParseLoop_Thrown. exact E.
Qed.

Lemma syntax_error_codes e :
  syntax_error e -> e <> kNumberWithoutDollar /\ e <> kNone.
Proof.
  unfold syntax_error. intros [->|[->|[->|[->| ->]]]]; split; discriminate.
Qed.

(** C5, as it is stated, fails: no format makes the parser fail with
    [NumberWithoutDollar]; the code is never thrown. *)
Lemma NumberWithoutDollar_is_never_thrown :
  ~ exists t, ParseFormat t = Some (Thrown kNumberWithoutDollar).
Proof.
  intros [t H]. apply ParseFormat_Thrown, syntax_error_codes in H.
  destruct H as [H _]. apply H. reflexivity.
Qed.

(** C5, amended: the parser fails with [TrailingPercentage],
    [MissingSpecifier], [UnknownSpecifier], [MissingFillCharacter] or
    [NumberOverflow] and with no other error; a number that no [$] follows
    is a literal width, as in "%12s" and in "%*5s". *)
Theorem parser_fails_with_syntax_errors_only :
  (forall t e,
     ParseFormat t = Some (Thrown e) ->
     syntax_error e /\ e <> kNumberWithoutDollar) /\
  (exists st m,
     ParseFormat (s2l "%12s") = Some (Done st) /\
     p_format st = [m] /\ os_width (ostream_ m) = 12%Z /\
     p_args st = [[mkRef Defines.kArg 0]]) /\
  (exists st m,
     ParseFormat (s2l "%*5s") = Some (Done st) /\
     p_format st = [m] /\ os_width (ostream_ m) = 5%Z /\
     p_args st = [[mkRef Defines.kWidth 0]; [mkRef Defines.kArg 0]]).
Proof.
  split; [|split].
  - intros t e H. apply ParseFormat_Thrown in H. split; [exact H|].
    apply syntax_error_codes. exact H.
  - eexists. eexists. vm_compute. repeat split; reflexivity.
  - eexists. eexists. vm_compute. repeat split; reflexivity.
Qed.

Lemma parser_fails_with_syntax_errors_only_witness :
  ParseFormat (s2l "100%") = Some (Thrown kTrailingPercentage) /\
  syntax_error kTrailingPercentage /\
  kTrailingPercentage <> kNumberWithoutDollar.
Proof.
  split; [reflexivity|].
  exact (proj1 parser_fails_with_syntax_errors_only (s2l "100%")
           kTrailingPercentage eq_refl).
Defined.

(** Every constructor leaves an object that awaits its arguments, or one on
    which the parser or the output has failed. *)
Lemma Init_awaits append file os abort success t flags :
  let f := Init append file os (raw_Format abort success t flags) in
  (exists n, awaits f n) \/ has_failed f.
Proof.
  intros f. unfold f, Init.
  change (text_ (set_parse_ _ (raw_Format abort success t flags))) with t.
  destruct (ParseFormat t) as [[st|e]|] eqn:E.
  - destruct (p_args st) eqn:Ea.
    + destruct (InitialOutput_result
                  (set_parse_
                     (Some (mkParse (p_format st) (p_borders st) [] 0 false
                                    append file os))
                     (set_text_ (p_text st)
                        (set_parse_ (Some (new_Parse false append file os))
                           (raw_Format abort success t flags)))))
        as [H|H]; [reflexivity | discriminate | left; exists 0; exact H
                  | right; exact H].
    + left. exists (length (p_args st)). unfold awaits, pending. simpl.
      rewrite Ea. simpl. split; [reflexivity|]. split; lia.
  - right. apply Throw_has_failed.
    apply ParseFormat_Thrown, syntax_error_codes in E. apply E.
  - exfalso. eapply ParseFormat_total. exact E.
Qed.

(** ** The modifier ' ' *)





(** ** The queue of the postponed requests *)

Lemma queue_ordered_app a b :
  queue_ordered (a ++ b) <->
  queue_ordered a /\ queue_ordered b /\
  (forall x y, In x a -> In y b -> before x y).
Proof.
  induction a as [|z a IH]; simpl.
  - split.
    + intros H. split; [exact I|]. split; [exact H|]. intros u v [].
    + intros H. apply H.
  - split.
    + intros [H1 H2]. apply IH in H2. destruct H2 as (H2 & H3 & H4).
      apply Forall_app in H1. destruct H1 as [H1 H5].
      split; [split; assumption|]. split; [exact H3|].
      intros u v [<-|Hu] Hv.
      * rewrite Forall_forall in H5. apply H5. exact Hv.
      * apply H4; assumption.
    + intros [[H1 H2] [H3 H4]]. split.
      * apply Forall_app. split; [exact H1|].
        apply Forall_forall. intros v Hv. apply H4; [left; reflexivity|exact Hv].
      * apply IH. split; [exact H2|]. split; [exact H3|].
        intros u v Hu Hv. apply H4; [right; exact Hu | exact Hv].
Qed.

Lemma is_modifier_not_kArg kind : is_modifier kind -> kind <> Defines.kArg.
Proof. intros [->|[->|[->| ->]]]; discriminate. Qed.

Lemma queue_inv_Again st i st' i' :
  queue_inv st -> LoopStep st i = Again st' i' -> queue_inv st'.
Proof.
  intros [Ho Hf] H. apply LoopStep_Again in H.
  destruct H as [(start & _ & _ & -> & _)
                |(start & m & q & _ & _ & Ef & _ & Eq & Hq & _)];
    [split; assumption|].
  set (k := length (p_format st)) in *.
  assert (exists tail, p_queue st' = p_queue st ++ q ++ tail /\
                       (tail = [] \/ tail = [mkRef Defines.kArg k]))
    as (tail & Et & Htail).
  { destruct Eq as [Eq|Eq]; [exists []|exists [mkRef Defines.kArg k]];
      rewrite Eq, ?app_nil_r; auto. }
  unfold queue_inv. rewrite Et.
  rewrite Forall_forall in Hf, Hq.
  assert (forall y, In y (q ++ tail) -> manip_ y = k /\ one_kind y) as Hnew.
  { intros y Hy. apply in_app_or in Hy. destruct Hy as [Hy|Hy].
    - destruct (Hq y Hy) as [Hk Hm]. split; [exact Hk | left; exact Hm].
    - destruct Htail as [->| ->]; [destruct Hy|].
      destruct Hy as [<-|[]]. split; [reflexivity | right; reflexivity]. }
  split.
  - apply queue_ordered_app. split; [exact Ho|]. split.
    + apply queue_ordered_app. split; [|split].
      * clear - Hq. induction q as [|x q IH]; simpl; [exact I|].
        split; [|apply IH; intros y Hy; apply Hq; right; exact Hy].
        apply Forall_forall. intros y Hy.
        destruct (Hq x (or_introl eq_refl)) as [Hx Hxm].
        destruct (Hq y (or_intror Hy)) as [Hy' _].
        split; [lia|]. intros _. apply is_modifier_not_kArg. exact Hxm.
      * destruct Htail as [->| ->]; simpl; auto.
      * intros x y Hx Hy. destruct (Hq x Hx) as [Hxk Hxm].
        destruct Htail as [->| ->]; [destruct Hy|].
        destruct Hy as [<-|[]]. split; [simpl; lia|].
        intros _. apply is_modifier_not_kArg. exact Hxm.
    + intros x y Hx Hy. destruct (Hf x Hx) as [Hlt _].
      destruct (Hnew y Hy) as [Hyk _]. fold k in Hlt. split; lia.
  - apply Forall_forall. intros y Hy. rewrite Ef, length_app. simpl.
    apply in_app_or in Hy. destruct Hy as [Hy|Hy].
    + destruct (Hf y Hy). split; [lia|assumption].
    + destruct (Hnew y Hy). fold k. split; [lia|assumption].
Qed.

Lemma queue_inv_Stop st i st' :
  queue_inv st -> LoopStep st i = Stop st' -> queue_inv st'.
Proof.
  intros Hinv H. apply LoopStep_Stop in H.
  destruct H as [[_ ->]|(start & _ & _ & -> & _)]; exact Hinv.
Qed.

Lemma queue_inv_ParseLoop fuel t st :
  ParseLoop fuel (init_PState t) 0 = Some (Done st) -> queue_inv st.
Proof.
  apply (ParseLoop_invariant queue_inv queue_inv_Again queue_inv_Stop).
  split; simpl; [exact I | constructor].
Qed.

(** ** The free numbers *)






(** *** The numbers given are inside [args_] *)







(** *** The requests are bound at the numbers given *)















Lemma Postponed_fields st :
  p_queue (Postponed st) = p_queue st /\
  p_specified (Postponed st) = p_specified st /\
  p_text (Postponed st) = p_text st /\
  p_format (Postponed st) = p_format st /\
  p_borders (Postponed st) = p_borders st.
Proof. unfold Postponed. destruct (p_queue st) eqn:E; simpl; auto. Qed.

Lemma Postponed_args st :
  p_queue st <> [] ->
  p_args (Postponed st)
  = fst (GiveNumbers (p_specified st) (p_queue st) 0
           (resize (length (p_queue st) + count_true (p_specified st)) []
                   (p_args st))).
Proof.
  intros H. unfold Postponed. destruct (p_queue st) eqn:E; [contradiction|].
  reflexivity.
Qed.


(** ** The borders of the directives *)








(** The size that [args_] is given before the free numbers are handed out
    counts the specified numbers and the postponed requests.  When the
    explicit numbers leave a gap that the free numbers do not fill, that
    size is less than the size [args_] had, and the references behind it
    are dropped: "%3$s %s" awaits two arguments, the first is the main
    argument of the second directive, and no argument reaches the first
    directive. *)
Example resize_drops_a_reference :
  exists st,
    ParseFormat (s2l "%3$s %s") = Some (Done st) /\
    p_specified st = [false; false; true] /\
    p_args st = [[mkRef Defines.kArg 1]; []] /\
    text_ (feed_all (Format_reported (Some true) "%3$s %s" Special.None_)
             [VStr (s2l "a"); VStr (s2l "b")]) = s2l " a".
Proof. eexists. vm_compute. repeat split; reflexivity. Qed.

(** ** The directive [%%] *)

Lemma find_first c a b : ~ In c a -> find c (a ++ c :: b) 0 = Some (length a).
Proof. intros H. unfold find. simpl. apply find_from_first. exact H. Qed.

Lemma skipn_app_length {A} (a b : list A) n :
  skipn (length a + n) (a ++ b) = skipn n b.
Proof.
  rewrite skipn_app, skipn_all2 by lia.
  replace (length a + n - length a) with n by lia. reflexivity.
Qed.

Lemma find_absent_from c a b n :
  ~ In c b -> find c (a ++ b) (length a + n) = None.
Proof.
  intros H. unfold find. rewrite skipn_app_length.
  apply find_from_absent. intros Hin. apply H.
  rewrite <- (firstn_skipn n b). apply in_or_app. right. exact Hin.
Qed.

Lemma at_app_length a b n : at_ (a ++ b) (length a + n) = at_ b n.
Proof.
  unfold at_. rewrite app_nth2 by lia. f_equal. lia.
Qed.

Lemma erase1_app_length a b n :
  erase1 (a ++ b) (length a + n) = a ++ erase1 b n.
Proof.
  unfold erase1. rewrite firstn_app, firstn_all2 by lia.
  replace (length a + n - length a) with n by lia.
  replace (S (length a + n)) with (length a + S n) by lia.
  rewrite skipn_app_length, app_assoc. reflexivity.
Qed.

(** What [erase] leaves of a pair [%%]: the first of the two characters,
    with the text after the pair moved up. *)
Lemma erase1_pair t start :
  S start < length t -> at_ t start = "%"%char ->
  erase1 t (S start) = firstn start t ++ "%"%char :: skipn (S (S start)) t.
Proof.
  intros Hlt Hc. unfold erase1.
  rewrite <- (firstn_skipn start t) at 1.
  rewrite firstn_app, length_firstn, firstn_firstn.
  replace (Nat.min (S start) start) with start by lia.
  replace (S start - Nat.min start (length t)) with 1 by lia.
  rewrite (skipn_nth_cons t zero) by lia.
  unfold at_ in Hc. rewrite Hc. simpl firstn. rewrite <- app_assoc.
  reflexivity.
Qed.

(** The pass of the loop over the directives at a pair [%%]: the second
    character is erased, no [Manip], border or reference is made, and the
    search goes on after the character that is left, or ends when the pair
    was the end of the string. *)
Lemma LoopStep_percent st i start :
  find "%" (p_text st) i = Some start ->
  S start < length (p_text st) ->
  at_ (p_text st) (S start) = "%"%char ->
  let st' := set_text (erase1 (p_text st) (S start)) st in
  LoopStep st i
  = if S (S start) =? length (p_text st) then Stop st' else Again st' (S start).
Proof.
  intros Hf Hlt Hc st'. unfold LoopStep. rewrite Hf.
  destruct (Nat.eqb_spec (S start) (length (p_text st))); [lia|].
  rewrite Hc. simpl Ascii.eqb. cbv iota zeta. fold st'.
  change (p_text st') with (erase1 (p_text st) (S start)).
  rewrite length_erase1 by lia.
  destruct (Nat.eqb_spec (S (S start)) (length (p_text st))) as [E|E];
    destruct (Nat.eqb_spec (S start) (length (p_text st) - 1));
    try lia; reflexivity.
Qed.

(** *** The parser after a literal prefix *)

Lemma find_from_shift c s n : forall k,
  find_from c s (n + k) = option_map (Nat.add n) (find_from c s k).
Proof.
  induction s as [|x s IH]; intros k; simpl; [reflexivity|].
  destruct (Ascii.eqb x c); [reflexivity|].
  replace (S (n + k)) with (n + S k) by lia. apply IH.
Qed.

Lemma find_shift c p t i :
  find c (p ++ t) (length p + i) = option_map (Nat.add (length p)) (find c t i).
Proof. unfold find. rewrite skipn_app_length. apply find_from_shift. Qed.

Lemma EndNumber_from_shift rest n : forall k,
  EndNumber_from rest (n + k) = n + EndNumber_from rest k.
Proof.
  induction rest as [|c rest IH]; intros k; simpl; [reflexivity|].
  destruct (isdigit c); [|reflexivity].
  replace (S (n + k)) with (n + S k) by lia. apply IH.
Qed.

Lemma EndNumber_shift p t i :
  EndNumber (p ++ t) (length p + i) = length p + EndNumber t i.
Proof.
  unfold EndNumber.
  replace (S (length p + i)) with (length p + S i) by lia.
  rewrite skipn_app_length. apply EndNumber_from_shift.
Qed.

Lemma EndArgumentNumber_shift p t i :
  EndArgumentNumber (p ++ t) (length p + i)
  = option_map (Nat.add (length p)) (EndArgumentNumber t i).
Proof.
  unfold EndArgumentNumber.
  rewrite at_app_length, EndNumber_shift, at_app_length, length_app.
  destruct (negb (IsPositiveNumber (at_ t i))); [reflexivity|].
  destruct (Nat.eqb_spec (EndNumber t i) (length t));
    destruct (Nat.eqb_spec (length p + EndNumber t i) (length p + length t));
    try lia; simpl; [reflexivity|].
  destruct (Ascii.eqb _ _); simpl; [f_equal; lia | reflexivity].
Qed.

Lemma substr_shift p t a n :
  substr (p ++ t) (length p + a) n = substr t a n.
Proof. unfold substr. rewrite skipn_app_length. reflexivity. Qed.

Lemma ParseNumber_shift T p t s e :
  ParseNumber T (p ++ t) (length p + s) (length p + e) = ParseNumber T t s e.
Proof.
  unfold ParseNumber. rewrite at_app_length.
  replace (S (length p + s)) with (length p + S s) by lia.
  rewrite substr_shift. f_equal. f_equal. lia.
Qed.

Lemma HandleArgumentNumber_shift p a st :
  HandleArgumentNumber a (shift p st) = shift p (HandleArgumentNumber a st).
Proof. reflexivity. Qed.

Lemma length_shift p st :
  length (p_text (shift p st)) = length p + length (p_text st).
Proof. simpl. apply length_app. Qed.

Lemma eqb_shift n a b : (n + a =? n + b) = (a =? b).
Proof.
  destruct (Nat.eqb_spec a b); destruct (Nat.eqb_spec (n + a) (n + b));
    try lia; reflexivity.
Qed.

Lemma SetArg_shift kind p st m k i :
  SetArg kind (shift p st) m k (length p + i)
  = shift_spec p (SetArg kind st m k i).
Proof.
  unfold SetArg. rewrite length_shift.
  change (p_text (shift p st)) with (p ++ p_text st).
  replace (S (length p + i)) with (length p + S i) by lia.
  rewrite eqb_shift.
  destruct (S i =? length (p_text st)); [reflexivity|].
  rewrite EndArgumentNumber_shift.
  destruct (EndArgumentNumber (p_text st) (S i)) as [e|] eqn:Ee; simpl;
    [|reflexivity].
  rewrite eqb_shift. destruct (e =? length (p_text st)); [reflexivity|].
  apply EndArgumentNumber_bounds in Ee.
  replace (length p + e - 1) with (length p + (e - 1)) by lia.
  rewrite ParseNumber_shift.
  destruct (ParseNumber size_type (p_text st) (S i) (e - 1)); reflexivity.
Qed.

Lemma after_switch_shift p st got m i :
  after_switch (shift p st) got m (length p + i)
  = shift_step p (after_switch st got m i).
Proof.
  unfold after_switch. rewrite length_shift.
  replace (S (length p + i)) with (length p + S i) by lia.
  rewrite eqb_shift.
  destruct got; [reflexivity|].
  destruct (S i =? length (p_text st)); reflexivity.
Qed.

Lemma with_SetArg_shift kind p st m k i :
  with_SetArg kind (shift p st) m k (length p + i)
  = shift_step p (with_SetArg kind st m k i).
Proof.
  unfold with_SetArg. rewrite SetArg_shift.
  destruct (SetArg kind st m k i) as [[[st' m'] i']|]; reflexivity.
Qed.

Lemma SpecStep_shift p st m k i :
  SpecStep (shift p st) m k (length p + i) = shift_step p (SpecStep st m k i).
Proof.
  unfold SpecStep. rewrite length_shift.
  change (p_text (shift p st)) with (p ++ p_text st).
  rewrite at_app_length.
  replace (S (length p + i)) with (length p + S i) by lia.
  rewrite eqb_shift, !at_app_length.
  destruct (case_of (at_ (p_text st) i));
    try apply after_switch_shift; try apply with_SetArg_shift.
  - destruct (S i =? length (p_text st)); [reflexivity|].
    apply after_switch_shift.
  - destruct (S i =? length (p_text st)); [reflexivity|].
    cbv zeta.
    destruct (IsPositiveNumber (at_ (p_text st) (S i))).
    + rewrite EndNumber_shift, eqb_shift.
      destruct (EndNumber (p_text st) (S i) =? length (p_text st));
        [reflexivity|].
      rewrite ParseNumber_shift.
      destruct (ParseNumber streamsize _ _ _); reflexivity.
    + destruct (Ascii.eqb (at_ (p_text st) (S i)) "*");
        [apply with_SetArg_shift | apply after_switch_shift].
  - destruct (negb (isdigit (at_ (p_text st) i))); [reflexivity|].
    cbv zeta. rewrite EndNumber_shift, eqb_shift.
    destruct (EndNumber (p_text st) i =? length (p_text st)); [reflexivity|].
    rewrite ParseNumber_shift.
    destruct (ParseNumber streamsize _ _ _); reflexivity.
Qed.

Lemma ParseSpec_shift p k fuel : forall st m i,
  ParseSpec fuel (shift p st) m k (length p + i)
  = option_map (shift_spec p) (ParseSpec fuel st m k i).
Proof.
  induction fuel as [|fuel IH]; intros st m i; [reflexivity|].
  simpl. rewrite SpecStep_shift.
  destruct (SpecStep st m k i) as [st' m' i'|st' m' i'|e]; simpl;
    [apply IH | reflexivity | reflexivity].
Qed.

(** More fuel does not change a result. *)
Lemma ParseSpec_more_fuel k fuel : forall fuel' st m i r,
  ParseSpec fuel st m k i = Some r -> fuel <= fuel' ->
  ParseSpec fuel' st m k i = Some r.
Proof.
  induction fuel as [|fuel IH]; intros fuel' st m i r H Hle; [discriminate|].
  destruct fuel' as [|fuel']; [lia|].
  simpl in H |- *.
  destruct (SpecStep st m k i) as [st' m' i'|st' m' i'|e]; try exact H.
  apply IH; [exact H | lia].
Qed.

Lemma ArgumentNumber_shift p st k i :
  ArgumentNumber (shift p st) k (length p + i)
  = match ArgumentNumber st k i with
    | Done (st', u, i') => Done (shift p st', u, length p + i')
    | Thrown e => Thrown e
    end.
Proof.
  unfold ArgumentNumber. rewrite length_shift.
  change (p_text (shift p st)) with (p ++ p_text st).
  rewrite EndArgumentNumber_shift.
  destruct (EndArgumentNumber (p_text st) i) as [e|] eqn:Ee; simpl;
    [|reflexivity].
  rewrite eqb_shift. destruct (e =? length (p_text st)); [reflexivity|].
  apply EndArgumentNumber_bounds in Ee.
  replace (length p + e - 1) with (length p + (e - 1)) by lia.
  rewrite ParseNumber_shift.
  destruct (ParseNumber size_type (p_text st) i (e - 1)); reflexivity.
Qed.

Lemma push_border_shift p b st :
  push_border (length p + b) (shift p st) = shift p (push_border b st).
Proof. unfold push_border, shift. simpl. rewrite map_app. reflexivity. Qed.

Lemma LoopStep_shift p st i :
  LoopStep (shift p st) (length p + i) = shift_loop p (LoopStep st i).
Proof.
  unfold LoopStep. rewrite length_shift.
  change (p_text (shift p st)) with (p ++ p_text st).
  rewrite find_shift.
  destruct (find "%" (p_text st) i) as [start|] eqn:Ef; simpl option_map;
    cbv iota; [|reflexivity].
  pose proof (find_spec _ _ _ Ef) as [Hs _].
  replace (S (length p + start)) with (length p + S start) by lia.
  rewrite eqb_shift, at_app_length.
  destruct (Nat.eqb_spec (S start) (length (p_text st))); [reflexivity|].
  destruct (Ascii.eqb (at_ (p_text st) (S start)) "%").
  - cbv zeta. rewrite erase1_app_length.
    change (p_text (set_text (p ++ erase1 (p_text st) (S start)) (shift p st)))
      with (p ++ erase1 (p_text st) (S start)).
    change (p_text (set_text (erase1 (p_text st) (S start)) st))
      with (erase1 (p_text st) (S start)).
    rewrite length_app, eqb_shift.
    destruct (negb (S start =? length (erase1 (p_text st) (S start))));
      reflexivity.
  - cbv zeta. rewrite push_border_shift.
    change (length (p_format (shift p (push_border start st))))
      with (length (p_format (push_border start st))).
    rewrite ArgumentNumber_shift.
    destruct (ArgumentNumber (push_border start st) _ (S start))
      as [[[st1 u] i1]|] eqn:Ea; [|reflexivity].
    apply ArgumentNumber_Done in Ea; [|simpl; lia].
    destruct Ea as (Et1 & _ & _ & _ & Hi1). simpl p_text in Hi1.
    rewrite length_shift, ParseSpec_shift.
    set (k := length (p_format (push_border start st))).
    destruct (ParseSpec (S (length (p_text st1))) st1 new_Manip k i1)
      as [r|] eqn:Ep;
      [|exfalso; revert Ep; apply ParseSpec_total; rewrite Et1; simpl; lia].
    rewrite (@ParseSpec_more_fuel k _ (S (length p + length (p_text st1)))
               _ _ _ _ Ep) by lia.
    destruct r as [[[st2 m2] i2]|e]; [|reflexivity].
    simpl. destruct u; rewrite <- push_border_shift; reflexivity.
Qed.

Lemma ParseLoop_shift p fuel : forall st i,
  ParseLoop fuel (shift p st) (length p + i)
  = option_map (shift_result p) (ParseLoop fuel st i).
Proof.
  induction fuel as [|fuel IH]; intros st i; [reflexivity|].
  simpl. rewrite LoopStep_shift.
  destruct (LoopStep st i) as [st' i'|st'|e|]; simpl;
    [apply IH | reflexivity | reflexivity | reflexivity].
Qed.

Lemma ParseLoop_more_fuel fuel : forall fuel' st i r,
  ParseLoop fuel st i = Some r -> fuel <= fuel' ->
  ParseLoop fuel' st i = Some r.
Proof.
  induction fuel as [|fuel IH]; intros fuel' st i r H Hle; [discriminate|].
  destruct fuel' as [|fuel']; [lia|].
  simpl in H |- *.
  destruct (LoopStep st i) as [st' i'|st'|e|]; try exact H.
  apply IH; [exact H | lia].
Qed.

Lemma Postponed_shift p st : Postponed (shift p st) = shift p (Postponed st).
Proof.
  unfold Postponed. change (p_queue (shift p st)) with (p_queue st).
  destruct (p_queue st); reflexivity.
Qed.

(** The parser on a format that begins with a literal text and a pair
    [%%]: it goes on after the pair as on the rest of the format. *)
Lemma ParseFormat_after_percent pre rest :
  ~ In "%"%char pre ->
  ParseFormat (pre ++ "%"%char :: "%"%char :: rest)
  = option_map (shift_result (pre ++ ["%"%char])) (ParseFormat rest).
Proof.
  intros Hpre. unfold ParseFormat.
  set (t := pre ++ "%"%char :: "%"%char :: rest).
  set (p := pre ++ ["%"%char]).
  assert (length t = S (S (length pre + length rest))) as Hlen
    by (unfold t; rewrite length_app; simpl; lia).
  assert (erase1 t (S (length pre)) = p ++ rest) as Herase.
  { unfold t, p. replace (S (length pre)) with (length pre + 1) by lia.
    rewrite erase1_app_length, <- app_assoc. reflexivity. }
  assert (LoopStep (init_PState t) 0
          = if S (S (length pre)) =? length t
            then Stop (shift p (init_PState rest))
            else Again (shift p (init_PState rest)) (S (length pre))) as Hstep.
  { rewrite (@LoopStep_percent (init_PState t) 0 (length pre)).
    - simpl p_text. rewrite Herase. reflexivity.
    - apply find_first. exact Hpre.
    - simpl p_text. lia.
    - simpl p_text. unfold t.
      replace (S (length pre)) with (length pre + 1) by lia.
      rewrite at_app_length. reflexivity. }
  change (ParseLoop (S (length t)) (init_PState t) 0)
    with (match LoopStep (init_PState t) 0 with
          | Again st' i' => ParseLoop (length t) st' i'
          | Stop st' => Some (Done st')
          | Fail e => Some (Thrown e)
          | Exhausted => None
          end).
  rewrite Hstep.
  destruct (Nat.eqb_spec (S (S (length pre))) (length t)) as [E|E].
  - assert (rest = []) as -> by (destruct rest; [reflexivity|simpl in *; lia]).
    rewrite Postponed_shift. reflexivity.
  - replace (S (length pre)) with (length p + 0)
      by (unfold p; rewrite length_app; simpl; lia).
    rewrite ParseLoop_shift.
    destruct (ParseLoop (S (length rest)) (init_PState rest) 0) as [r|] eqn:Er;
      [|exfalso; revert Er; apply ParseLoop_total; simpl; lia].
    rewrite (@ParseLoop_more_fuel _ (length t) _ _ _ Er) by lia.
    destruct r as [st|e]; simpl; [rewrite Postponed_shift|]; reflexivity.
Qed.

(** *** The assembler after a literal prefix *)

Lemma assemble_prefix t p formats : forall borders pos result,
  assemble t formats borders pos (p ++ result)
  = (p ++ fst (assemble t formats borders pos result),
     snd (assemble t formats borders pos result)).
Proof.
  induction formats as [|m fm IH]; intros borders pos result; [reflexivity|].
  destruct borders as [|b [|e bs]]; try reflexivity.
  simpl. rewrite <- IH. f_equal. rewrite <- !app_assoc. reflexivity.
Qed.

Lemma assemble_shift t p formats : forall borders pos result,
  assemble (p ++ t) formats (map (Nat.add (length p)) borders)
           (length p + pos) result
  = (fst (assemble t formats borders pos result),
     length p + snd (assemble t formats borders pos result)).
Proof.
  induction formats as [|m fm IH]; intros borders pos result; [reflexivity|].
  destruct borders as [|b [|e bs]]; try reflexivity.
  simpl map. simpl assemble. rewrite <- IH. f_equal.
  replace (length p + b - (length p + pos)) with (b - pos) by lia.
  rewrite substr_shift. reflexivity.
Qed.

Lemma substr_prefix p t n : substr (p ++ t) 0 (length p + n) = p ++ substr t 0 n.
Proof.
  unfold substr. simpl skipn. rewrite firstn_app, firstn_all2 by lia.
  replace (length p + n - length p) with n by lia. reflexivity.
Qed.

Lemma assemble_shift_start t p formats borders :
  let r1 := assemble (p ++ t) formats (map (Nat.add (length p)) borders) 0 [] in
  let r := assemble t formats borders 0 [] in
  fst r1 ++ skipn (snd r1) (p ++ t) = p ++ fst r ++ skipn (snd r) t.
Proof.
  destruct formats as [|m fm]; [reflexivity|].
  destruct borders as [|b [|e bs]]; try reflexivity.
  simpl map. simpl assemble.
  rewrite Nat.sub_0_r, substr_prefix, (assemble_shift t p fm bs e).
  rewrite <- app_assoc, assemble_prefix. simpl fst. simpl snd.
  rewrite skipn_app_length, <- app_assoc, Nat.sub_0_r. reflexivity.
Qed.

Lemma Throw_prefix p e f1 f2 :
  same_but_prefix p f1 f2 -> same_but_prefix p (Throw e f1) (Throw e f2).
Proof.
  intros H. pose proof H as (Hab & Hsu & He & Hfl & Ha & Ht & Hp).
  unfold Throw. rewrite Ha, Hab.
  destruct (aborted_ f2); [exact H|].
  destruct (abort_ f2); unfold same_but_prefix; simpl.
  - repeat (split; [first [assumption|reflexivity]|]). exact Hp.
  - rewrite Hsu. repeat (split; [first [assumption|reflexivity]|]). exact I.
Qed.

Lemma InitialOutput_prefix p f1 f2 :
  same_but_prefix p f1 f2 ->
  same_but_prefix p (InitialOutput f1) (InitialOutput f2).
Proof.
  intros H. pose proof H as (Hab & Hsu & He & Hfl & Ha & Ht & Hp).
  unfold InitialOutput.
  destruct (parse_ f1) as [p1|] eqn:E1, (parse_ f2) as [p2|] eqn:E2;
    try contradiction; [|exact H].
  pose proof Hp as (_ & _ & _ & _ & _ & _ & A1 & F1 & O1 & A2 & F2 & O2).
  rewrite A1, F1, O1, A2, F2, O2, Hfl.
  destruct (Special.HaveBits (flags_ f2) Special.kNewline); simpl;
    rewrite Ha; destruct (aborted_ f2) eqn:Ea2; unfold same_but_prefix; simpl;
    rewrite ?E1, ?E2, ?Hsu, ?Ht, ?Ea2, <- ?app_assoc;
    intuition congruence.
Qed.

Lemma feed_prefix p f1 f2 arg :
  same_but_prefix p f1 f2 -> same_but_prefix p (feed f1 arg) (feed f2 arg).
Proof.
  intros H. pose proof H as (Hab & Hsu & He & Hfl & Ha & Ht & Hp).
  unfold feed. rewrite Ha. destruct (aborted_ f2) eqn:Ea2; [exact H|].
  destruct (parse_ f1) as [p1|] eqn:E1, (parse_ f2) as [p2|] eqn:E2;
    try contradiction.
  - destruct Hp as (Hf & Hargs & Hc & S1 & S2 & Hb & A1 & F1 & O1 & A2 & F2 & O2).
    rewrite S1, S2, Hf, Hargs, Hc.
    destruct (apply_defines _ arg (format_ p2)) as [format|e];
      [|apply Throw_prefix; exact H].
    change (current_arg_ (next_arg (set_format_ format p1)))
      with (S (current_arg_ p1)).
    change (current_arg_ (next_arg (set_format_ format p2)))
      with (S (current_arg_ p2)).
    change (args_ (next_arg (set_format_ format p1))) with (args_ p1).
    change (args_ (next_arg (set_format_ format p2))) with (args_ p2).
    rewrite Hargs, Hc.
    destruct (S (current_arg_ p2) =? length (args_ p2)).
    + unfold FinishInsertingArgs. cbn [parse_ set_parse_].
      apply InitialOutput_prefix.
      unfold same_but_prefix. cbn. rewrite Hb, Ht, assemble_shift_start.
      intuition congruence.
    + unfold same_but_prefix. cbn. intuition congruence.
  - rewrite He. destruct (Code_eqb (error_ f2) kNone);
      [apply Throw_prefix|]; exact H.
Qed.

Lemma feed_all_prefix p args : forall f1 f2,
  same_but_prefix p f1 f2 ->
  same_but_prefix p (feed_all f1 args) (feed_all f2 args).
Proof.
  induction args as [|arg args IH]; intros f1 f2 H; simpl; [exact H|].
  apply IH. apply feed_prefix. exact H.
Qed.

Lemma Init_prefix abort success flags pre rest st :
  ~ In "%"%char pre ->
  ParseFormat rest = Some (Done st) ->
  same_but_prefix (pre ++ ["%"%char])
    (Init None None None
       (raw_Format abort success (pre ++ "%"%char :: "%"%char :: rest) flags))
    (Init None None None (raw_Format abort success rest flags)).
Proof.
  intros Hpre Hst. unfold Init.
  change (text_ (set_parse_ _ (raw_Format abort success ?t flags))) with t.
  rewrite (@ParseFormat_after_percent pre rest Hpre), Hst. simpl option_map.
  cbv iota. change (p_args (shift (pre ++ ["%"%char]) st)) with (p_args st).
  destruct (p_args st) eqn:Ea.
  - apply InitialOutput_prefix. unfold same_but_prefix. cbn.
    intuition congruence.
  - unfold same_but_prefix. cbn. intuition congruence.
Qed.

(** A format without [%] is its own result. *)
Lemma ParseFormat_literal t :
  ~ In "%"%char t -> ParseFormat t = Some (Done (init_PState t)).
Proof.
  intros H. unfold ParseFormat.
  assert (LoopStep (init_PState t) 0 = Stop (init_PState t)) as E.
  { unfold LoopStep.
    change (find "%" (p_text (init_PState t)) 0)
      with (find "%" ([] ++ t) (length (@nil ascii) + 0)).
    rewrite (@find_absent_from "%"%char [] t 0 H). reflexivity. }
  change (ParseLoop (S (length t)) (init_PState t) 0)
    with (match LoopStep (init_PState t) 0 with
          | Again st' i' => ParseLoop (length t) st' i'
          | Stop st' => Some (Done st')
          | Fail e => Some (Thrown e)
          | Exhausted => None
          end).
  rewrite E. reflexivity.
Qed.

Lemma Init_literal success t :
  ~ In "%"%char t ->
  let f := Init None None None (raw_Format false success t Special.None_) in
  text_ f = t /\ error_ f = kNone /\ parse_ f = None /\ aborted_ f = None.
Proof.
  intros H f. unfold f, Init.
  change (text_ (set_parse_ _ (raw_Format false success t Special.None_))) with t.
  rewrite (@ParseFormat_literal t H). cbn. auto.
Qed.

(** C4: at every position where the search for [%] finds the pair [%%],
    the pass of the loop leaves one [%] of the pair in the text, makes no
    [Manip], and goes on after the character that is left, or ends when the
    pair was the end of the string.  A format that begins with a literal
    text and [%%] renders as the literal text, one [%] and what the rest of
    the format renders, whatever arguments are fed; between literal texts,
    also at the end of the string, [%%] yields one [%]. *)
Theorem percent_percent_yields_one_percent :
  (forall st i start,
     find "%" (p_text st) i = Some start ->
     S start < length (p_text st) ->
     at_ (p_text st) (S start) = "%"%char ->
     let st' :=
       set_text (firstn start (p_text st)
                   ++ "%"%char :: skipn (S (S start)) (p_text st)) st in
     LoopStep st i
     = if S (S start) =? length (p_text st) then Stop st'
       else Again st' (S start)) /\
  (forall abort success flags pre rest st args,
     ~ In "%"%char pre ->
     ParseFormat rest = Some (Done st) ->
     let f1 := feed_all
                 (Init None None None
                    (raw_Format abort success
                       (pre ++ "%"%char :: "%"%char :: rest) flags)) args in
     let f2 := feed_all
                 (Init None None None (raw_Format abort success rest flags))
                 args in
     text_ f1 = pre ++ "%"%char :: text_ f2 /\
     error_ f1 = error_ f2 /\ aborted_ f1 = aborted_ f2 /\
     (parse_ f1 = None <-> parse_ f2 = None)) /\
  (forall success pre post,
     ~ In "%"%char pre -> ~ In "%"%char post ->
     let f := Init None None None
                (raw_Format false success
                   (pre ++ "%"%char :: "%"%char :: post) Special.None_) in
     text_ f = pre ++ "%"%char :: post /\ error_ f = kNone /\
     parse_ f = None) /\
  text_ (Format_reported (Some true) "Hello%%" Special.None_) = s2l "Hello%" /\
  text_ (feed (Format_reported (Some true) "%%%s%%" Special.None_)
           (VNum TInt 7)) = s2l "%7%" /\
  text_ (feed (Format_reported (Some true) "%d%%%%" Special.None_)
           (VNum TInt 7)) = s2l "7%%".
Proof.
  split; [|split; [|split; [|repeat split; vm_compute; reflexivity]]].
  - intros st i start Hf Hlt Hc st'.
    pose proof (find_spec _ _ _ Hf) as [_ Hs].
    unfold st'. rewrite <- (@erase1_pair _ _ Hlt Hs).
    apply LoopStep_percent; assumption.
  - intros abort success flags pre rest st args Hpre Hst f1 f2.
    pose proof (@Init_prefix abort success flags pre rest st Hpre Hst) as H.
    apply (@feed_all_prefix _ args) in H. fold f1 f2 in H.
    destruct H as (_ & _ & He & _ & Ha & Ht & Hp).
    split; [rewrite Ht, <- app_assoc; reflexivity|].
    split; [exact He|]. split; [exact Ha|].
    destruct (parse_ f1), (parse_ f2); try contradiction;
      split; intros; congruence.
  - intros success pre post Hpre Hpost f.
    destruct (@Init_literal success post Hpost) as (Ht & He & Hp & _).
    pose proof (@Init_prefix false success Special.None_ pre post
                  (init_PState post) Hpre (@ParseFormat_literal post Hpost)) as H.
    fold f in H. destruct H as (_ & _ & He' & _ & _ & Ht' & Hp').
    rewrite Ht', He', Ht, He, <- app_assoc. repeat split.
    rewrite Hp in Hp'. destruct (parse_ f); [contradiction|reflexivity].
Qed.

Lemma percent_percent_yields_one_percent_witness :
  let f1 := feed_all (Format_reported (Some true) "100%% of %s" Special.None_)
              [VStr (s2l "it")] in
  let f2 := feed_all (Format_reported (Some true) " of %s" Special.None_)
              [VStr (s2l "it")] in
  text_ f1 = s2l "100" ++ "%"%char :: text_ f2 /\
  text_ f1 = s2l "100% of it".
Proof.
  intros f1 f2. split; [|reflexivity].
  refine (proj1 (proj1 (proj2 percent_percent_yields_one_percent)
            false (Some true) Special.None_ (s2l "100") (s2l " of %s") _
            [VStr (s2l "it")] _ eq_refl)).
  simpl. intros [H|[H|[H|[]]]]; discriminate H.
Defined.

(** ** The text of an ignored [Manip] *)

Lemma parsed_manips_empty t st :
  ParseFormat t = Some (Done st) ->
  Forall (fun m => os_str (ostream_ m) = []) (p_format st).
Proof.
  unfold ParseFormat. intros H.
  destruct (ParseLoop _ _ _) as [[st0|e]|] eqn:E; try discriminate.
  injection H as <-.
  destruct (Postponed_fields st0) as (_ & _ & _ & -> & _).
  revert E.
  apply (@ParseLoop_invariant
           (fun st => Forall (fun m => os_str (ostream_ m) = []) (p_format st))).
  - intros st i st' i' HP H. apply LoopStep_Again in H.
    destruct H as [(start & _ & _ & -> & _)
                  |(start & m & q & _ & _ & -> & _ & _ & _ & Hk & _)];
      [exact HP|].
    apply Forall_app. split; [exact HP|]. constructor; [|constructor].
    destruct Hk as [Hs _]. exact Hs.
  - intros st i st' HP H. apply LoopStep_Stop in H.
    destruct H as [[_ ->]|(start & _ & _ & -> & _)]; exact HP.
  - constructor.
Qed.

Lemma apply_modifier_ignored kind Set_ set_these arg m m' :
  (forall os os', Set_ os arg = Done os' -> os_str os' = os_str os) ->
  apply_modifier kind Set_ set_these arg m = Done m' ->
  extensions_ m' = extensions_ m /\
  os_str (ostream_ m') = os_str (ostream_ m).
Proof.
  intros HS. unfold apply_modifier.
  destruct (has set_these kind); [|intros H; injection H as <-; auto].
  destruct (Set_ (ostream_ m) arg) as [os|] eqn:E; simpl; [|discriminate].
  intros H. injection H as <-. simpl. split; [reflexivity|].
  eapply HS. exact E.
Qed.

Lemma SetLocale_str os arg os' :
  SetLocale os arg = Done os' -> os_str os' = os_str os.
Proof. destruct arg; simpl; intros H; inversion H; reflexivity. Qed.

Lemma SetPrecision_str os arg os' :
  SetPrecision os arg = Done os' -> os_str os' = os_str os.
Proof. destruct arg; simpl; intros H; inversion H; reflexivity. Qed.

Lemma SetWidth_str os arg os' :
  SetWidth os arg = Done os' -> os_str os' = os_str os.
Proof.
  destruct arg as [t v| |]; simpl; try discriminate.
  destruct t; simpl;
    repeat match goal with |- context [if ?b then _ else _] => destruct b end;
    intros H; inversion H; reflexivity.
Qed.

Lemma SetFill_str os arg os' :
  SetFill os arg = Done os' -> os_str os' = os_str os.
Proof. destruct arg; simpl; intros H; inversion H; reflexivity. Qed.

Lemma apply_reference_ignored set_these arg m m' :
  ignored_is_empty m -> apply_reference set_these arg m = Done m' ->
  ignored_is_empty m'.
Proof.
  intros Hm. unfold apply_reference.
  destruct (apply_modifier Defines.kLocale _ _ _ _) as [m1|] eqn:E1; simpl;
    [|discriminate].
  apply apply_modifier_ignored in E1; [|intros os0 os0'; apply SetLocale_str].
  destruct (apply_modifier Defines.kPrecision _ _ _ _) as [m2|] eqn:E2; simpl;
    [|discriminate].
  apply apply_modifier_ignored in E2; [|intros os0 os0'; apply SetPrecision_str].
  destruct (apply_modifier Defines.kWidth _ _ _ _) as [m3|] eqn:E3; simpl;
    [|discriminate].
  apply apply_modifier_ignored in E3; [|intros os0 os0'; apply SetWidth_str].
  destruct (apply_modifier Defines.kFill _ _ _ _) as [m4|] eqn:E4; simpl;
    [|discriminate].
  apply apply_modifier_ignored in E4; [|intros os0 os0'; apply SetFill_str].
  destruct E1 as [X1 Y1], E2 as [X2 Y2], E3 as [X3 Y3], E4 as [X4 Y4].
  assert (ignored_is_empty m4) as H4.
  { unfold ignored_is_empty in *. rewrite X4, X3, X2, X1, Y4, Y3, Y2, Y1.
    exact Hm. }
  destruct (negb (has set_these Defines.kArg));
    [intros H; injection H as <-; exact H4|].
  destruct (negb (need_ m4 =? Defines.kNone)%Z); [discriminate|].
  destruct (has (extensions_ m4) Extensions.kIgnore) eqn:Ei;
    [intros H; injection H as <-; exact H4|].
  destruct (has (extensions_ m4) Extensions.kStringNpos).
  - destruct (StringNpos _ _); simpl; [|discriminate].
    intros H; injection H as <-. unfold ignored_is_empty. simpl. congruence.
  - destruct (StringStandard _ _); simpl; [|discriminate].
    intros H; injection H as <-. unfold ignored_is_empty. simpl. congruence.
Qed.

Lemma Forall_upd {A} (P : A -> Prop) x l : forall i,
  Forall P l -> P x -> Forall P (upd i x l).
Proof.
  induction l as [|y l IH]; intros i Hl Hx; [destruct i; constructor|].
  inversion Hl; subst. destruct i; simpl; constructor; auto.
Qed.

Lemma apply_defines_ignored defines arg : forall format format',
  Forall ignored_is_empty format ->
  apply_defines defines arg format = Done format' ->
  Forall ignored_is_empty format'.
Proof.
  induction defines as [|it ds IH]; intros format format' Hf H; simpl in H.
  - injection H as <-. exact Hf.
  - destruct (nth_error format (manip_ it)) as [m|] eqn:Em; [|eapply IH; eassumption].
    destruct (apply_reference (set_these_ it) arg m) as [m'|] eqn:Er;
      simpl in H; [|discriminate].
    eapply IH; [|exact H]. apply Forall_upd; [exact Hf|].
    eapply apply_reference_ignored; [|exact Er].
    rewrite Forall_forall in Hf. apply Hf. eapply nth_error_In. exact Em.
Qed.

Lemma Throw_manips_ok e f : manips_ok f -> manips_ok (Throw e f).
Proof.
  unfold manips_ok, Throw. intros H.
  destruct (aborted_ f); [exact H|]. destruct (abort_ f); simpl; [exact H|exact I].
Qed.

Lemma InitialOutput_manips_ok f : manips_ok f -> manips_ok (InitialOutput f).
Proof.
  intros H. unfold InitialOutput.
  destruct (parse_ f) as [parse|] eqn:Ep; [|exact H].
  match goal with
  | |- manips_ok (match aborted_ ?g with _ => _ end) =>
      assert (manips_ok g) as Hg; [|destruct (aborted_ g); [exact Hg|exact I]]
  end.
  assert (forall g, parse_ g = parse_ f \/ parse_ g = None -> manips_ok g) as K.
  { intros g [E|E]; unfold manips_ok; rewrite E; [exact H|exact I]. }
  apply K.
  destruct (Special.HaveBits _ _), (append_ parse), (file_ parse),
    (sink_ostream_ parse);
    unfold OutputInternal_string, OutputInternal_file, OutputInternal_stream,
      Throw, set_result, clear_error, set_text_; simpl;
    repeat match goal with
           | |- context [match ?x with _ => _ end] => destruct x; simpl
           end; auto.
Qed.

Lemma feed_manips_ok f arg : manips_ok f -> manips_ok (feed f arg).
Proof.
  intros H. unfold feed.
  destruct (aborted_ f); [exact H|].
  destruct (parse_ f) as [parse|] eqn:Ep.
  - destruct (simple_ parse).
    + destruct (StringStandard _ _); [|apply Throw_manips_ok; exact H].
      apply InitialOutput_manips_ok. unfold manips_ok. simpl. rewrite Ep.
      unfold manips_ok in H. rewrite Ep in H. exact H.
    + destruct (apply_defines _ arg (format_ parse)) as [format|e] eqn:E;
        [|apply Throw_manips_ok; exact H].
      unfold manips_ok in H. rewrite Ep in H.
      pose proof (apply_defines_ignored _ _ H E) as Hf.
      destruct (_ =? _).
      * unfold FinishInsertingArgs. cbn [parse_ set_parse_].
        apply InitialOutput_manips_ok. unfold manips_ok. simpl. exact Hf.
      * unfold manips_ok. simpl. exact Hf.
  - destruct (Code_eqb _ _); [apply Throw_manips_ok|]; exact H.
Qed.

(** In every object that a constructor makes from a format and that is fed
    any arguments, a [Manip] with the ignore extension holds no text:
    [space_for_plus_substitution] applies to every [Manip] that the
    assembler meets. *)
Lemma constructed_manips_ok append file os abort success t flags args :
  manips_ok
    (feed_all (Init append file os (raw_Format abort success t flags)) args).
Proof.
  assert (manips_ok (Init append file os (raw_Format abort success t flags)))
    as H0.
  { unfold Init.
    change (text_ (set_parse_ _ (raw_Format abort success t flags))) with t.
    destruct (ParseFormat t) as [[st|e]|] eqn:E.
    - pose proof (parsed_manips_empty _ E) as Hm.
      assert (Forall ignored_is_empty (p_format st)) as Hi.
      { eapply Forall_impl; [|exact Hm]. intros m Hs _. exact Hs. }
      destruct (p_args st);
        [apply InitialOutput_manips_ok|]; unfold manips_ok; simpl; exact Hi.
    - apply Throw_manips_ok. unfold manips_ok. simpl. constructor.
    - unfold manips_ok. simpl. constructor. }
  revert H0. generalize (Init append file os (raw_Format abort success t flags)).
  induction args as [|arg args IH]; intros f Hf; simpl; [exact Hf|].
  apply IH. apply feed_manips_ok. exact Hf.
Qed.

(** ** Every [SetIndirect] of the parser is inside [args_]

    The model leaves [args_] as it is when [SetIndirect] is called with a
    number outside the vector, where the code is undefined.  The parser
    never does so: an explicit number is stored after
    [HandleArgumentNumber] has resized [args_], and a free number is less
    than the size that [args_] is given before the numbers are handed out
    ([GiveNumbers_inside]). *)







(** * Further properties *)

(** A text in which [c] does not occur, by computation. *)
Lemma literal_text (c : ascii) (s : text) :
  forallb (fun x => negb (Ascii.eqb x c)) s = true -> ~ In c s.
Proof.
  intros H Hin. rewrite forallb_forall in H. specialize (H _ Hin).
  rewrite Ascii.eqb_refl in H. discriminate H.
Qed.

(** ** The helpers that find a number *)

Lemma EndNumber_from_spec rest : forall k,
  let e := EndNumber_from rest k in
  k <= e <= k + length rest /\
  (forall j, k <= j < e -> isdigit (nth (j - k) rest zero) = true) /\
  (e < k + length rest -> isdigit (nth (e - k) rest zero) = false).
Proof.
  induction rest as [|c rest IH]; intros k; cbn [EndNumber_from length].
  - cbv zeta. repeat split; lia.
  - destruct (isdigit c) eqn:D; cbv zeta.
    + specialize (IH (S k)). cbv zeta in IH. destruct IH as (B & Hd & He).
      split; [lia|]. split.
      * intros j Hj. destruct (Nat.eq_dec j k) as [->|Hne].
        -- rewrite Nat.sub_diag. exact D.
        -- replace (j - k) with (S (j - S k)) by lia. cbn [nth].
           apply Hd. lia.
      * intros Hlt.
        replace (EndNumber_from rest (S k) - k)
          with (S (EndNumber_from rest (S k) - S k)) by lia.
        cbn [nth]. apply He. lia.
    + split; [lia|]. split.
      * intros j Hj. lia.
      * intros _. rewrite Nat.sub_diag. exact D.
Qed.

Lemma at_skipn s n i : nth i (skipn n s) zero = at_ s (n + i).
Proof. unfold at_. apply nth_skipn. Qed.

Lemma EndNumber_spec s start :
  start < length s ->
  let e := EndNumber s start in
  start < e <= length s /\
  (forall j, start < j < e -> isdigit (at_ s j) = true) /\
  (e < length s -> isdigit (at_ s e) = false).
Proof.
  intros Hs. unfold EndNumber.
  pose proof (EndNumber_from_spec (skipn (S start) s) (S start)) as H.
  cbv zeta in *. rewrite length_skipn in H.
  set (e := EndNumber_from (skipn (S start) s) (S start)) in *.
  destruct H as (B & Hd & He). split; [lia|]. split.
  - intros j Hj. specialize (Hd j ltac:(lia)). rewrite at_skipn in Hd.
    replace (S start + (j - S start)) with j in Hd by lia. exact Hd.
  - intros Hlt. specialize (He ltac:(lia)). rewrite at_skipn in He.
    replace (S start + (e - S start)) with e in He by lia. exact He.
Qed.

Lemma EndNumber_unique s start e :
  start < length s -> start < e <= length s ->
  (forall j, start < j < e -> isdigit (at_ s j) = true) ->
  (e < length s -> isdigit (at_ s e) = false) ->
  EndNumber s start = e.
Proof.
  intros Hs He Hd Hn.
  destruct (EndNumber_spec s Hs) as (B & Hd' & Hn'). cbv zeta in *.
  destruct (Nat.lt_trichotomy (EndNumber s start) e) as [Hlt|[Heq|Hgt]].
  - specialize (Hd (EndNumber s start) ltac:(lia)).
    rewrite Hn' in Hd by lia. discriminate.
  - exact Heq.
  - specialize (Hd' e ltac:(lia)). rewrite Hn in Hd' by lia. discriminate.
Qed.

(** X1: [EndNumber(s, start)], for [start] inside [s], is the index of the
    first character after [start] that is no digit, and the size of [s]
    when only digits follow: every character between [start] and the
    result is a digit, the character at the result is none, and the result
    is the only index with these two properties. *)
Theorem EndNumber_first_non_digit s start :
  start < length s ->
  (start < EndNumber s start <= length s /\
   (forall j, start < j < EndNumber s start -> isdigit (at_ s j) = true) /\
   (EndNumber s start < length s -> isdigit (at_ s (EndNumber s start)) = false)) /\
  (forall e,
     start < e <= length s ->
     (forall j, start < j < e -> isdigit (at_ s j) = true) ->
     (e < length s -> isdigit (at_ s e) = false) ->
     EndNumber s start = e).
Proof.
  intros Hs. split.
  - exact (EndNumber_spec s Hs).
  - intros e. apply EndNumber_unique. exact Hs.
Qed.

Lemma EndNumber_first_non_digit_witness :
  2 < length (s2l "%w123d") /\
  EndNumber (s2l "%w123d") 2 = 5 /\ EndNumber (s2l "%w123") 2 = 5.
Proof.
  split; [vm_compute; lia|]. split.
  - apply (EndNumber_first_non_digit (s2l "%w123d") (start := 2));
      [vm_compute; lia | vm_compute; lia | | reflexivity].
    intros j Hj. assert (j = 3 \/ j = 4) as [-> | ->] by lia; reflexivity.
  - reflexivity.
Defined.

(** X2: [EndArgumentNumber(s, start)] returns an index exactly when [s]
    holds at [start] the expression [1-9][0-9]*\$, and the index is the one
    after the [$]. *)
Theorem EndArgumentNumber_matches_number_dollar s start e :
  EndArgumentNumber s start = Some e <->
  (IsPositiveNumber (at_ s start) = true /\
   S start < e <= length s /\
   (forall j, start < j < e - 1 -> isdigit (at_ s j) = true) /\
   at_ s (e - 1) = "$"%char).
Proof.
  unfold EndArgumentNumber. split.
  - destruct (IsPositiveNumber (at_ s start)) eqn:P; cbn [negb]; [|discriminate].
    pose proof (IsPositiveNumber_inside s start P) as Hs.
    destruct (EndNumber_spec s Hs) as (B & Hd & _). cbv zeta in *.
    destruct (EndNumber s start =? length s) eqn:E; cbn [negb andb];
      [discriminate|].
    apply Nat.eqb_neq in E.
    destruct (Ascii.eqb (at_ s (EndNumber s start)) "$") eqn:D; [|discriminate].
    intros H. injection H as <-. apply Ascii.eqb_eq in D.
    replace (EndNumber s start + 1 - 1) with (EndNumber s start) by lia.
    repeat split; try lia; assumption.
  - intros (P & B & Hd & D). rewrite P. cbn [negb].
    pose proof (IsPositiveNumber_inside s start P) as Hs.
    assert (EndNumber s start = e - 1) as ->.
    { apply EndNumber_unique; [exact Hs | lia | exact Hd |].
      intros _. rewrite D. reflexivity. }
    replace (e - 1 =? length s) with false
      by (symmetry; apply Nat.eqb_neq; lia).
    rewrite D. cbn. f_equal. lia.
Qed.

(** ** [ParseNumber] within the range of its type *)

Lemma wrap_small T v : (0 <= v < limit T)%Z -> wrap T v = v.
Proof.
  intros H. destruct T; unfold wrap, limit in *.
  - apply convert_ULong_small. exact H.
  - apply convert_signed_small; [reflexivity|].
    unfold type_min, type_max. simpl. lia.
Qed.

Lemma ParseNumber_loop_limit T digits : forall result,
  (1 <= result)%Z -> Forall (fun c => isdigit c = true) digits ->
  (accumulate result digits < limit T)%Z ->
  ParseNumber_loop T digits result = Done (accumulate result digits).
Proof.
  induction digits as [|c ds IH]; intros result Hr Hd Hfit.
  - reflexivity.
  - inversion Hd as [|? ? Hc Hds]; subst.
    pose proof (isdigit_digit_val _ Hc) as Hv.
    assert (accumulate result (c :: ds)
            = accumulate (result * 10 + digit_val c) ds) as E by reflexivity.
    rewrite E in *.
    assert (result * 10 + digit_val c
            <= accumulate (result * 10 + digit_val c) ds)%Z as Hge
      by (apply accumulate_ge; [lia | exact Hds]).
    cbn [ParseNumber_loop]. cbv zeta. rewrite wrap_small by lia.
    destruct (Z.leb_spec (result * 10 + digit_val c) result); [lia|].
    apply IH; [lia | exact Hds | exact Hfit].
Qed.

(** X3: [ParseNumber], at either of its two types, returns the decimal
    value of the digits from [start] to [end_] when the number begins with
    a digit from 1 to 9 and its value is below the limit of the type
    (2^64 for [size_type], 2^63 for [std::streamsize]). *)
Theorem ParseNumber_decimal_value T t start end_ :
  start < end_ <= length t ->
  IsPositiveNumber (at_ t start) = true ->
  Forall (fun c => isdigit c = true) (digits_between t start end_) ->
  (decimal_value (digits_between t start end_) < limit T)%Z ->
  ParseNumber T t start end_
  = Done (decimal_value (digits_between t start end_)).
Proof.
  intros Hse Hpos Hd Hfit.
  assert (digits_between t start end_
          = at_ t start :: substr t (S start) (end_ - S start)) as E.
  { unfold digits_between, substr, at_.
    replace (end_ - start) with (S (end_ - S start)) by lia.
    rewrite (skipn_nth_cons t zero) by lia. reflexivity. }
  rewrite E in *. inversion Hd as [|? ? Hc Hds]; subst.
  pose proof (IsPositiveNumber_digit_val _ Hpos) as Hv.
  assert (decimal_value (at_ t start :: substr t (S start) (end_ - S start))
          = accumulate (digit_val (at_ t start))
              (substr t (S start) (end_ - S start))) as Ed.
  { unfold decimal_value, accumulate. cbn [fold_left]. f_equal. }
  rewrite Ed in *.
  assert (digit_val (at_ t start)
          <= accumulate (digit_val (at_ t start))
               (substr t (S start) (end_ - S start)))%Z
    by (apply accumulate_ge; [lia | exact Hds]).
  unfold ParseNumber. rewrite wrap_small by lia.
  apply ParseNumber_loop_limit; [lia | exact Hds | exact Hfit].
Qed.

Lemma ParseNumber_decimal_value_witness :
  ParseNumber streamsize (s2l "%.250s") 2 5 = Done 250%Z.
Proof.
  apply (@ParseNumber_decimal_value streamsize (s2l "%.250s") 2 5).
  - vm_compute. lia.
  - reflexivity.
  - vm_compute. repeat constructor.
  - vm_compute. reflexivity.
Defined.

(** ** The parser ends *)

Lemma LoopStep_advances st i st' i' :
  LoopStep st i = Again st' i' -> i <= length (p_text st) ->
  length (p_text st') - i' < length (p_text st) - i.
Proof.
  intros H Hi. apply LoopStep_Again in H.
  destruct H as [(start & F & _ & -> & -> & L)
                |(start & m & q & F & T & _ & _ & _ & _ & _ & L)].
  - apply find_spec in F. cbn [set_text p_text].
    rewrite length_erase1 by lia. lia.
  - apply find_spec in F. rewrite T. lia.
Qed.

(** A format without [$] holds no explicit argument number. *)
Lemma EndArgumentNumber_no_dollar s i :
  ~ In "$"%char s -> EndArgumentNumber s i = None.
Proof.
  intros Hn. unfold EndArgumentNumber.
  destruct (IsPositiveNumber (at_ s i)) eqn:P; cbn [negb]; [|reflexivity].
  pose proof (IsPositiveNumber_inside s i P) as Hs.
  pose proof (EndNumber_bounds s Hs) as B.
  destruct (EndNumber s i =? length s) eqn:E; cbn [negb andb]; [reflexivity|].
  apply Nat.eqb_neq in E.
  destruct (Ascii.eqb (at_ s (EndNumber s i)) "$") eqn:D; [|reflexivity].
  apply Ascii.eqb_eq in D. exfalso. apply Hn. rewrite <- D.
  unfold at_. apply nth_In. lia.
Qed.

Lemma SetArg_no_dollar kind st manip k i st' manip' i' :
  ~ In "$"%char (p_text st) ->
  SetArg kind st manip k i = Done (st', manip', i') ->
  p_specified st' = p_specified st.
Proof.
  intros Hn H. unfold SetArg in H.
  rewrite (@EndArgumentNumber_no_dollar _ (S i) Hn) in H.
  destruct (_ =? _); [discriminate|]. injection H as <- _ _. reflexivity.
Qed.

Lemma SpecStep_no_dollar st m k i st' m' i' :
  ~ In "$"%char (p_text st) ->
  SpecStep st m k i = Next st' m' i' ->
  p_specified st' = p_specified st.
Proof.
  unfold SpecStep, after_switch, with_SetArg. intros Hn H.
  repeat (destruct_match_in H; try discriminate).
  all: inversion H; subst; clear H; try reflexivity.
  all: match goal with
       | E : SetArg _ _ _ _ _ = Done _ |- _ =>
           eapply SetArg_no_dollar; [exact Hn | exact E]
       end.
Qed.

Lemma ParseSpec_no_dollar fuel k : forall st m i st' m' i',
  ~ In "$"%char (p_text st) ->
  ParseSpec fuel st m k i = Some (Done (st', m', i')) ->
  p_specified st' = p_specified st.
Proof.
  induction fuel as [|fuel IH]; intros st m i st' m' i' Hn H; [discriminate|].
  simpl in H. destruct (SpecStep st m k i) as [st1 m1 i1|st1 m1 i1|e] eqn:E.
  - pose proof (@SpecStep_no_dollar _ _ _ _ _ _ _ Hn E) as E1.
    apply SpecStep_Next in E. destruct E as (Et & _).
    rewrite <- E1. eapply IH; [|exact H]. rewrite Et. exact Hn.
  - injection H as <- _ _. apply SpecStep_Last in E.
    destruct E as (-> & _). reflexivity.
  - discriminate.
Qed.

Lemma ParseSpec_text fuel k : forall st m i st' m' i',
  ParseSpec fuel st m k i = Some (Done (st', m', i')) ->
  p_text st' = p_text st.
Proof.
  induction fuel as [|fuel IH]; intros st m i st' m' i' H; [discriminate|].
  simpl in H. destruct (SpecStep st m k i) as [st1 m1 i1|st1 m1 i1|e] eqn:E.
  - apply SpecStep_Next in E. destruct E as (Et & _).
    rewrite <- Et. eapply IH. exact H.
  - injection H as <- _ _. apply SpecStep_Last in E.
    destruct E as (-> & _). reflexivity.
  - discriminate.
Qed.

Lemma In_erase1 (c : ascii) s i : In c (erase1 s i) -> In c s.
Proof.
  unfold erase1. intros H. apply in_app_or in H.
  rewrite <- (firstn_skipn i s). apply in_or_app.
  destruct H as [H|H]; [left; exact H|right].
  rewrite <- (firstn_skipn 1 (skipn i s)). apply in_or_app. right.
  rewrite skipn_skipn. exact H.
Qed.

Lemma ParseLoop_no_dollar fuel t st :
  ~ In "$"%char t ->
  ParseLoop fuel (init_PState t) 0 = Some (Done st) ->
  p_specified st = [].
Proof.
  intros Hn H.
  assert (~ In "$"%char (p_text st) /\ p_specified st = []) as [_ E];
    [|exact E].
  revert H.
  apply (@ParseLoop_invariant
           (fun st => ~ In "$"%char (p_text st) /\ p_specified st = []));
    [| |split; [exact Hn|reflexivity]].
  - intros st0 i st' i' (Hs & Hsp) H. unfold LoopStep in H.
    destruct (find _ _ _) as [start|]; [|discriminate].
    destruct (_ =? _); [discriminate|].
    destruct (Ascii.eqb _ _).
    + destruct (negb _); [|discriminate]. injection H as <- <-.
      cbn [set_text p_text p_specified]. split; [|exact Hsp].
      intros Hin. apply Hs. eapply In_erase1. exact Hin.
    + unfold ArgumentNumber in H. cbn [push_border p_text] in H.
      rewrite (@EndArgumentNumber_no_dollar _ (S start) Hs) in H.
      destruct (ParseSpec _ _ _ _ _) as [[[[st2 m2] i2]|]|] eqn:Ep;
        try discriminate.
      assert (p_specified st2 = p_specified (push_border start st0)) as E2
        by (eapply ParseSpec_no_dollar; [exact Hs|exact Ep]).
      apply ParseSpec_text in Ep.
      injection H as <- <-.
      cbn [push_border push_format push_queue p_text p_specified].
      rewrite Ep, E2. split; [exact Hs|exact Hsp].
  - intros st0 i st' (Hs & Hsp) H. apply LoopStep_Stop in H.
    destruct H as [[_ ->]|(start & _ & _ & -> & _)]; [split; assumption|].
    cbn [set_text p_text p_specified]. split; [|exact Hsp].
    intros Hin. apply Hs. eapply In_erase1. exact Hin.
Qed.

(** X4: the loops of [ParseFormat] end.  A pass of the loop over the
    directives that goes on leaves less text behind the index than it
    found, so that the loop ends after at most as many passes as the format
    has characters, and so does the loop over the modifiers.  For a format
    without [$], which holds no explicit argument number, the parser
    therefore returns the parsed format or has thrown one of its errors,
    and it has not resized the vectors for an explicit number (a format
    with a large explicit number leaves the constructor by the exception
    of [resize], which is no result of the parser). *)
Theorem ParseFormat_ends :
  (forall st i st' i',
     LoopStep st i = Again st' i' -> i <= length (p_text st) ->
     length (p_text st') - i' < length (p_text st) - i) /\
  (forall st i, LoopStep st i <> Exhausted) /\
  (forall t,
     ~ In "$"%char t ->
     (exists st, ParseFormat t = Some (Done st) /\ p_specified st = []) \/
     (exists e, ParseFormat t = Some (Thrown e) /\ syntax_error e)).
Proof.
  split; [exact LoopStep_advances|]. split.
  - intros st i. apply LoopStep_not_Exhausted.
  - intros t Hn. destruct (ParseFormat t) as [[st|e]|] eqn:E.
    + left. exists st. split; [reflexivity|].
      unfold ParseFormat in E.
      destruct (ParseLoop _ _ _) as [[st0|e0]|] eqn:E0; try discriminate.
      injection E as <-.
      destruct (Postponed_fields st0) as (_ & -> & _).
      eapply ParseLoop_no_dollar; [exact Hn|exact E0].
    + right. exists e. split; [reflexivity|].
      eapply ParseFormat_Thrown. exact E.
    + exfalso. revert E. apply ParseFormat_total.
Qed.

Lemma ParseFormat_ends_witness :
  ~ In "$"%char (s2l "%-5s|%*d") /\
  ((exists st, ParseFormat (s2l "%-5s|%*d") = Some (Done st) /\
               p_specified st = []) \/
   (exists e, ParseFormat (s2l "%-5s|%*d") = Some (Thrown e) /\
              syntax_error e)).
Proof.
  assert (~ In "$"%char (s2l "%-5s|%*d")) as H
    by (apply literal_text; reflexivity).
  split; [exact H|].
  exact (proj2 (proj2 ParseFormat_ends) (s2l "%-5s|%*d") H).
Defined.

(** ** The descriptions of the errors *)

(** X5: [Error::c_str] finds a description for every code: the index of a
    code is below [kEnd], the table has [kEnd] entries, two codes never
    share a description, and the description is empty for [kNone] only. *)
Theorem Error_c_str_describes_every_code :
  length Description = kEnd /\
  (forall c, index_of c < kEnd /\ exists s, Error_c_str c = Some s) /\
  (forall c c', Error_c_str c = Error_c_str c' <-> c = c') /\
  (forall c, Error_c_str c = Some EmptyString <-> c = kNone).
Proof.
  split; [reflexivity|]. split; [|split].
  - intros c. split.
    + destruct c; vm_compute; lia.
    + destruct c; eexists; reflexivity.
  - intros c c'. split.
    + destruct c, c'; intros H; try reflexivity; vm_compute in H;
        discriminate H.
    + intros ->. reflexivity.
  - intros c. split.
    + destruct c; intros H; try reflexivity; vm_compute in H; discriminate H.
    + intros ->. reflexivity.
Qed.

(** ** The flush flag *)

Lemma land_lor_bit x b c :
  (Z.land b c = 0 -> Z.land (Z.lor x b) c = Z.land x c)%Z.
Proof.
  intros H. rewrite Z.land_lor_distr_l, H. apply Z.lor_0_r.
Qed.

(** X6: [flush(bool)] and [flush()] fit together: after [flush(b)] the
    call [flush()] returns [b], whatever the flags were before, and the
    newline flag is as it was. *)
Theorem flush_bool_then_flush b f :
  flush (flush_bool b f) = b /\
  Special.HaveBits (flags_ (flush_bool b f)) Special.kNewline
  = Special.HaveBits (flags_ f) Special.kNewline /\
  text_ (flush_bool b f) = text_ f /\ error_ (flush_bool b f) = error_ f /\
  parse_ (flush_bool b f) = parse_ f.
Proof.
  unfold flush, flush_bool, Special.HaveBits, Special.SetBits,
    Special.ClearBits.
  destruct b; cbn [flags_ set_flags_ Special.flags_ text_ error_ parse_].
  - split; [|split; [|auto]].
    + rewrite Z.land_lor_distr_l.
      change (Z.land Special.kFlush Special.kFlush) with 4%Z.
      destruct (Z.eqb_spec (Z.lor (Z.land (Special.flags_ (flags_ f))
                                      Special.kFlush) 4) Special.kNone)
        as [E|E]; [|reflexivity].
      exfalso. apply Z.lor_eq_0_iff in E. destruct E as [_ E]. discriminate E.
    + rewrite land_lor_bit by reflexivity. reflexivity.
  - split; [|split; [|auto]].
    + rewrite <- Z.land_assoc.
      change (Z.land (Z.lxor Special.kFlush Special.kAll) Special.kFlush)
        with 0%Z.
      rewrite Z.land_0_r. reflexivity.
    + rewrite <- Z.land_assoc.
      change (Z.land (Z.lxor Special.kFlush Special.kAll) Special.kNewline)
        with Special.kNewline.
      reflexivity.
Qed.

(** ** A literal text before the format *)

Lemma find_from_literal c p t : forall k,
  ~ In c p -> find_from c (p ++ t) k = find_from c t (length p + k).
Proof.
  induction p as [|a p IH]; intros k H.
  - reflexivity.
  - cbn [app find_from length].
    destruct (Ascii.eqb a c) eqn:E.
    + apply Ascii.eqb_eq in E. exfalso. apply H. left. exact E.
    + rewrite IH by (intros Hin; apply H; right; exact Hin).
      f_equal. lia.
Qed.

Lemma find_literal c p t :
  ~ In c p -> find c (p ++ t) 0 = find c (p ++ t) (length p + 0).
Proof.
  intros H. unfold find. rewrite skipn_app_length. cbn [skipn].
  apply find_from_literal. exact H.
Qed.

Lemma LoopStep_literal p st :
  ~ In "%"%char p ->
  LoopStep (shift p st) 0 = LoopStep (shift p st) (length p + 0).
Proof.
  intros H. unfold LoopStep. cbn [shift p_text].
  rewrite (@find_literal "%"%char p (p_text st) H). reflexivity.
Qed.

Lemma ParseFormat_literal_prefix pre rest :
  ~ In "%"%char pre ->
  ParseFormat (pre ++ rest)
  = option_map (shift_result pre) (ParseFormat rest).
Proof.
  intros Hpre. unfold ParseFormat.
  change (init_PState (pre ++ rest)) with (shift pre (init_PState rest)).
  set (n := length (pre ++ rest)).
  assert (ParseLoop (S n) (shift pre (init_PState rest)) 0
          = ParseLoop (S n) (shift pre (init_PState rest)) (length pre + 0))
    as E.
  { change (ParseLoop (S n) (shift pre (init_PState rest)) 0)
      with (match LoopStep (shift pre (init_PState rest)) 0 with
            | Again st' i' => ParseLoop n st' i'
            | Stop st' => Some (Done st')
            | Fail e => Some (Thrown e)
            | Exhausted => None
            end).
    rewrite (@LoopStep_literal pre (init_PState rest) Hpre). reflexivity. }
  rewrite E, ParseLoop_shift.
  destruct (ParseLoop (S (length rest)) (init_PState rest) 0) as [r|] eqn:Er;
    [|exfalso; revert Er; apply ParseLoop_total; simpl; lia].
  rewrite (@ParseLoop_more_fuel _ (S n) _ _ _ Er)
    by (unfold n; rewrite length_app; lia).
  destruct r as [st|e]; simpl; [rewrite Postponed_shift|]; reflexivity.
Qed.

Lemma ParseLoop_text_shift p fuel : forall st i,
  ParseLoop_text fuel (shift p st) (length p + i)
  = p ++ ParseLoop_text fuel st i.
Proof.
  induction fuel as [|fuel IH]; intros st i; [reflexivity|].
  cbn [ParseLoop_text]. rewrite LoopStep_shift.
  destruct (LoopStep st i) as [st' i'|st'|e|]; cbn [shift_loop];
    [apply IH | reflexivity | reflexivity | reflexivity].
Qed.

Lemma ParseLoop_text_more_fuel fuel : forall fuel' st i r,
  ParseLoop fuel st i = Some r -> fuel <= fuel' ->
  ParseLoop_text fuel' st i = ParseLoop_text fuel st i.
Proof.
  induction fuel as [|fuel IH]; intros fuel' st i r H Hle; [discriminate|].
  destruct fuel' as [|fuel']; [lia|].
  cbn [ParseLoop ParseLoop_text] in H |- *.
  destruct (LoopStep st i) as [st' i'|st'|e|]; try reflexivity.
  eapply IH; [exact H | lia].
Qed.

(** The text at the throw of the parser after a literal prefix. *)
Lemma text_at_Throw_literal_prefix pre rest :
  ~ In "%"%char pre ->
  text_at_Throw (pre ++ rest) = pre ++ text_at_Throw rest.
Proof.
  intros Hpre. unfold text_at_Throw.
  change (init_PState (pre ++ rest)) with (shift pre (init_PState rest)).
  set (n := length (pre ++ rest)).
  assert (ParseLoop_text (S n) (shift pre (init_PState rest)) 0
          = ParseLoop_text (S n) (shift pre (init_PState rest))
              (length pre + 0)) as E.
  { cbn [ParseLoop_text].
    rewrite (@LoopStep_literal pre (init_PState rest) Hpre). reflexivity. }
  rewrite E, ParseLoop_text_shift. f_equal.
  destruct (ParseLoop (S (length rest)) (init_PState rest) 0) as [r|] eqn:Er;
    [|exfalso; revert Er; apply ParseLoop_total; simpl; lia].
  apply (@ParseLoop_text_more_fuel _ (S n) _ _ _ Er).
  unfold n. rewrite length_app. lia.
Qed.

(** After an error of the parser [text_] holds the format with the pairs
    [%%] that stand before the error collapsed; without an error all of
    them are collapsed. *)
Example text_after_a_parser_error :
  let f := Format_reported (Some true) "100%% of %k, %%" Special.None_ in
  error_ f = kUnknownSpecifier /\ text_ f = s2l "100% of %k, %%" /\
  text_ (Format_reported (Some true) "100%% of %%" Special.None_)
  = s2l "100% of %".
Proof. vm_compute. repeat split; reflexivity. Qed.

Lemma Init_literal_prefix abort success flags pre rest :
  ~ In "%"%char pre ->
  same_but_prefix pre
    (Init None None None (raw_Format abort success (pre ++ rest) flags))
    (Init None None None (raw_Format abort success rest flags)).
Proof.
  intros Hpre. unfold Init.
  change (text_ (set_parse_ _ (raw_Format abort success ?t flags))) with t.
  rewrite (@ParseFormat_literal_prefix pre rest Hpre).
  destruct (ParseFormat rest) as [[st|e]|]; simpl option_map; cbv iota.
  - change (p_args (shift pre st)) with (p_args st).
    destruct (p_args st) eqn:Ea.
    + apply InitialOutput_prefix. unfold same_but_prefix. cbn.
      intuition congruence.
    + unfold same_but_prefix. cbn. intuition congruence.
  - apply Throw_prefix. unfold same_but_prefix.
    cbn [abort_ success_ error_ flags_ aborted_ text_ parse_ set_text_
         set_parse_ raw_Format new_Parse format_ args_ current_arg_ simple_
         borders_ append_ file_ sink_ostream_ map].
    rewrite (@text_at_Throw_literal_prefix pre rest Hpre).
    intuition congruence.
  - unfold same_but_prefix. cbn. intuition congruence.
Qed.

Lemma same_but_prefix_fields p f1 f2 :
  same_but_prefix p f1 f2 ->
  text_ f1 = p ++ text_ f2 /\ error_ f1 = error_ f2 /\
  success_ f1 = success_ f2 /\ aborted_ f1 = aborted_ f2 /\
  (parse_ f1 = None <-> parse_ f2 = None).
Proof.
  unfold same_but_prefix. intros (_ & S & E & _ & A & T & P).
  repeat split; try assumption;
    destruct (parse_ f1), (parse_ f2); intros; try congruence;
    contradiction.
Qed.

(** X7: a text without [%] in front of a format is copied to the front of
    the result and changes nothing else: whatever arguments are fed, the
    object made from [pre ++ rest] holds [pre] followed by the text of the
    object made from [rest], and agrees with it in the error, the success
    flag and the state. *)
Theorem literal_prefix_is_copied abort success flags pre rest args :
  ~ In "%"%char pre ->
  let f1 := feed_all (Init None None None
                        (raw_Format abort success (pre ++ rest) flags)) args in
  let f2 := feed_all (Init None None None
                        (raw_Format abort success rest flags)) args in
  text_ f1 = pre ++ text_ f2 /\ error_ f1 = error_ f2 /\
  success_ f1 = success_ f2 /\ aborted_ f1 = aborted_ f2 /\
  (parse_ f1 = None <-> parse_ f2 = None).
Proof.
  intros Hpre f1 f2. apply same_but_prefix_fields.
  apply feed_all_prefix. apply Init_literal_prefix. exact Hpre.
Qed.

Lemma literal_prefix_is_copied_witness :
  ~ In "%"%char (s2l "Total: ") /\
  let args := [VNum TInt 3; VNum TInt 12] in
  let f1 := feed_all (Init None None None
                        (raw_Format false (Some true)
                           (s2l "Total: " ++ s2l "%d of %d") Special.None_))
              args in
  let f2 := feed_all (Init None None None
                        (raw_Format false (Some true) (s2l "%d of %d")
                           Special.None_)) args in
  text_ f1 = s2l "Total: " ++ text_ f2 /\ error_ f1 = error_ f2 /\
  success_ f1 = success_ f2 /\ aborted_ f1 = aborted_ f2 /\
  (parse_ f1 = None <-> parse_ f2 = None).
Proof.
  assert (~ In "%"%char (s2l "Total: ")) as H
    by (apply literal_text; reflexivity).
  split; [exact H|].
  exact (@literal_prefix_is_copied false (Some true) Special.None_
           (s2l "Total: ") (s2l "%d of %d") [VNum TInt 3; VNum TInt 12] H).
Defined.

(** ** A format without a directive *)

(** X8: a format without [%] is complete without an argument and is its
    own result, followed by a newline when the newline flag is set; with a
    string as sink the result is appended to the string. *)
Theorem literal_format_is_its_own_result abort success flags t :
  ~ In "%"%char t ->
  let nl := if Special.HaveBits flags Special.kNewline
            then ["010"%char] else [] in
  (let f := Init None None None (raw_Format abort success t flags) in
   awaits f 0 /\ text_ f = t ++ nl /\ error_ f = kNone /\
   success_ f = set_success_value true (if abort then None else success)) /\
  (forall target,
     let f := Init (Some target) None None
                   (raw_Format abort success t flags) in
     awaits f 0 /\ text_ f = t ++ nl /\
     appended_ f = Some (target ++ t ++ nl)).
Proof.
  intros H nl. unfold Init.
  change (text_ (set_parse_ _ (raw_Format abort success t flags))) with t.
  rewrite (@ParseFormat_literal t H). cbn [p_args init_PState].
  unfold InitialOutput, awaits, nl.
  cbn [parse_ set_parse_ set_text_ flags_ raw_Format abort_ success_ error_
       count_ text_ appended_ aborted_ p_text append_ file_ sink_ostream_].
  destruct (Special.HaveBits flags Special.kNewline); cbn;
    rewrite ?app_nil_r; repeat split; reflexivity.
Qed.

Lemma literal_format_is_its_own_result_witness :
  ~ In "%"%char (s2l "Hello, world") /\
  let t := s2l "Hello, world" in
  let flags := Special.Newline in
  let nl := if Special.HaveBits flags Special.kNewline
            then ["010"%char] else [] in
  (let f := Init None None None (raw_Format false (Some false) t flags) in
   awaits f 0 /\ text_ f = t ++ nl /\ error_ f = kNone /\
   success_ f = set_success_value true (Some false)) /\
  (forall target,
     let f := Init (Some target) None None
                   (raw_Format false (Some false) t flags) in
     awaits f 0 /\ text_ f = t ++ nl /\
     appended_ f = Some (target ++ t ++ nl)).
Proof.
  assert (~ In "%"%char (s2l "Hello, world")) as H
    by (apply literal_text; reflexivity).
  split; [exact H|].
  exact (@literal_format_is_its_own_result false (Some false) Special.Newline
           (s2l "Hello, world") H).
Defined.

(** ** A directive at the start of the format *)

(** The first pass of the loop over the directives on a format that begins
    with a directive without an argument number. *)
Lemma LoopStep_directive c rest :
  Ascii.eqb c "%" = false -> IsPositiveNumber c = false ->
  let t := "%"%char :: c :: rest in
  LoopStep (init_PState t) 0
  = match ParseSpec (S (length t)) (push_border 0 (init_PState t))
            new_Manip 0 1 with
    | None => Exhausted
    | Some (Thrown e) => Fail e
    | Some (Done (st, manip, i)) =>
        Again (push_border i
                 (push_format manip (push_queue (mkRef Defines.kArg 0) st))) i
    end.
Proof.
  intros Hc Hp t. unfold LoopStep.
  cbn [init_PState p_text find skipn find_from t Ascii.eqb Bool.eqb length
       Nat.eqb at_ nth].
  rewrite Hc. unfold ArgumentNumber, EndArgumentNumber.
  cbn [init_PState push_border p_text at_ nth t]. rewrite Hp.
  cbn [negb p_format length]. reflexivity.
Qed.

Lemma ParseLoop_step fuel st i :
  ParseLoop (S fuel) st i
  = match LoopStep st i with
    | Again st' i' => ParseLoop fuel st' i'
    | Stop st' => Some (Done st')
    | Fail e => Some (Thrown e)
    | Exhausted => None
    end.
Proof. reflexivity. Qed.

Lemma ParseSpec_step fuel st m k i :
  ParseSpec (S fuel) st m k i
  = match SpecStep st m k i with
    | Next st' m' i' => ParseSpec fuel st' m' k i'
    | Last st' m' i' => Some (Done (st', m', i'))
    | Halt e => Some (Thrown e)
    end.
Proof. reflexivity. Qed.

(** A directive whose modifiers end in an error is the error of the
    format. *)
Lemma ParseFormat_directive_Thrown c rest e :
  Ascii.eqb c "%" = false -> IsPositiveNumber c = false ->
  let t := "%"%char :: c :: rest in
  ParseSpec (S (length t)) (push_border 0 (init_PState t)) new_Manip 0 1
  = Some (Thrown e) ->
  ParseFormat t = Some (Thrown e).
Proof.
  intros Hc Hp t H. unfold ParseFormat. rewrite ParseLoop_step.
  unfold t in *. rewrite (@LoopStep_directive c rest Hc Hp). cbv zeta.
  rewrite H. reflexivity.
Qed.

Lemma flag_character_plain c :
  flag_character c = true ->
  Ascii.eqb c "%" = false /\ IsPositiveNumber c = false.
Proof.
  destruct c as [[] [] [] [] [] [] [] []]; vm_compute; intros H;
    first [discriminate H | split; reflexivity].
Qed.

(** The loop over the modifiers on a run of flag characters that ends the
    text. *)
Lemma ParseSpec_flags_only k flags : forall a st m fuel,
  flags <> [] -> Forall (fun c => flag_character c = true) flags ->
  p_text st = a ++ flags -> length flags <= fuel ->
  ParseSpec fuel st m k (length a) = Some (Thrown kMissingSpecifier).
Proof.
  induction flags as [|c fl IH]; intros a st m fuel Hne Hf Ht Hfuel;
    [congruence|].
  inversion Hf as [|? ? Hc Hfl]; subst.
  destruct fuel as [|fuel]; [cbn in Hfuel; lia|].
  assert (at_ (p_text st) (length a) = c) as Hat.
  { rewrite Ht. replace (length a) with (length a + 0) by lia.
    rewrite at_app_length. reflexivity. }
  assert (forall m',
            match after_switch st false m' (length a) with
            | Next st' m'' i' => ParseSpec fuel st' m'' k i'
            | Last st' m'' i' => Some (Done (st', m'', i'))
            | Halt e => Some (Thrown e)
            end = Some (Thrown kMissingSpecifier)) as Hafter.
  { intros m'. unfold after_switch. rewrite Ht, length_app. cbn [length].
    destruct fl as [|c' fl'].
    - cbn [length]. replace (S (length a) =? length a + 1) with true
        by (symmetry; apply Nat.eqb_eq; lia).
      reflexivity.
    - replace (S (length a) =? length a + S (length (c' :: fl'))) with false
        by (symmetry; apply Nat.eqb_neq; cbn [length]; lia).
      replace (S (length a)) with (length (a ++ [c]))
        by (rewrite length_app; cbn [length]; lia).
      apply IH.
      + discriminate.
      + exact Hfl.
      + rewrite Ht, <- app_assoc. reflexivity.
      + cbn [length] in *. lia. }
  rewrite ParseSpec_step. unfold SpecStep. cbv zeta. rewrite Hat.
  unfold flag_character in Hc.
  destruct (case_of c); try discriminate Hc; apply Hafter.
Qed.

(** ** The errors of the parser at the end of the text *)

(** X9: what the parser throws where the text ends too early or holds a
    character that is no specifier.  After a text without [%],
    - a single [%] at the end is [TrailingPercentage];
    - a directive that ends after its flag characters is
      [MissingSpecifier];
    - a directive that ends after a [.] and one more character is
      [MissingSpecifier], whatever the character is: the character after a
      plain [.] is not read as the specifier, so that "%.s" is an error;
    - [%_] at the end is [MissingFillCharacter];
    - a character after [%] that is neither a modifier nor a specifier is
      [UnknownSpecifier], whatever follows. *)
Theorem parser_errors_at_the_end pre :
  ~ In "%"%char pre ->
  ParseFormat (pre ++ ["%"%char]) = Some (Thrown kTrailingPercentage) /\
  (forall flags,
     flags <> [] -> Forall (fun c => flag_character c = true) flags ->
     ParseFormat (pre ++ "%"%char :: flags)
     = Some (Thrown kMissingSpecifier)) /\
  (forall c,
     ParseFormat (pre ++ ["%"%char; "."%char; c])
     = Some (Thrown kMissingSpecifier)) /\
  ParseFormat (pre ++ ["%"%char; "_"%char])
  = Some (Thrown kMissingFillCharacter) /\
  (forall c rest,
     case_of c = c_default -> isdigit c = false -> c <> "%"%char ->
     ParseFormat (pre ++ "%"%char :: c :: rest)
     = Some (Thrown kUnknownSpecifier)).
Proof.
  intros Hpre. repeat split.
  - rewrite (@ParseFormat_literal_prefix pre _ Hpre). reflexivity.
  - intros flags Hne Hf.
    rewrite (@ParseFormat_literal_prefix pre _ Hpre).
    destruct flags as [|c fl]; [congruence|].
    inversion Hf as [|? ? Hc Hfl]; subst.
    destruct (@flag_character_plain c Hc) as [Hc1 Hc2].
    rewrite (@ParseFormat_directive_Thrown c fl kMissingSpecifier Hc1 Hc2);
      [reflexivity|].
    apply (@ParseSpec_flags_only 0 (c :: fl) ["%"%char]);
      [discriminate | exact Hf | reflexivity | cbn [length]; lia].
  - intros c. rewrite (@ParseFormat_literal_prefix pre _ Hpre).
    rewrite (@ParseFormat_directive_Thrown "."%char [c] kMissingSpecifier);
      [reflexivity | reflexivity | reflexivity |].
    rewrite ParseSpec_step. unfold SpecStep.
    cbn [push_border init_PState p_text at_ nth case_of Ascii.eqb Bool.eqb
         length Nat.eqb].
    destruct (IsPositiveNumber c); [reflexivity|].
    destruct (Ascii.eqb c "*"); reflexivity.
  - rewrite (@ParseFormat_literal_prefix pre _ Hpre). reflexivity.
  - intros c rest Hcase Hd Hc.
    rewrite (@ParseFormat_literal_prefix pre _ Hpre).
    rewrite (@ParseFormat_directive_Thrown c rest kUnknownSpecifier);
      [reflexivity | | |].
    + apply Ascii.eqb_neq. exact Hc.
    + unfold IsPositiveNumber. rewrite Hd. reflexivity.
    + rewrite ParseSpec_step. unfold SpecStep.
      cbn [push_border init_PState p_text at_ nth]. rewrite Hcase, Hd.
      reflexivity.
Qed.

Lemma parser_errors_at_the_end_witness :
  let pre := s2l "x = " in
  ~ In "%"%char pre /\
  ParseFormat (pre ++ ["%"%char]) = Some (Thrown kTrailingPercentage) /\
  (forall flags,
     flags <> [] -> Forall (fun c => flag_character c = true) flags ->
     ParseFormat (pre ++ "%"%char :: flags)
     = Some (Thrown kMissingSpecifier)) /\
  (forall c,
     ParseFormat (pre ++ ["%"%char; "."%char; c])
     = Some (Thrown kMissingSpecifier)) /\
  ParseFormat (pre ++ ["%"%char; "_"%char])
  = Some (Thrown kMissingFillCharacter) /\
  (forall c rest,
     case_of c = c_default -> isdigit c = false -> c <> "%"%char ->
     ParseFormat (pre ++ "%"%char :: c :: rest)
     = Some (Thrown kUnknownSpecifier)).
Proof.
  assert (~ In "%"%char (s2l "x = ")) as H
    by (apply literal_text; reflexivity).
  exact (conj H (@parser_errors_at_the_end (s2l "x = ") H)).
Defined.

(** ** A format with one directive *)

(** The format [pre ++ "%c" ++ post], where [pre] and [post] hold no [%]
    and [c] is a specifier that leaves the [Manip] [m]. *)
Lemma ParseFormat_one_directive pre c post m :
  ~ In "%"%char pre -> ~ In "%"%char post ->
  Ascii.eqb c "%" = false -> IsPositiveNumber c = false ->
  let t := "%"%char :: c :: post in
  SpecStep (push_border 0 (init_PState t)) new_Manip 0 1
  = Last (push_border 0 (init_PState t)) m 2 ->
  ParseFormat (pre ++ t)
  = Some (Done (shift pre
                  (mkPState t [m] [0; 2] [[mkRef Defines.kArg 0]] []
                            [mkRef Defines.kArg 0]))).
Proof.
  intros Hpre Hpost Hc Hp t H.
  rewrite (@ParseFormat_literal_prefix pre t Hpre).
  unfold ParseFormat. rewrite ParseLoop_step.
  unfold t in *. rewrite (@LoopStep_directive c post Hc Hp). cbv zeta.
  rewrite ParseSpec_step, H. cbn [length]. rewrite ParseLoop_step.
  unfold LoopStep at 1.
  cbn [push_border push_format push_queue init_PState p_text find skipn].
  change (find "%" ("%"%char :: c :: post) 2)
    with (find_from "%"%char post 2).
  rewrite (@find_from_absent "%"%char post 2 Hpost).
  reflexivity.
Qed.

Lemma apply_reference_kArg arg m :
  apply_reference Defines.kArg arg m = apply_MainArg arg m.
Proof.
  rewrite apply_reference_canonical.
  unfold apply_in_canonical_order, apply_modifiers, canonical_order,
    apply_modifier.
  cbn [fold_left fst snd].
  change (has Defines.kArg Defines.kLocale) with false.
  change (has Defines.kArg Defines.kPrecision) with false.
  change (has Defines.kArg Defines.kWidth) with false.
  change (has Defines.kArg Defines.kFill) with false.
  change (has Defines.kArg Defines.kArg) with true.
  reflexivity.
Qed.

Lemma substr_all_prefix (p t : text) : substr (p ++ t) 0 (length p + 0 - 0) = p.
Proof.
  unfold substr. cbn [skipn].
  replace (length p + 0 - 0) with (length p) by lia.
  rewrite firstn_app, Nat.sub_diag, firstn_all. cbn [firstn].
  apply app_nil_r.
Qed.

Lemma assemble_one (p t : text) m e :
  assemble (p ++ t) [m] [length p + 0; length p + e] 0 []
  = (p ++ manip_text m, length p + e).
Proof.
  cbn [assemble app]. rewrite substr_all_prefix. reflexivity.
Qed.

(** [InitialOutput] on an object without a sink. *)
Lemma InitialOutput_no_sink f p :
  parse_ f = Some p -> aborted_ f = None ->
  append_ p = None -> file_ p = None -> sink_ostream_ p = None ->
  let f' := InitialOutput f in
  awaits f' 0 /\
  text_ f' = text_ f ++ (if Special.HaveBits (flags_ f) Special.kNewline
                         then ["010"%char] else []) /\
  error_ f' = kNone /\ success_ f' = set_success_value true (success_ f) /\
  abort_ f' = abort_ f /\ flags_ f' = flags_ f /\ count_ f' = count_ f /\
  appended_ f' = appended_ f.
Proof.
  intros Hp Ha H1 H2 H3. unfold InitialOutput, awaits. rewrite Hp, H1, H2, H3.
  destruct f as [ab su er co te pa fl ap abd]. cbn in Ha. subst abd.
  cbn [flags_].
  destruct (Special.HaveBits fl Special.kNewline); cbn;
    rewrite ?app_nil_r; repeat split; reflexivity.
Qed.

(** The object made from such a format awaits one argument, which is
    applied to [m] as the main argument; the text of the [Manip] then
    stands between [pre] and [post]. *)
Lemma feed_one_directive abort success flags pre c post m arg :
  ~ In "%"%char pre -> ~ In "%"%char post ->
  Ascii.eqb c "%" = false -> IsPositiveNumber c = false ->
  let t := "%"%char :: c :: post in
  SpecStep (push_border 0 (init_PState t)) new_Manip 0 1
  = Last (push_border 0 (init_PState t)) m 2 ->
  let f := Init None None None (raw_Format abort success (pre ++ t) flags) in
  awaits f 1 /\ abort_ f = abort /\
  match apply_MainArg arg m with
  | Thrown e => feed f arg = Throw e f
  | Done m' =>
      awaits (feed f arg) 0 /\
      text_ (feed f arg)
      = pre ++ manip_text m' ++ post
          ++ (if Special.HaveBits flags Special.kNewline
              then ["010"%char] else [])
  end.
Proof.
  intros Hpre Hpost Hc Hp t H f. unfold f, Init. unfold t in *.
  change (text_ (set_parse_ _ (raw_Format abort success ?x flags))) with x.
  rewrite (@ParseFormat_one_directive pre c post m Hpre Hpost Hc Hp H).
  cbn [shift p_args p_text p_format p_borders map].
  split; [|split].
  - unfold awaits, pending. cbn. auto.
  - reflexivity.
  - unfold feed.
    cbn [awaiting aborted_ set_parse_ set_text_ raw_Format parse_ simple_
         current_arg_ args_ nth format_ apply_defines nth_error manip_
         set_these_].
    rewrite apply_reference_kArg.
    destruct (apply_MainArg arg m) as [m'|e]; cbn [obind upd];
      [|reflexivity].
    cbn [next_arg set_format_ current_arg_ args_ length Nat.eqb format_
         borders_ simple_ append_ file_ sink_ostream_].
    unfold FinishInsertingArgs.
    cbn [parse_ set_parse_ awaiting set_text_ text_ format_ borders_
         next_arg set_format_].
    rewrite assemble_one. cbn [fst snd].
    rewrite skipn_app_length. cbn [skipn].
    match goal with
    | |- context [InitialOutput ?g] =>
        destruct (@InitialOutput_no_sink g _ eq_refl eq_refl eq_refl eq_refl
                    eq_refl) as (A & T & _)
    end.
    split; [exact A|]. rewrite T. cbn [text_ flags_ set_text_ set_parse_
      awaiting raw_Format]. rewrite <- !app_assoc. reflexivity.
Qed.

(** ** The specifiers [s] and [n] *)

Lemma render_one abort success flags pre c post m arg m' :
  ~ In "%"%char pre -> ~ In "%"%char post ->
  Ascii.eqb c "%" = false -> IsPositiveNumber c = false ->
  SpecStep (push_border 0 (init_PState ("%"%char :: c :: post))) new_Manip 0 1
  = Last (push_border 0 (init_PState ("%"%char :: c :: post))) m 2 ->
  apply_MainArg arg m = Done m' ->
  let f := Init None None None
             (raw_Format abort success (pre ++ "%"%char :: c :: post) flags) in
  awaits f 1 /\ awaits (feed f arg) 0 /\
  text_ (feed f arg) = pre ++ manip_text m' ++ post ++ newline_of flags.
Proof.
  intros Hpre Hpost Hc Hp H Hm f.
  destruct (@feed_one_directive abort success flags pre c post m arg
              Hpre Hpost Hc Hp H) as (A & _ & B).
  rewrite Hm in B. split; [exact A|]. exact B.
Qed.

(** X10: the format [pre ++ "%s" ++ post], where [pre] and [post] hold no
    [%], awaits one argument and renders it with the inserter of a fresh
    stream between [pre] and [post] (and the newline of the flags); a
    locale as argument fails with [LocaleMustNotBeOutput]. *)
Theorem single_s_directive abort success flags pre post arg :
  ~ In "%"%char pre -> ~ In "%"%char post ->
  let f := Init None None None
             (raw_Format abort success (pre ++ "%"%char :: "s"%char :: post)
                flags) in
  awaits f 1 /\
  match arg with
  | VLocale _ => failed_with kLocaleMustNotBeOutput f (feed f arg)
  | _ =>
      awaits (feed f arg) 0 /\
      text_ (feed f arg)
      = pre ++ os_str (put new_ostringstream arg) ++ post ++ newline_of flags
  end.
Proof.
  intros Hpre Hpost f.
  destruct (@feed_one_directive abort success flags pre "s"%char post
              new_Manip arg Hpre Hpost eq_refl eq_refl eq_refl)
    as (A & _ & B).
  split; [exact A|].
  destruct arg as [t v|s|l]; cbn in B; try exact B.
  fold f in B. rewrite B. apply Throw_failed_with. apply A.
Qed.

Lemma single_s_directive_witness :
  let pre := s2l "<" in
  let post := s2l ">" in
  ~ In "%"%char pre /\ ~ In "%"%char post /\
  let f := Init None None None
             (raw_Format false (Some true)
                (pre ++ "%"%char :: "s"%char :: post) Special.None_) in
  awaits f 1 /\
  (awaits (feed f (VStr (s2l "x"))) 0 /\
   text_ (feed f (VStr (s2l "x")))
   = pre ++ os_str (put new_ostringstream (VStr (s2l "x"))) ++ post
       ++ newline_of Special.None_).
Proof.
  assert (~ In "%"%char (s2l "<")) as H1 by (apply literal_text; reflexivity).
  assert (~ In "%"%char (s2l ">")) as H2 by (apply literal_text; reflexivity).
  split; [exact H1|]. split; [exact H2|].
  exact (@single_s_directive false (Some true) Special.None_ (s2l "<")
           (s2l ">") (VStr (s2l "x")) H1 H2).
Defined.

(** X11: the format [pre ++ "%n" ++ post] awaits one argument and renders
    nothing for it: whatever the argument is, a locale included, the result
    is [pre ++ post] (and the newline of the flags) and no error. *)
Theorem single_n_directive abort success flags pre post arg :
  ~ In "%"%char pre -> ~ In "%"%char post ->
  let f := Init None None None
             (raw_Format abort success (pre ++ "%"%char :: "n"%char :: post)
                flags) in
  awaits f 1 /\ awaits (feed f arg) 0 /\
  text_ (feed f arg) = pre ++ post ++ newline_of flags.
Proof.
  intros Hpre Hpost f.
  exact (@render_one abort success flags pre "n"%char post
           (or_ext Extensions.kIgnore new_Manip) arg
           (or_ext Extensions.kIgnore new_Manip)
           Hpre Hpost eq_refl eq_refl eq_refl eq_refl).
Qed.

Lemma single_n_directive_witness :
  let pre := s2l "<" in
  let post := s2l ">" in
  ~ In "%"%char pre /\ ~ In "%"%char post /\
  let f := Init None None None
             (raw_Format false (Some true)
                (pre ++ "%"%char :: "n"%char :: post) Special.None_) in
  awaits f 1 /\ awaits (feed f (VLocale (s2l "C"))) 0 /\
  text_ (feed f (VLocale (s2l "C"))) = pre ++ post ++ newline_of Special.None_.
Proof.
  assert (~ In "%"%char (s2l "<")) as H1 by (apply literal_text; reflexivity).
  assert (~ In "%"%char (s2l ">")) as H2 by (apply literal_text; reflexivity).
  split; [exact H1|]. split; [exact H2|].
  exact (@single_n_directive false (Some true) Special.None_ (s2l "<")
           (s2l ">") (VLocale (s2l "C")) H1 H2).
Defined.

(** ** The specifiers of the numbers *)

Lemma pad_width_0 os lead s : os_width os = 0%Z -> pad os lead s = s.
Proof.
  intros H. unfold pad. rewrite H.
  replace (Z.to_nat (0 - Z.of_nat (length s))) with 0 by lia.
  cbn [repeat app]. rewrite app_nil_r, firstn_skipn.
  destruct (_ =? _)%Z; [reflexivity|]. destruct (_ =? _)%Z; reflexivity.
Qed.

Lemma put_number os t v :
  number_type t = true -> put os (VNum t v) = put_int os t v.
Proof. destruct t; intros H; try discriminate H; reflexivity. Qed.

Lemma put_int_hex os t v :
  Z.land (os_flags os) ios_base.basefield = ios_base.hex ->
  has (os_flags os) ios_base.showbase = false -> os_width os = 0%Z ->
  os_str (put_int os t v)
  = os_str os
      ++ to_digits 16 (has (os_flags os) ios_base.uppercase)
           (unsigned_view t v).
Proof.
  intros Hb Hs Hw. unfold put_int. cbv zeta. rewrite Hb, Hs.
  change (ios_base.hex =? ios_base.oct)%Z with false.
  change (ios_base.hex =? ios_base.hex)%Z with true.
  cbn [andb width write os_str]. rewrite pad_width_0 by exact Hw.
  reflexivity.
Qed.

Lemma put_int_oct os t v :
  Z.land (os_flags os) ios_base.basefield = ios_base.oct ->
  has (os_flags os) ios_base.showbase = false -> os_width os = 0%Z ->
  os_str (put_int os t v)
  = os_str os
      ++ to_digits 8 (has (os_flags os) ios_base.uppercase)
           (unsigned_view t v).
Proof.
  intros Hb Hs Hw. unfold put_int. cbv zeta. rewrite Hb, Hs.
  change (ios_base.oct =? ios_base.oct)%Z with true.
  cbn [andb width write os_str]. rewrite pad_width_0 by exact Hw.
  reflexivity.
Qed.

Lemma put_int_dec os t v :
  Z.land (os_flags os) ios_base.basefield = ios_base.dec ->
  has (os_flags os) ios_base.showpos = false ->
  has (os_flags os) ios_base.uppercase = false -> os_width os = 0%Z ->
  os_str (put_int os t v) = os_str os ++ signed_decimal v.
Proof.
  intros Hb Hs Hu Hw. unfold put_int, signed_decimal. cbv zeta.
  rewrite Hb, Hs, Hu.
  change (ios_base.dec =? ios_base.oct)%Z with false.
  change (ios_base.dec =? ios_base.hex)%Z with false.
  destruct (v <? 0)%Z; cbn [andb width write os_str];
    rewrite pad_width_0 by exact Hw; reflexivity.
Qed.

(** A number as the argument of a format with one directive whose [Manip]
    awaits nothing else. *)
Lemma render_number abort success flags pre c post m t v :
  ~ In "%"%char pre -> ~ In "%"%char post ->
  Ascii.eqb c "%" = false -> IsPositiveNumber c = false ->
  SpecStep (push_border 0 (init_PState ("%"%char :: c :: post))) new_Manip 0 1
  = Last (push_border 0 (init_PState ("%"%char :: c :: post))) m 2 ->
  need_ m = Defines.kNone ->
  has (extensions_ m) Extensions.kIgnore = false ->
  has (extensions_ m) Extensions.kPlusSpace = false ->
  has (extensions_ m) Extensions.kStringNpos = false \/
    ~ (t = TULong /\ v = npos) ->
  number_type t = true ->
  text_ (feed (Init None None None
                 (raw_Format abort success (pre ++ "%"%char :: c :: post)
                    flags)) (VNum t v))
  = pre ++ os_str (put_int (ostream_ m) t v) ++ post ++ newline_of flags.
Proof.
  intros Hpre Hpost Hc Hp H Hn Hi Hps Hnp Ht.
  assert (apply_MainArg (VNum t v) m
          = Done (mkManip (put_int (ostream_ m) t v) (extensions_ m)
                          (need_ m))) as Hm.
  { unfold apply_MainArg. rewrite Hn, Hi. cbn [negb Z.eqb Defines.kNone].
    assert (StringStandard (ostream_ m) (VNum t v)
            = Done (put_int (ostream_ m) t v)) as Es
      by (unfold StringStandard; rewrite put_number by exact Ht; reflexivity).
    destruct (has (extensions_ m) Extensions.kStringNpos) eqn:E.
    - destruct Hnp as [Hnp|Hnp]; [discriminate Hnp|].
      assert (StringNpos (ostream_ m) (VNum t v)
              = Done (put_int (ostream_ m) t v)) as En.
      { unfold StringNpos. destruct t; try discriminate Ht;
          try (rewrite put_number by reflexivity; reflexivity).
        destruct (Z.eqb_spec v npos) as [->|Hne].
        - exfalso. apply Hnp. split; reflexivity.
        - reflexivity. }
      rewrite En. reflexivity.
    - rewrite Es. reflexivity. }
  destruct (@render_one abort success flags pre c post m (VNum t v) _
              Hpre Hpost Hc Hp H Hm) as (_ & _ & T).
  rewrite T. unfold manip_text. cbn [extensions_ ostream_].
  rewrite Hi, Hps. reflexivity.
Qed.

(** X12: a number as the argument of a format with one directive and no
    modifier.  [%x], [%X] and [%o] show the value as an unsigned number of
    its type in base 16 (small or capital letters) and 8, [%s] shows the
    decimal number with its sign, and so does [%d] unless the argument is
    [std::string::npos]. *)
Theorem number_specifiers abort success flags pre post t v :
  ~ In "%"%char pre -> ~ In "%"%char post -> number_type t = true ->
  let render c :=
    text_ (feed (Init None None None
                   (raw_Format abort success (pre ++ "%"%char :: c :: post)
                      flags)) (VNum t v)) in
  render "x"%char
  = pre ++ to_digits 16 false (unsigned_view t v) ++ post ++ newline_of flags /\
  render "X"%char
  = pre ++ to_digits 16 true (unsigned_view t v) ++ post ++ newline_of flags /\
  render "o"%char
  = pre ++ to_digits 8 false (unsigned_view t v) ++ post ++ newline_of flags /\
  render "s"%char = pre ++ signed_decimal v ++ post ++ newline_of flags /\
  (~ (t = TULong /\ v = npos) ->
   render "d"%char = pre ++ signed_decimal v ++ post ++ newline_of flags).
Proof.
  intros Hpre Hpost Ht render. unfold render.
  split; [|split; [|split; [|split]]].
  - rewrite (@render_number abort success flags pre "x"%char post
               (on_os (setf_mask ios_base.hex ios_base.basefield) new_Manip)
               t v Hpre Hpost eq_refl eq_refl eq_refl eq_refl eq_refl eq_refl
               (or_introl eq_refl) Ht).
    rewrite put_int_hex by reflexivity. reflexivity.
  - rewrite (@render_number abort success flags pre "X"%char post
               (on_os (setf_mask (Z.lor ios_base.hex ios_base.uppercase)
                         (Z.lor ios_base.basefield ios_base.uppercase))
                  new_Manip)
               t v Hpre Hpost eq_refl eq_refl eq_refl eq_refl eq_refl eq_refl
               (or_introl eq_refl) Ht).
    rewrite put_int_hex by reflexivity. reflexivity.
  - rewrite (@render_number abort success flags pre "o"%char post
               (on_os (setf_mask ios_base.oct ios_base.basefield) new_Manip)
               t v Hpre Hpost eq_refl eq_refl eq_refl eq_refl eq_refl eq_refl
               (or_introl eq_refl) Ht).
    rewrite put_int_oct by reflexivity. reflexivity.
  - rewrite (@render_number abort success flags pre "s"%char post new_Manip
               t v Hpre Hpost eq_refl eq_refl eq_refl eq_refl eq_refl eq_refl
               (or_introl eq_refl) Ht).
    rewrite put_int_dec by reflexivity. reflexivity.
  - intros Hnp.
    rewrite (@render_number abort success flags pre "d"%char post
               (or_ext Extensions.kStringNpos
                  (on_os (setf ios_base.boolalpha) new_Manip))
               t v Hpre Hpost eq_refl eq_refl eq_refl eq_refl eq_refl eq_refl
               (or_intror Hnp) Ht).
    rewrite put_int_dec by reflexivity. reflexivity.
Qed.

Lemma number_specifiers_witness :
  let pre := s2l "0x" in
  let post := s2l ";" in
  let render c :=
    text_ (feed (Init None None None
                   (raw_Format false (Some true)
                      (pre ++ "%"%char :: c :: post) Special.None_))
             (VNum TInt (-1))) in
  (~ In "%"%char pre /\ ~ In "%"%char post /\ number_type TInt = true) /\
  render "x"%char
  = pre ++ to_digits 16 false (unsigned_view TInt (-1)) ++ post
      ++ newline_of Special.None_ /\
  render "x"%char = s2l "0xffffffff;" /\
  render "d"%char = s2l "0x-1;".
Proof.
  assert (~ In "%"%char (s2l "0x")) as H1 by (apply literal_text; reflexivity).
  assert (~ In "%"%char (s2l ";")) as H2 by (apply literal_text; reflexivity).
  split; [auto|]. split.
  - exact (proj1 (@number_specifiers false (Some true) Special.None_
                    (s2l "0x") (s2l ";") TInt (-1)%Z H1 H2 eq_refl)).
  - split; vm_compute; reflexivity.
Defined.

(** ** [std::string::npos] *)

(** X13: the argument [std::string::npos], a [size_type], is shown as the
    words "std::string::npos" by the specifiers [d], [D] and [S]; the
    specifier [s] shows its digits. *)
Theorem npos_is_shown_by_name abort success flags pre post :
  ~ In "%"%char pre -> ~ In "%"%char post ->
  let render c :=
    text_ (feed (Init None None None
                   (raw_Format abort success (pre ++ "%"%char :: c :: post)
                      flags)) (VNum TULong npos)) in
  render "d"%char
  = pre ++ s2l "std::string::npos" ++ post ++ newline_of flags /\
  render "D"%char
  = pre ++ s2l "std::string::npos" ++ post ++ newline_of flags /\
  render "S"%char
  = pre ++ s2l "std::string::npos" ++ post ++ newline_of flags /\
  render "s"%char
  = pre ++ s2l "18446744073709551615" ++ post ++ newline_of flags.
Proof.
  intros Hpre Hpost render. unfold render.
  split; [|split; [|split]].
  - destruct (@feed_one_directive abort success flags pre "d"%char post
                (or_ext Extensions.kStringNpos
                   (on_os (setf ios_base.boolalpha) new_Manip))
                (VNum TULong npos) Hpre Hpost eq_refl eq_refl eq_refl)
      as (_ & _ & B).
    set (r := apply_MainArg _ _) in B. vm_compute in r. subst r.
    destruct B as [_ B]. rewrite B. reflexivity.
  - destruct (@feed_one_directive abort success flags pre "D"%char post
                (or_ext Extensions.kStringNpos
                   (on_os (setf (Z.lor ios_base.boolalpha ios_base.uppercase))
                      new_Manip))
                (VNum TULong npos) Hpre Hpost eq_refl eq_refl eq_refl)
      as (_ & _ & B).
    set (r := apply_MainArg _ _) in B. vm_compute in r. subst r.
    destruct B as [_ B]. rewrite B. reflexivity.
  - destruct (@feed_one_directive abort success flags pre "S"%char post
                (or_ext Extensions.kStringNpos
                   (on_os (setf (Z.lor ios_base.boolalpha ios_base.showpoint))
                      new_Manip))
                (VNum TULong npos) Hpre Hpost eq_refl eq_refl eq_refl)
      as (_ & _ & B).
    set (r := apply_MainArg _ _) in B. vm_compute in r. subst r.
    destruct B as [_ B]. rewrite B. reflexivity.
  - destruct (@feed_one_directive abort success flags pre "s"%char post
                new_Manip (VNum TULong npos) Hpre Hpost eq_refl eq_refl
                eq_refl) as (_ & _ & B).
    set (r := apply_MainArg _ _) in B. vm_compute in r. subst r.
    destruct B as [_ B]. rewrite B. reflexivity.
Qed.

Lemma npos_is_shown_by_name_witness :
  let pre := s2l "at " in
  let post := s2l "." in
  (~ In "%"%char pre /\ ~ In "%"%char post) /\
  text_ (feed (Init None None None
                 (raw_Format false (Some true)
                    (pre ++ "%"%char :: "d"%char :: post) Special.None_))
           (VNum TULong npos))
  = pre ++ s2l "std::string::npos" ++ post ++ newline_of Special.None_.
Proof.
  assert (~ In "%"%char (s2l "at ")) as H1 by (apply literal_text; reflexivity).
  assert (~ In "%"%char (s2l ".")) as H2 by (apply literal_text; reflexivity).
  split; [auto|].
  exact (proj1 (@npos_is_shown_by_name false (Some true) Special.None_
                  (s2l "at ") (s2l ".") H1 H2)).
Defined.


(** ** The format given as a [bool] *)

Lemma same_observables_refl f : same_observables f f.
Proof. unfold same_observables. intuition. Qed.






(** ** The newline flag *)

Lemma Throw_newline e f1 f2 :
  e <> kNone -> newline_added f1 f2 ->
  newline_added (Throw e f1) (Throw e f2).
Proof.
  intros He (H1 & H2 & H3 & H4 & H5 & H6 & H7).
  destruct f1 as [ab su er co te pa fl ap abd].
  destruct f2 as [ab' su' er' co' te' pa' fl' ap' abd'].
  cbn in H1, H2, H3, H4, H5, H6, H7. subst.
  unfold Throw, newline_added. cbn [aborted_ abort_].
  destruct abd' as [x|].
  - cbn. repeat split; assumption.
  - destruct ab'; cbn; repeat split; try assumption.
    intros E. congruence.
Qed.

Lemma InitialOutput_newline f1 f2 :
  newline_added f1 f2 -> parse_ f1 <> None -> aborted_ f1 = None ->
  newline_added (InitialOutput f1) (InitialOutput f2).
Proof.
  intros (H1 & H2 & H3 & H4 & H5 & H6 & H7) Hp Ha.
  destruct (parse_ f1) as [p1|] eqn:E1; [|congruence].
  destruct (parse_ f2) as [p2|] eqn:E2; [|contradiction].
  destruct H7 as (-> & T & S1 & S2 & S3).
  assert (aborted_ f2 = None) as Ha' by congruence.
  destruct (@InitialOutput_no_sink f1 p2 E1 Ha S1 S2 S3)
    as ((_ & P1) & T1 & Er1 & Su1 & Ab1 & Fl1 & _).
  destruct (@InitialOutput_no_sink f2 p2 E2 Ha' S1 S2 S3)
    as ((_ & P2) & T2 & Er2 & Su2 & Ab2 & Fl2 & _).
  assert (aborted_ (InitialOutput f1) = None /\
          aborted_ (InitialOutput f2) = None) as [A1 A2].
  { destruct (@InitialOutput_no_sink f1 p2 E1 Ha S1 S2 S3) as ((A & _) & _).
    destruct (@InitialOutput_no_sink f2 p2 E2 Ha' S1 S2 S3) as ((B & _) & _).
    split; assumption. }
  destruct (parse_ (InitialOutput f1)) eqn:Q1; [destruct P1; lia|].
  destruct (parse_ (InitialOutput f2)) eqn:Q2; [destruct P2; lia|].
  unfold newline_added. rewrite Q1, Q2, Er1, Er2, Su1, Su2, Ab1, Ab2, Fl1,
    Fl2, A1, A2, T1, T2, H5, H6, T, app_nil_r.
  repeat split; congruence.
Qed.

Lemma feed_newline f1 f2 arg :
  newline_added f1 f2 -> newline_added (feed f1 arg) (feed f2 arg).
Proof.
  intros H. pose proof H as (H1 & H2 & H3 & H4 & H5 & H6 & H7).
  unfold feed. rewrite <- H4.
  destruct (aborted_ f1) eqn:Ha; [exact H|].
  destruct (parse_ f1) as [p1|] eqn:E1; destruct (parse_ f2) as [p2|] eqn:E2;
    try contradiction.
  - destruct H7 as (-> & T & S1 & S2 & S3).
    destruct (simple_ p2).
    + destruct (StringStandard new_ostringstream arg) as [os|e] eqn:Es.
      * apply InitialOutput_newline; [|cbn; congruence|exact Ha].
        newline_added_fields.
      * apply Throw_newline; [|exact H].
        destruct arg; cbn in Es; congruence.
    + destruct (apply_defines _ arg (format_ p2)) as [format|e] eqn:Ed.
      * cbn [next_arg set_format_ current_arg_ args_].
        destruct (_ =? _).
        -- unfold FinishInsertingArgs. cbn [parse_ set_parse_ text_].
           rewrite T.
           apply InitialOutput_newline; [|cbn; congruence|exact Ha].
           newline_added_fields.
        -- newline_added_fields.
      * apply Throw_newline; [|exact H].
        eapply apply_defines_error. exact Ed.
  - rewrite <- H3. destruct (Code_eqb (error_ f1) kNone); [|exact H].
    apply Throw_newline; [discriminate|exact H].
Qed.

Lemma feed_all_newline args : forall f1 f2,
  newline_added f1 f2 ->
  newline_added (feed_all f1 args) (feed_all f2 args).
Proof.
  induction args as [|a args IH]; intros f1 f2 H; [exact H|].
  cbn [feed_all fold_left]. apply IH. apply feed_newline. exact H.
Qed.

Lemma HaveBits_SetBits_kNewline flags :
  Special.HaveBits (Special.SetBits flags Special.kNewline) Special.kNewline
  = true.
Proof.
  unfold Special.HaveBits, Special.SetBits. cbn [Special.flags_].
  rewrite Z.land_lor_distr_l.
  change (Z.land Special.kNewline Special.kNewline) with 2%Z.
  destruct (Z.eqb_spec (Z.lor (Z.land (Special.flags_ flags)
                                  Special.kNewline) 2) Special.kNone)
    as [E|E]; [|reflexivity].
  exfalso. apply Z.lor_eq_0_iff in E. destruct E as [_ E]. discriminate E.
Qed.

Lemma Init_newline abort success flags t :
  Special.HaveBits flags Special.kNewline = false ->
  newline_added
    (Init None None None
       (raw_Format abort success t (Special.SetBits flags Special.kNewline)))
    (Init None None None (raw_Format abort success t flags)).
Proof.
  intros Hf. pose proof (HaveBits_SetBits_kNewline flags) as Hs.
  unfold Init.
  change (text_ (set_parse_ _ (raw_Format abort success t ?x))) with t.
  destruct (ParseFormat t) as [[st|e]|] eqn:E.
  - destruct (p_args st) eqn:Ea.
    + apply InitialOutput_newline; [|cbn; congruence|reflexivity].
      newline_added_fields.
    + newline_added_fields.
  - apply Throw_newline.
    + eapply syntax_error_codes. eapply ParseFormat_Thrown. exact E.
    + newline_added_fields.
  - newline_added_fields.
Qed.

(** X15: the newline flag adds one newline to the completed text and
    changes nothing else.  Of two objects without a sink, made from the
    same format with and without the flag and fed the same arguments, the
    first has the error, the success flag and the state of the second, and
    when it is complete its text is the text of the second followed by a
    newline. *)
Theorem newline_flag_appends_a_newline abort success flags t args :
  Special.HaveBits flags Special.kNewline = false ->
  let f1 := feed_all
              (Init None None None
                 (raw_Format abort success t
                    (Special.SetBits flags Special.kNewline))) args in
  let f2 := feed_all (Init None None None (raw_Format abort success t flags))
              args in
  error_ f1 = error_ f2 /\ success_ f1 = success_ f2 /\
  aborted_ f1 = aborted_ f2 /\ (parse_ f1 = None <-> parse_ f2 = None) /\
  (awaits f1 0 -> awaits f2 0 /\ text_ f1 = text_ f2 ++ ["010"%char]).
Proof.
  intros Hf f1 f2.
  assert (newline_added f1 f2) as H
    by (apply feed_all_newline; apply Init_newline; exact Hf).
  destruct H as (H1 & H2 & H3 & H4 & H5 & H6 & H7).
  repeat split; try assumption.
  - destruct (parse_ f1), (parse_ f2); intros; congruence || contradiction.
  - destruct (parse_ f1), (parse_ f2); intros; congruence || contradiction.
  - destruct H as [A _]. congruence.
  - destruct H as [_ A]. destruct (parse_ f1), (parse_ f2);
      try contradiction; destruct A; try lia; split; congruence.
  - destruct H as [_ A]. destruct (parse_ f1), (parse_ f2);
      try contradiction; destruct A as [A B]; try lia. apply H7. exact B.
Qed.

Lemma newline_flag_appends_a_newline_witness :
  let flags := Special.None_ in
  let t := s2l "%s!" in
  let args := [VStr (s2l "done")] in
  Special.HaveBits flags Special.kNewline = false /\
  let f1 := feed_all
              (Init None None None
                 (raw_Format false (Some true) t
                    (Special.SetBits flags Special.kNewline))) args in
  let f2 := feed_all (Init None None None
                        (raw_Format false (Some true) t flags)) args in
  (error_ f1 = error_ f2 /\ success_ f1 = success_ f2 /\
   aborted_ f1 = aborted_ f2 /\ (parse_ f1 = None <-> parse_ f2 = None) /\
   (awaits f1 0 -> awaits f2 0 /\ text_ f1 = text_ f2 ++ ["010"%char])) /\
  awaits f1 0 /\ text_ f1 = s2l "done!" ++ ["010"%char].
Proof.
  split; [reflexivity|]. split.
  - exact (@newline_flag_appends_a_newline false (Some true) Special.None_
             (s2l "%s!") [VStr (s2l "done")] eq_refl).
  - vm_compute. auto.
Defined.

(** ** The states of an object *)

Lemma Throw_settled e f :
  aborted_ (Throw e f) <> None \/ parse_ (Throw e f) = None.
Proof.
  unfold Throw. destruct (aborted_ f) eqn:E.
  - left. congruence.
  - destruct (abort_ f); cbn; [left; discriminate | right; reflexivity].
Qed.

Lemma InitialOutput_settled f :
  parse_ f <> None ->
  aborted_ (InitialOutput f) <> None \/ parse_ (InitialOutput f) = None.
Proof.
  intros Hp. unfold InitialOutput. destruct (parse_ f) as [p|]; [|congruence].
  match goal with
  | |- context [match aborted_ ?g with _ => _ end] =>
      destruct (aborted_ g) eqn:E
  end.
  - left. congruence.
  - right. reflexivity.
Qed.

Lemma set_success_value_twice b c s :
  set_success_value b (set_success_value c s) = set_success_value b s.
Proof. destruct s; reflexivity. Qed.

(** While arguments are outstanding the error is [kTooFewArguments] and
    the success flag is false. *)
Lemma reachable_in_progress f :
  reachable f -> parse_ f <> None -> aborted_ f = None ->
  error_ f = kTooFewArguments /\
  success_ f = set_success_value false (success_ f).
Proof.
  induction 1 as [append file os abort success t flags
                 |append file os format abort success flags
                 |f arg Hr IH]; intros Hp Ha.
  - unfold Init in *.
    change (text_ (set_parse_ _ (raw_Format abort success t flags))) with t
      in *.
    destruct (ParseFormat t) as [[st|e]|] eqn:E.
    + destruct (p_args st).
      * destruct (@InitialOutput_settled
                    (set_parse_
                       (Some (mkParse (p_format st) (p_borders st) []
                                0 false append file os))
                       (set_text_ (p_text st)
                          (set_parse_ (Some (new_Parse false append file os))
                             (raw_Format abort success t flags)))))
          as [A|A]; [discriminate| |]; contradiction.
      * cbn. rewrite set_success_value_twice. auto.
    + match type of Hp with
      | parse_ (Throw e ?g) <> None =>
          destruct (Throw_settled e g) as [A|A]; contradiction
      end.
    + exfalso. revert E. apply ParseFormat_total.
  - unfold Init_simple in *. destruct format; cbn [negb] in *.
    + cbn. rewrite set_success_value_twice. auto.
    + destruct (@InitialOutput_settled
                  (set_parse_ (Some (new_Parse true append file os))
                     (raw_Format abort success [] flags)))
        as [A|A]; [discriminate| |]; contradiction.
  - unfold feed in *. destruct (aborted_ f) eqn:Ea; [congruence|].
    destruct (parse_ f) as [p|] eqn:Ep.
    + specialize (IH ltac:(discriminate) eq_refl).
      destruct (simple_ p).
      * destruct (StringStandard new_ostringstream arg) as [os|e].
        -- destruct (@InitialOutput_settled (set_text_ (os_str os) f))
             as [A|A]; [cbn; congruence| |]; contradiction.
        -- destruct (Throw_settled e f) as [A|A]; contradiction.
      * destruct (apply_defines _ arg (format_ p)) as [format|e].
        -- cbn [next_arg set_format_ current_arg_ args_] in *.
           destruct (_ =? _).
           ++ unfold FinishInsertingArgs in *. cbn [parse_ set_parse_] in *.
              match type of Hp with
              | parse_ (InitialOutput ?g) <> None =>
                  destruct (@InitialOutput_settled g) as [A|A];
                    [cbn; congruence| |]; contradiction
              end.
           ++ cbn. exact IH.
        -- destruct (Throw_settled e f) as [A|A]; contradiction.
    + destruct (Code_eqb (error_ f) kNone); [|congruence].
      destruct (Throw_settled kTooManyArguments f) as [A|A]; contradiction.
Qed.

Lemma Init_simple_awaits append file os format abort success flags :
  let f := Init_simple append file os format
             (raw_Format abort success [] flags) in
  (exists n, awaits f n) \/ has_failed f.
Proof.
  intros f. unfold f, Init_simple. destruct format; cbn [negb].
  - left. exists 1. unfold awaits, pending. cbn. auto.
  - destruct (@InitialOutput_result
                (set_parse_ (Some (new_Parse true append file os))
                   (raw_Format abort success [] flags)))
      as [A|A]; [reflexivity | discriminate | left; exists 0; exact A
                | right; exact A].
Qed.

Lemma reachable_awaits_or_failed f :
  reachable f -> (exists n, awaits f n) \/ has_failed f.
Proof.
  induction 1 as [append file os abort success t flags
                 |append file os format abort success flags
                 |f arg Hr IH].
  - apply Init_awaits.
  - apply Init_simple_awaits.
  - destruct IH as [[n A]|F].
    + destruct n as [|n].
      * right. destruct A as (Ha & A).
        destruct (parse_ f) eqn:Ep; [destruct A; lia|]. destruct A as [_ Ee].
        unfold feed. rewrite Ha, Ep, Ee. cbn [Code_eqb].
        apply Throw_has_failed. discriminate.
      * destruct (@feed_awaits f n arg A) as [B|B];
          [left; exists n; exact B | right; exact B].
    + right. rewrite (@has_failed_feed f arg F). exact F.
Qed.

(** X16: every object that a constructor and [operator%] lead to is in one
    of three states: it awaits further arguments, it is complete, or an
    operation on it has failed.  While it awaits arguments [error()] is
    [kTooFewArguments] and the success flag is false. *)
Theorem reachable_object_states f :
  reachable f ->
  ((exists n, awaits f n) \/ has_failed f) /\
  (forall n, awaits f (S n) ->
             error_ f = kTooFewArguments /\
             success_ f = set_success_value false (success_ f)).
Proof.
  intros Hr. split.
  - apply reachable_awaits_or_failed. exact Hr.
  - intros n (Ha & A). apply reachable_in_progress; [exact Hr| |exact Ha].
    destruct (parse_ f); [discriminate|]. destruct A; lia.
Qed.

Lemma reachable_object_states_witness :
  let f := feed (Init None None None
                   (raw_Format false (Some true) (s2l "%s-%s") Special.None_))
             (VNum TInt 1) in
  reachable f /\
  (((exists n, awaits f n) \/ has_failed f) /\
   (forall n, awaits f (S n) ->
              error_ f = kTooFewArguments /\
              success_ f = set_success_value false (success_ f))) /\
  awaits f 1.
Proof.
  assert (reachable
            (feed (Init None None None
                     (raw_Format false (Some true) (s2l "%s-%s")
                        Special.None_)) (VNum TInt 1))) as Hr
    by (apply reach_feed; apply reach_Init).
  split; [exact Hr|]. split.
  - exact (@reachable_object_states _ Hr).
  - vm_compute. auto.
Defined.

(** X17: an object on which an operation has failed takes no further
    argument and is read as it is: [operator%] leaves it unchanged, and so
    do the check and [str()], which returns the text that the object
    held when the operation failed. *)
Theorem failed_object_ignores_arguments f args :
  has_failed f ->
  feed_all f args = f /\ Check f = f /\ str f = (f, text_ f) /\
  has_failed (feed_all f args).
Proof.
  intros H. rewrite (@has_failed_feed_all args f H).
  assert (Check f = f) as E.
  { unfold Check. destruct (aborted_ f) eqn:Ea; [reflexivity|].
    destruct H as [H|[H _]]; [congruence|]. rewrite H. reflexivity. }
  repeat split; try assumption. unfold str. rewrite E. reflexivity.
Qed.

Lemma failed_object_ignores_arguments_witness :
  let f := Init None None None
             (raw_Format false (Some true) (s2l "50%") Special.None_) in
  let args := [VNum TInt 1; VStr (s2l "x")] in
  has_failed f /\
  (feed_all f args = f /\ Check f = f /\ str f = (f, text_ f) /\
   has_failed (feed_all f args)) /\
  error_ f = kTrailingPercentage.
Proof.
  assert (has_failed
            (Init None None None
               (raw_Format false (Some true) (s2l "50%") Special.None_)))
    as H by (right; vm_compute; split; [reflexivity|discriminate]).
  split; [exact H|]. split.
  - exact (@failed_object_ignores_arguments _ [VNum TInt 1; VStr (s2l "x")] H).
  - vm_compute. reflexivity.
Defined.

(** X18: the count of the arguments is checked.  The object made from a
    format whose table has [n > 0] entries awaits [n] arguments.  Fed fewer
    of them, none of which failed, it fails with [TooFewArguments] when it
    is read by the check, [str], [size] or [empty]; fed all [n] it is
    complete, and one more argument fails with [TooManyArguments]. *)
Theorem argument_count_is_checked append file os abort success t flags st
    args :
  ParseFormat t = Some (Done st) -> p_args st <> [] ->
  let f := Init append file os (raw_Format abort success t flags) in
  let n := length (p_args st) in
  awaits f n /\
  (~ has_failed (feed_all f args) ->
   (length args < n ->
      let f' := feed_all f args in
      failed_with kTooFewArguments f' (Check f') /\
      failed_with kTooFewArguments f' (fst (str f')) /\
      failed_with kTooFewArguments f' (fst (size f')) /\
      failed_with kTooFewArguments f' (fst (empty f'))) /\
   (length args = n ->
      forall arg,
        let f' := feed_all f args in
        parse_ f' = None /\ error_ f' = kNone /\
        failed_with kTooManyArguments f' (feed f' arg))).
Proof.
  intros Hp Hargs f n.
  assert (awaits f n) as A.
  { unfold f, n, Init.
    change (text_ (set_parse_ _ (raw_Format abort success t flags))) with t.
    rewrite Hp. destruct (p_args st) as [|d ds] eqn:E; [congruence|].
    unfold awaits, pending. cbn. repeat split; lia. }
  split; [exact A|]. intros F.
  exact (@too_few_and_too_many_arguments f n args A F).
Qed.

Lemma argument_count_is_checked_witness :
  let t := s2l "%s and %s" in
  let args := [VStr (s2l "this")] in
  exists st,
    ParseFormat t = Some (Done st) /\ p_args st <> [] /\
    length (p_args st) = 2 /\
    let f := Init None None None
               (raw_Format false (Some true) t Special.None_) in
    let n := length (p_args st) in
    awaits f n /\
    (~ has_failed (feed_all f args) ->
     (length args < n ->
        let f' := feed_all f args in
        failed_with kTooFewArguments f' (Check f') /\
        failed_with kTooFewArguments f' (fst (str f')) /\
        failed_with kTooFewArguments f' (fst (size f')) /\
        failed_with kTooFewArguments f' (fst (empty f'))) /\
     (length args = n ->
        forall arg,
          let f' := feed_all f args in
          parse_ f' = None /\ error_ f' = kNone /\
          failed_with kTooManyArguments f' (feed f' arg))).
Proof.
  eexists. split; [vm_compute; reflexivity|].
  split; [discriminate|]. split; [reflexivity|].
  apply (@argument_count_is_checked None None None false (Some true)
           (s2l "%s and %s") Special.None_ _ [VStr (s2l "this")]).
  - vm_compute. reflexivity.
  - discriminate.
Defined.

(** ** Copies *)

(** X19: a copy does not get [parse_].  The copy of an object that still
    awaits arguments is therefore an object that takes no argument and
    that is read without a failure: it holds the error [kTooFewArguments]
    and the text of the format as it was parsed, and neither [operator%]
    nor the check changes it.  The copy of a complete object is complete
    with the same text, and an argument fails on it with
    [TooManyArguments]. *)
Theorem copy_drops_the_outstanding_arguments f :
  reachable f ->
  (forall n, awaits f (S n) ->
     let c := Format_copy f in
     error_ c = kTooFewArguments /\ text_ c = text_ f /\ has_failed c /\
     (forall args, feed_all c args = c) /\ str c = (c, text_ f)) /\
  (awaits f 0 ->
     let c := Format_copy f in
     awaits c 0 /\ text_ c = text_ f /\ str c = (c, text_ f) /\
     forall arg, failed_with kTooManyArguments c (feed c arg)).
Proof.
  intros Hr. split.
  - intros n (Ha & A) c.
    assert (parse_ f <> None) as Hp
      by (destruct (parse_ f); [discriminate|destruct A; lia]).
    destruct (reachable_in_progress Hr Hp Ha) as [He _].
    assert (has_failed c) as F.
    { right. unfold c. cbn. rewrite He. split; [reflexivity|discriminate]. }
    assert (Check c = c) as Ec by (unfold c, Check; cbn; rewrite Ha; reflexivity).
    repeat split.
    + exact He.
    + exact F.
    + intros args. apply has_failed_feed_all. exact F.
    + unfold str. rewrite Ec. reflexivity.
  - intros (Ha & A) c.
    destruct (parse_ f) eqn:Ep; [destruct A; lia|]. destruct A as [_ Ee].
    assert (awaits c 0) as Ac by (unfold c, awaits; cbn; auto).
    assert (Check c = c) as Ec by (unfold c, Check; cbn; rewrite Ha; reflexivity).
    repeat split; try apply Ac.
    + unfold str. rewrite Ec. reflexivity.
    + intros arg. apply feed_complete; [exact Ha | reflexivity | exact Ee].
Qed.

Lemma copy_drops_the_outstanding_arguments_witness :
  let f := Init None None None
             (raw_Format true None (s2l "%s items") Special.None_) in
  let c := Format_copy f in
  reachable f /\ awaits f 1 /\
  (error_ c = kTooFewArguments /\ text_ c = text_ f /\ has_failed c /\
   (forall args, feed_all c args = c) /\ str c = (c, text_ f)) /\
  snd (str (feed c (VNum TInt 3))) = s2l "%s items".
Proof.
  assert (reachable
            (Init None None None
               (raw_Format true None (s2l "%s items") Special.None_))) as Hr
    by apply reach_Init.
  assert (awaits
            (Init None None None
               (raw_Format true None (s2l "%s items") Special.None_)) 1) as A
    by (vm_compute; auto).
  split; [exact Hr|]. split; [exact A|]. split.
  - exact (proj1 (@copy_drops_the_outstanding_arguments _ Hr) 0 A).
  - vm_compute. reflexivity.
Defined.

(** ** Reading and output *)

(** X20: the check is idempotent: a second read finds the object as the
    first one left it and returns the same text, and the check never
    changes the text. *)
Theorem Check_is_idempotent f :
  Check (Check f) = Check f /\
  snd (str (fst (str f))) = snd (str f) /\
  fst (str (fst (str f))) = fst (str f) /\
  text_ (Check f) = text_ f.
Proof.
  assert (Check (Check f) = Check f) as E.
  { unfold Check. destruct (aborted_ f) eqn:Ea; [rewrite Ea; reflexivity|].
    destruct (parse_ f) eqn:Ep; [|rewrite Ea, Ep; reflexivity].
    destruct (Throw_settled kTooFewArguments f) as [A|A].
    - destruct (aborted_ (Throw kTooFewArguments f)); [reflexivity|congruence].
    - destruct (aborted_ (Throw kTooFewArguments f)); [reflexivity|].
      rewrite A. reflexivity. }
  assert (text_ (Check f) = text_ f) as T.
  { unfold Check, Throw. destruct (aborted_ f); [reflexivity|].
    destruct (parse_ f); [|reflexivity]. destruct (abort_ f); reflexivity. }
  unfold str. cbn [fst snd]. rewrite E. auto.
Qed.

(** X21: under the policy that reports errors, [Output] to a string never
    ends with an error: whatever state the object is in, in progress and
    failed included, the text is appended to the string, [error()] is
    [kNone] afterwards and the success flag is true. *)
Theorem Output_to_string_clears_the_error f target :
  aborted_ f = None -> abort_ f = false ->
  let f' := Output_string target f in
  error_ f' = kNone /\ success_ f' = set_success_value true (success_ f) /\
  appended_ f' = Some (target ++ text_ f) /\ text_ f' = text_ f /\
  parse_ f' = None.
Proof.
  intros Ha Hb f'. unfold f', Output_string, Check. rewrite Ha.
  destruct (parse_ f) eqn:Ep.
  - unfold Throw. rewrite Ha, Hb. cbn. rewrite set_success_value_twice. auto.
  - rewrite Ha. cbn. auto.
Qed.

Lemma Output_to_string_clears_the_error_witness :
  let f := Init None None None
             (raw_Format false (Some true) (s2l "%k") Special.None_) in
  (aborted_ f = None /\ abort_ f = false /\
   error_ f = kUnknownSpecifier) /\
  let f' := Output_string (s2l "> ") f in
  error_ f' = kNone /\ success_ f' = set_success_value true (success_ f) /\
  appended_ f' = Some (s2l "> " ++ text_ f) /\ text_ f' = text_ f /\
  parse_ f' = None.
Proof.
  split; [vm_compute; auto|].
  exact (@Output_to_string_clears_the_error
           (Init None None None
              (raw_Format false (Some true) (s2l "%k") Special.None_))
           (s2l "> ") eq_refl eq_refl).
Defined.

(** X22: what [Output] to a [FILE] ends with under the policy that reports
    errors.  An empty text is neither written nor flushed and is a success.
    Otherwise the member [count_] is what [fwrite] has taken; the output
    fails with [WriteFailed] when that is less than the text, with
    [FlushFailed] when the flush flag is set and [fflush] fails, and is a
    success otherwise.  The success flag is true exactly when [error()] is
    [kNone], and the text is as it was.  The accessor [count()] is declared
    [bool]: it does not return the number of the characters written but
    only whether any was written. *)
Theorem Output_to_file_result f file :
  aborted_ f = None -> abort_ f = false ->
  let f' := Output_file file f in
  let written := Nat.min (length (text_ f)) (fwrite_accepts file) in
  text_ f' = text_ f /\ aborted_ f' = None /\ count_ f' <= length (text_ f) /\
  count_ f' = match text_ f with [] => 0 | _ => written end /\
  count f' = match text_ f with [] => false | _ => negb (written =? 0) end /\
  error_ f'
  = match text_ f with
    | [] => kNone
    | _ => if written <? length (text_ f) then kWriteFailed
           else if flush f && fflush_fails file then kFlushFailed
           else kNone
    end /\
  success_ f' = set_success_value (Code_eqb (error_ f') kNone) (success_ f).
Proof.
  intros Ha Hb f' written.
  assert (exists g, Check f = g /\ aborted_ g = None /\ abort_ g = false /\
                    text_ g = text_ f /\ flags_ g = flags_ f /\
                    set_success_value true (success_ g)
                    = set_success_value true (success_ f)) as (g & Eg & Ga & Gb & Gt & Gf & Gs).
  { eexists. split; [reflexivity|]. unfold Check, Throw. rewrite Ha, Hb.
    destruct (parse_ f); cbn; rewrite ?Ha, ?Hb, ?set_success_value_twice;
      auto. }
  assert (forall b, set_success_value b (success_ g)
                    = set_success_value b (success_ f)) as Gs'.
  { intros b. destruct (success_ g), (success_ f); cbn in *;
      congruence. }
  unfold f', Output_file. rewrite Eg, Ga. unfold written. rewrite <- Gt.
  clear f' written Eg.
  destruct g as [ab su er co te pa fl ap abd]. cbn in Ga, Gb, Gs', Gf. subst.
  unfold OutputInternal_file, flush, count.
  cbn [clear_error text_ abort_ success_ error_ count_ parse_ flags_
       appended_ aborted_].
  destruct te as [|c te].
  - cbn. rewrite <- Gs'. repeat split; auto.
  - pose proof (Nat.le_min_l (length (c :: te)) (fwrite_accepts file)) as Hn.
    set (n := Nat.min (length (c :: te)) (fwrite_accepts file)) in *.
    set (len := length (c :: te)) in *. clearbody n len.
    destruct (n <? len) eqn:El.
    + cbn. rewrite <- Gs', ?set_success_value_twice. repeat split; auto.
    + destruct (_ && _); cbn; rewrite <- Gs', ?set_success_value_twice;
        repeat split; auto.
Qed.

Lemma Output_to_file_result_witness :
  let f := Init None None None
             (raw_Format false (Some true) (s2l "twelve bytes")
                Special.NewlineFlush) in
  let file := mkFILE 5 false in
  (aborted_ f = None /\ abort_ f = false) /\
  count_ (Output_file file f) = 5 /\
  count (Output_file file f) = true /\
  error_ (Output_file file f) = kWriteFailed /\
  success_ (Output_file file f) = Some false /\
  count_ (Output_file file f) <= length (text_ f).
Proof.
  split; [vm_compute; auto|]. split; [reflexivity|]. split; [reflexivity|].
  split; [reflexivity|]. split; [reflexivity|].
  exact (proj1 (proj2 (proj2
           (@Output_to_file_result
              (Init None None None
                 (raw_Format false (Some true) (s2l "twelve bytes")
                    Special.NewlineFlush))
              (mkFILE 5 false) eq_refl eq_refl)))).
Defined.

(** ** The table of the arguments *)

Lemma add_reference_manips s m defs x :
  In x (map manip_ (add_reference s m defs)) ->
  In x (map manip_ defs) \/ x = m.
Proof.
  induction defs as [|r defs IH]; cbn [add_reference map In].
  - intros [H|[]]. right. symmetry. exact H.
  - destruct (manip_ r =? m) eqn:E; cbn [map In manip_].
    + intros H. left. exact H.
    + intros [H|H]; [left; left; exact H|].
      destruct (IH H) as [H'|H']; [left; right; exact H'|right; exact H'].
Qed.

Lemma add_reference_inv k s m defs :
  m < k -> NoDup (map manip_ defs) -> Forall (fun r => manip_ r < k) defs ->
  NoDup (map manip_ (add_reference s m defs)) /\
  Forall (fun r => manip_ r < k) (add_reference s m defs).
Proof.
  intros Hm. induction defs as [|r defs IH]; intros Hn Hf.
  - cbn. split; [constructor; [intros []|constructor]|].
    constructor; [exact Hm|constructor].
  - cbn [add_reference]. inversion Hn as [|? ? Hr Hn']; subst.
    inversion Hf as [|? ? Hk Hf']; subst.
    destruct (manip_ r =? m) eqn:E.
    + cbn [map manip_]. split; [exact Hn|].
      constructor; [exact Hk|exact Hf'].
    + destruct (IH Hn' Hf') as [N F]. cbn [map]. split.
      * constructor; [|exact N]. intros Hin.
        apply add_reference_manips in Hin. destruct Hin as [Hin|Hin].
        -- exact (Hr Hin).
        -- apply Nat.eqb_neq in E. exact (E Hin).
      * constructor; [exact Hk|exact F].
Qed.

Lemma SetIndirect_refs k n s m args :
  m < k -> refs_inv k args -> refs_inv k (SetIndirect n s m args).
Proof.
  intros Hm H. unfold SetIndirect.
  destruct (nth_error args n) as [defs|] eqn:E; [|exact H].
  apply Forall_upd; [exact H|].
  apply nth_error_In in E. unfold refs_inv in H. rewrite Forall_forall in H.
  destruct (H _ E) as [N F]. apply add_reference_inv; assumption.
Qed.

Lemma Forall_firstn_keeps {A} (P : A -> Prop) l : forall n,
  Forall P l -> Forall P (firstn n l).
Proof.
  induction l as [|x l IH]; intros [|n] H; cbn [firstn]; try constructor.
  - inversion H; assumption.
  - apply IH. inversion H; assumption.
Qed.

Lemma Forall_resize {A} (P : A -> Prop) n d l :
  P d -> Forall P l -> Forall P (resize n d l).
Proof.
  intros Hd H. unfold resize. apply Forall_app. split.
  - apply Forall_firstn_keeps. exact H.
  - rewrite Forall_forall. intros x Hx. apply repeat_spec in Hx.
    subst. exact Hd.
Qed.

Lemma refs_inv_empty_slot k :
  NoDup (map manip_ (@nil References)) /\
  Forall (fun r => manip_ r < k) (@nil References).
Proof. split; constructor. Qed.

Lemma refs_inv_mono k k' args :
  k <= k' -> refs_inv k args -> refs_inv k' args.
Proof.
  intros Hk H. unfold refs_inv in *. rewrite Forall_forall in *.
  intros defs Hd. destruct (H _ Hd) as [N F]. split; [exact N|].
  rewrite Forall_forall in *. intros r Hr. specialize (F _ Hr). lia.
Qed.

Lemma HandleArgumentNumber_refs k argnum st :
  refs_inv k (p_args st) ->
  refs_inv k (p_args (HandleArgumentNumber argnum st)).
Proof.
  intros H. unfold HandleArgumentNumber. cbn [p_args].
  destruct (_ <=? _); [|exact H].
  apply Forall_resize; [apply refs_inv_empty_slot|exact H].
Qed.

Lemma SetArg_refs K kind st manip k i st' manip' i' :
  k < K ->
  SetArg kind st manip k i = Done (st', manip', i') ->
  refs_inv K (p_args st) -> refs_inv K (p_args st').
Proof.
  unfold SetArg. intros Hk H Hs.
  destruct (_ =? _); [discriminate|].
  destruct (EndArgumentNumber _ _) as [e|].
  - destruct (_ =? _); [discriminate|].
    destruct (ParseNumber _ _ _ _) as [argnum|]; simpl in H; [|discriminate].
    injection H as <- <- <-. cbn [set_args p_args].
    apply SetIndirect_refs; [exact Hk|].
    apply HandleArgumentNumber_refs. exact Hs.
  - injection H as <- <- <-. exact Hs.
Qed.

Lemma SpecStep_refs K st m k i st' m' i' :
  k < K ->
  SpecStep st m k i = Next st' m' i' ->
  refs_inv K (p_args st) -> refs_inv K (p_args st').
Proof.
  unfold SpecStep, after_switch, with_SetArg. intros Hk H Hs.
  repeat (destruct_match_in H; try discriminate).
  all: inversion H; subst; clear H; try exact Hs.
  all: match goal with
       | E : SetArg _ _ _ _ _ = Done _ |- _ =>
           eapply SetArg_refs; [exact Hk | exact E | exact Hs]
       end.
Qed.

Lemma ParseSpec_refs K fuel k : forall st m i st' m' i',
  k < K ->
  ParseSpec fuel st m k i = Some (Done (st', m', i')) ->
  refs_inv K (p_args st) -> refs_inv K (p_args st').
Proof.
  induction fuel as [|fuel IH]; intros st m i st' m' i' Hk H Hs;
    [discriminate|].
  simpl in H. destruct (SpecStep st m k i) as [st1 m1 i1|st1 m1 i1|e] eqn:E.
  - eapply IH; [exact Hk | exact H|]. eapply SpecStep_refs; eassumption.
  - injection H as <- <- <-. apply SpecStep_Last in E.
    destruct E as (-> & _). exact Hs.
  - discriminate.
Qed.

Lemma ArgumentNumber_refs K st k i st' unknown i' :
  k < K ->
  ArgumentNumber st k i = Done (st', unknown, i') ->
  refs_inv K (p_args st) -> refs_inv K (p_args st').
Proof.
  unfold ArgumentNumber. intros Hk H Hs.
  destruct (EndArgumentNumber _ _) as [e|].
  - destruct (_ =? _); [discriminate|].
    destruct (ParseNumber _ _ _ _) as [argnum|]; simpl in H; [|discriminate].
    injection H as <- <- <-. cbn [set_args p_args].
    apply SetIndirect_refs; [exact Hk|].
    apply HandleArgumentNumber_refs. exact Hs.
  - injection H as <- <- <-. exact Hs.
Qed.

Lemma ParseLoop_refs fuel t st :
  ParseLoop fuel (init_PState t) 0 = Some (Done st) ->
  refs_inv (length (p_format st)) (p_args st).
Proof.
  apply (@ParseLoop_invariant
           (fun st => refs_inv (length (p_format st)) (p_args st)));
    [| |constructor].
  - intros st0 i st' i' Hs H.
    destruct (LoopStep_Again _ _ H)
      as [(start & _ & _ & -> & _)|(start & m & q & _ & _ & Ef & _)];
      [exact Hs|].
    rewrite Ef, length_app. cbn [length].
    set (k := length (p_format st0)) in *.
    assert (refs_inv (k + 1) (p_args st0)) as Hs'
      by (apply (@refs_inv_mono k (k + 1)); [lia|exact Hs]).
    clear Ef. unfold LoopStep in H.
    destruct (find _ _ _) as [start'|]; [|discriminate].
    destruct (_ =? _); [discriminate|].
    destruct (Ascii.eqb _ _).
    + destruct (negb _); [|discriminate]. injection H as <- <-. exact Hs'.
    + cbn [push_border p_format] in H. fold k in H.
      destruct (ArgumentNumber _ _ _) as [[[st1 u] i1]|] eqn:Ea;
        [|discriminate].
      apply (@ArgumentNumber_refs (k + 1)) in Ea; [|lia|exact Hs'].
      destruct (ParseSpec _ _ _ _ _) as [[[[st2 m2] i2]|]|] eqn:Ep;
        try discriminate.
      apply (@ParseSpec_refs (k + 1)) in Ep; [|lia|exact Ea].
      injection H as <- <-. destruct u; exact Ep.
  - intros st0 i st' Hs H. apply LoopStep_Stop in H.
    destruct H as [[_ ->]|(start & _ & _ & -> & _)]; exact Hs.
Qed.

Lemma GiveNumbers_refs K specified queue : forall a args,
  Forall (fun r => manip_ r < K) queue -> refs_inv K args ->
  refs_inv K (fst (GiveNumbers specified queue a args)).
Proof.
  induction queue as [|it queue IH]; intros a args Hq H; [exact H|].
  inversion Hq as [|? ? Hk Hq']; subst. cbn [GiveNumbers fst].
  apply IH; [exact Hq'|]. apply SetIndirect_refs; [exact Hk|exact H].
Qed.


Lemma ParseFormat_Done t st :
  ParseFormat t = Some (Done st) ->
  exists st0, ParseLoop (S (length t)) (init_PState t) 0 = Some (Done st0) /\
              st = Postponed st0.
Proof.
  unfold ParseFormat. intros H.
  destruct (ParseLoop _ _ _) as [[st0|e]|]; try discriminate.
  injection H as <-. exists st0. split; reflexivity.
Qed.



(** X24: in the table of a parsed format the references of every argument
    point to different [Manip]s (a second reference to the same [Manip]
    is merged into the first one by [SetIndirect]), and every
    reference points to a [Manip] of [format_]. *)
Theorem references_are_merged_and_valid t st :
  ParseFormat t = Some (Done st) ->
  Forall (fun defs =>
            NoDup (map manip_ defs) /\
            Forall (fun r => exists m,
                      nth_error (p_format st) (manip_ r) = Some m) defs)
         (p_args st).
Proof.
  intros H. apply ParseFormat_Done in H. destruct H as (st0 & H & ->).
  assert (refs_inv (length (p_format (Postponed st0)))
                   (p_args (Postponed st0))) as R.
  { destruct (Postponed_fields st0) as (_ & _ & _ & Ef & _). rewrite Ef.
    pose proof (ParseLoop_refs _ _ H) as R0.
    destruct (p_queue st0) as [|r q] eqn:E.
    - unfold Postponed. rewrite E. exact R0.
    - rewrite Postponed_args by (rewrite E; discriminate).
      apply GiveNumbers_refs.
      + destruct (queue_inv_ParseLoop _ _ H) as [_ Q].
        rewrite Forall_forall in *. intros x Hx.
        apply (Q _ Hx).
      + apply Forall_resize; [apply refs_inv_empty_slot|exact R0]. }
  unfold refs_inv in R. rewrite Forall_forall in *. intros defs Hd.
  destruct (R _ Hd) as [N F]. split; [exact N|].
  rewrite Forall_forall in *. intros r Hr. specialize (F _ Hr).
  destruct (nth_error (p_format (Postponed st0)) (manip_ r)) as [m|] eqn:E.
  - exists m. reflexivity.
  - apply nth_error_None in E. lia.
Qed.

Lemma references_are_merged_and_valid_witness :
  exists st,
    ParseFormat (s2l "%1$*1$d") = Some (Done st) /\
    Forall (fun defs =>
              NoDup (map manip_ defs) /\
              Forall (fun r => exists m,
                        nth_error (p_format st) (manip_ r) = Some m) defs)
           (p_args st) /\
    p_args st = [[mkRef (Z.lor Defines.kArg Defines.kWidth) 0]].
Proof.
  eexists. split; [vm_compute; reflexivity|]. split.
  - apply (@references_are_merged_and_valid (s2l "%1$*1$d")).
    vm_compute. reflexivity.
  - reflexivity.
Defined.

(** ** An indirect width *)

Lemma ParseFormat_star_s pre post :
  ~ In "%"%char pre -> ~ In "%"%char post ->
  let t := "%"%char :: "*"%char :: "s"%char :: post in
  ParseFormat (pre ++ t)
  = Some (Done (shift pre
                  (mkPState t [mkManip new_ostringstream Extensions.kNone
                                       Defines.kWidth]
                            [0; 3]
                            [[mkRef Defines.kWidth 0]; [mkRef Defines.kArg 0]]
                            []
                            [mkRef Defines.kWidth 0; mkRef Defines.kArg 0]))).
Proof.
  intros Hpre Hpost t.
  rewrite (@ParseFormat_literal_prefix pre t Hpre).
  unfold ParseFormat. rewrite ParseLoop_step.
  unfold t.
  rewrite (@LoopStep_directive "*"%char ("s"%char :: post) eq_refl eq_refl).
  cbv zeta. rewrite ParseSpec_step.
  set (st0 := push_border 0
                (init_PState ("%"%char :: "*"%char :: "s"%char :: post))).
  set (st1 := push_queue (mkRef Defines.kWidth 0) st0).
  set (m1 := mkManip new_ostringstream Extensions.kNone Defines.kWidth).
  assert (SpecStep st0 new_Manip 0 1 = Next st1 m1 2) as -> by reflexivity.
  cbn [length]. rewrite ParseSpec_step.
  assert (SpecStep st1 m1 0 2 = Last st1 m1 3) as -> by reflexivity.
  rewrite ParseLoop_step. unfold LoopStep at 1.
  change (find "%" _ 3) with (find_from "%"%char post 3).
  rewrite (@find_from_absent "%"%char post 3 Hpost).
  reflexivity.
Qed.

Lemma apply_reference_kWidth arg m :
  apply_reference Defines.kWidth arg m
  = do os <- SetWidth (ostream_ m) arg;
    Done (clear_need Defines.kWidth (mkManip os (extensions_ m) (need_ m))).
Proof.
  rewrite apply_reference_canonical.
  unfold apply_in_canonical_order, apply_modifiers, canonical_order,
    apply_modifier.
  cbn [fold_left fst snd].
  change (has Defines.kWidth Defines.kLocale) with false.
  change (has Defines.kWidth Defines.kPrecision) with false.
  change (has Defines.kWidth Defines.kWidth) with true.
  change (has Defines.kWidth Defines.kFill) with false.
  change (has Defines.kWidth Defines.kArg) with false.
  cbn [obind]. destruct (SetWidth (ostream_ m) arg); reflexivity.
Qed.

(** The padding of a string inserted into a fresh stream whose width has
    been set by [SetWidth]. *)
Lemma SetWidth_then_put w s :
  in_range TInt w -> (type_min TInt < w)%Z ->
  exists os,
    SetWidth new_ostringstream (VNum TInt w) = Done os /\
    os_str (put_text os s)
    = let padding :=
        repeat " "%char (Z.to_nat (Z.abs w - Z.of_nat (length s))) in
      if (w <? 0)%Z then s ++ padding else padding ++ s.
Proof.
  intros Hr Hm. unfold in_range, type_min, type_max in *. cbn in Hr, Hm.
  cbn [SetWidth]. destruct (Z.ltb_spec w 0) as [Hneg|Hpos].
  - eexists. split; [reflexivity|].
    unfold put_text, pad.
    cbn [width write os_str os_width os_flags os_fill setf_mask
         new_ostringstream app].
    assert (to_streamsize (negate TInt w) = Z.abs w) as ->.
    { unfold negate. rewrite convert_signed_small;
        [|reflexivity|unfold type_min, type_max; cbn; lia].
      rewrite to_streamsize_small by lia. lia. }
    reflexivity.
  - eexists. split; [reflexivity|].
    unfold put_text, pad.
    cbn [width write os_str os_width os_flags os_fill new_ostringstream app].
    assert (to_streamsize w = Z.abs w) as ->
      by (rewrite to_streamsize_small by lia; lia).
    reflexivity.
Qed.

(** X25: the width given by an argument.  The format
    [pre ++ "%*s" ++ post] awaits the width and then the text; the text is
    padded with spaces to the absolute value of the width, on the left for
    a width that is not negative and on the right, that is aligned to the
    left, for a negative one (other than the least [int]). *)
Theorem width_from_an_argument abort success flags pre post w s :
  ~ In "%"%char pre -> ~ In "%"%char post ->
  in_range TInt w -> (type_min TInt < w)%Z ->
  let f := Init None None None
             (raw_Format abort success
                (pre ++ "%"%char :: "*"%char :: "s"%char :: post) flags) in
  let padding := repeat " "%char (Z.to_nat (Z.abs w - Z.of_nat (length s))) in
  awaits f 2 /\ awaits (feed f (VNum TInt w)) 1 /\
  awaits (feed_all f [VNum TInt w; VStr s]) 0 /\
  text_ (feed_all f [VNum TInt w; VStr s])
  = pre ++ (if (w <? 0)%Z then s ++ padding else padding ++ s) ++ post
      ++ newline_of flags.
Proof.
  intros Hpre Hpost Hr Hm f padding.
  destruct (@SetWidth_then_put w s Hr Hm) as (os & Ew & Ep).
  unfold f, Init.
  change (text_ (set_parse_ _ (raw_Format abort success ?x flags))) with x.
  rewrite (@ParseFormat_star_s pre post Hpre Hpost).
  cbn [shift p_args p_text p_format p_borders map].
  split; [unfold awaits, pending; cbn; auto|].
  cbn [feed_all fold_left].
  match goal with
  | |- context [feed ?g (VNum TInt w)] =>
      assert (feed g (VNum TInt w)
              = set_parse_
                  (Some (mkParse [mkManip os Extensions.kNone Defines.kNone]
                           [length pre + 0; length pre + 3]
                           [[mkRef Defines.kWidth 0]; [mkRef Defines.kArg 0]]
                           1 false None None None)) g) as ->
  end.
  { unfold feed.
    cbn [awaiting aborted_ set_parse_ set_text_ raw_Format parse_ simple_
         current_arg_ args_ nth format_ apply_defines nth_error manip_
         set_these_].
    rewrite apply_reference_kWidth. cbn [ostream_]. rewrite Ew.
    reflexivity. }
  split; [unfold awaits, pending; cbn; auto|].
  unfold feed.
  cbn [awaiting aborted_ set_parse_ set_text_ raw_Format parse_ simple_
       current_arg_ args_ nth format_ apply_defines nth_error manip_
       set_these_].
  rewrite apply_reference_kArg.
  change (apply_MainArg (VStr s) (mkManip os Extensions.kNone Defines.kNone))
    with (Done (mkManip (put_text os s) Extensions.kNone Defines.kNone)).
  cbn [obind upd next_arg set_format_ current_arg_ args_ length Nat.eqb
       format_ borders_ simple_ append_ file_ sink_ostream_].
  unfold FinishInsertingArgs.
  cbn [parse_ set_parse_ awaiting set_text_ text_ format_ borders_
       next_arg set_format_].
  rewrite assemble_one. cbn [fst snd].
  rewrite skipn_app_length. cbn [skipn].
  match goal with
  | |- context [InitialOutput ?g] =>
      destruct (@InitialOutput_no_sink g _ eq_refl eq_refl eq_refl eq_refl
                  eq_refl) as (A & T & _)
  end.
  split; [exact A|]. rewrite T.
  cbn [text_ flags_ set_text_ set_parse_ awaiting raw_Format].
  change (manip_text (mkManip (put_text os s) Extensions.kNone Defines.kNone))
    with (os_str (put_text os s)).
  rewrite Ep. cbv zeta. rewrite <- !app_assoc. reflexivity.
Qed.

Lemma width_from_an_argument_witness :
  let pre := s2l "[" in
  let post := s2l "]" in
  let w := (-6)%Z in
  let s := s2l "left" in
  (~ In "%"%char pre /\ ~ In "%"%char post /\ in_range TInt w /\
   (type_min TInt < w)%Z) /\
  let f := Init None None None
             (raw_Format false (Some true)
                (pre ++ "%"%char :: "*"%char :: "s"%char :: post)
                Special.None_) in
  let padding := repeat " "%char (Z.to_nat (Z.abs w - Z.of_nat (length s))) in
  (awaits f 2 /\ awaits (feed f (VNum TInt w)) 1 /\
   awaits (feed_all f [VNum TInt w; VStr s]) 0 /\
   text_ (feed_all f [VNum TInt w; VStr s])
   = pre ++ (if (w <? 0)%Z then s ++ padding else padding ++ s) ++ post
       ++ newline_of Special.None_) /\
  text_ (feed_all f [VNum TInt w; VStr s]) = s2l "[left  ]".
Proof.
  assert (~ In "%"%char (s2l "[")) as H1 by (apply literal_text; reflexivity).
  assert (~ In "%"%char (s2l "]")) as H2 by (apply literal_text; reflexivity).
  assert (in_range TInt (-6)) as H3 by (vm_compute; split; discriminate).
  assert (type_min TInt < -6)%Z as H4 by reflexivity.
  split; [auto|]. split.
  - exact (@width_from_an_argument false (Some true) Special.None_
             (s2l "[") (s2l "]") (-6)%Z (s2l "left") H1 H2 H3 H4).
  - vm_compute. reflexivity.
Defined.

(** ** The types of the indirect modifiers *)

(** The format [pre ++ "%cs" ++ post] for a modifier [c] that asks for an
    argument of the kind [kind]. *)
Lemma ParseFormat_modifier_s pre post c kind :
  ~ In "%"%char pre -> ~ In "%"%char post ->
  Ascii.eqb c "%" = false -> IsPositiveNumber c = false ->
  let t := "%"%char :: c :: "s"%char :: post in
  let st0 := push_border 0 (init_PState t) in
  SpecStep st0 new_Manip 0 1
  = Next (push_queue (mkRef kind 0) st0)
         (mkManip new_ostringstream Extensions.kNone kind) 2 ->
  ParseFormat (pre ++ t)
  = Some (Done (shift pre
                  (mkPState t [mkManip new_ostringstream Extensions.kNone kind]
                            [0; 3]
                            [[mkRef kind 0]; [mkRef Defines.kArg 0]]
                            []
                            [mkRef kind 0; mkRef Defines.kArg 0]))).
Proof.
  intros Hpre Hpost Hc Hp t st0 H.
  rewrite (@ParseFormat_literal_prefix pre t Hpre).
  unfold ParseFormat. rewrite ParseLoop_step.
  unfold t in *.
  rewrite (@LoopStep_directive c ("s"%char :: post) Hc Hp).
  cbv zeta. rewrite ParseSpec_step. fold st0. rewrite H.
  cbn [length]. rewrite ParseSpec_step.
  set (st1 := push_queue (mkRef kind 0) st0).
  assert (SpecStep st1 (mkManip new_ostringstream Extensions.kNone kind) 0 2
          = Last st1 (mkManip new_ostringstream Extensions.kNone kind) 3)
    as -> by reflexivity.
  rewrite ParseLoop_step. unfold LoopStep at 1.
  change (find "%" _ 3) with (find_from "%"%char post 3).
  rewrite (@find_from_absent "%"%char post 3 Hpost).
  reflexivity.
Qed.

Lemma apply_reference_kFill arg m :
  apply_reference Defines.kFill arg m
  = do os <- SetFill (ostream_ m) arg;
    Done (clear_need Defines.kFill (mkManip os (extensions_ m) (need_ m))).
Proof.
  rewrite apply_reference_canonical.
  unfold apply_in_canonical_order, apply_modifiers, canonical_order,
    apply_modifier.
  cbn [fold_left fst snd].
  change (has Defines.kFill Defines.kLocale) with false.
  change (has Defines.kFill Defines.kPrecision) with false.
  change (has Defines.kFill Defines.kWidth) with false.
  change (has Defines.kFill Defines.kFill) with true.
  change (has Defines.kFill Defines.kArg) with false.
  cbn [obind]. destruct (SetFill (ostream_ m) arg); reflexivity.
Qed.

Lemma apply_reference_kLocale arg m :
  apply_reference Defines.kLocale arg m
  = do os <- SetLocale (ostream_ m) arg;
    Done (clear_need Defines.kLocale (mkManip os (extensions_ m) (need_ m))).
Proof.
  rewrite apply_reference_canonical.
  unfold apply_in_canonical_order, apply_modifiers, canonical_order,
    apply_modifier.
  cbn [fold_left fst snd].
  change (has Defines.kLocale Defines.kLocale) with true.
  change (has Defines.kLocale Defines.kPrecision) with false.
  change (has Defines.kLocale Defines.kWidth) with false.
  change (has Defines.kLocale Defines.kFill) with false.
  change (has Defines.kLocale Defines.kArg) with false.
  cbn [obind]. destruct (SetLocale (ostream_ m) arg); reflexivity.
Qed.

(** The first argument of such a format is the one of the modifier. *)
Lemma feed_modifier_s abort success flags pre post c kind Set_ arg :
  ~ In "%"%char pre -> ~ In "%"%char post ->
  Ascii.eqb c "%" = false -> IsPositiveNumber c = false ->
  let t := "%"%char :: c :: "s"%char :: post in
  let st0 := push_border 0 (init_PState t) in
  SpecStep st0 new_Manip 0 1
  = Next (push_queue (mkRef kind 0) st0)
         (mkManip new_ostringstream Extensions.kNone kind) 2 ->
  (forall m, apply_reference kind arg m
             = do os <- Set_ (ostream_ m) arg;
               Done (clear_need kind (mkManip os (extensions_ m) (need_ m)))) ->
  let f := Init None None None (raw_Format abort success (pre ++ t) flags) in
  awaits f 2 /\
  match Set_ new_ostringstream arg with
  | Done _ => awaits (feed f arg) 1
  | Thrown e => failed_with e f (feed f arg)
  end.
Proof.
  intros Hpre Hpost Hc Hp t st0 H Hk f. unfold f, Init. unfold t in *.
  change (text_ (set_parse_ _ (raw_Format abort success ?x flags))) with x.
  rewrite (@ParseFormat_modifier_s pre post c kind Hpre Hpost Hc Hp H).
  cbn [shift p_args p_text p_format p_borders map].
  split; [unfold awaits, pending; cbn; auto|].
  unfold feed at 1 2.
  cbn [awaiting aborted_ set_parse_ set_text_ raw_Format parse_ simple_
       current_arg_ args_ nth format_ apply_defines nth_error manip_
       set_these_].
  rewrite Hk. cbn [ostream_].
  destruct (Set_ new_ostringstream arg) as [os|e]; cbn [obind].
  - unfold awaits, pending. cbn. auto.
  - apply Throw_failed_with. reflexivity.
Qed.

(** X26: the argument of an indirect modifier must have the type of the
    modifier.  In the formats [pre ++ "%*s" ++ post],
    [pre ++ "%/s" ++ post] and [pre ++ "%~s" ++ post] the first argument is
    the one of the modifier: an integral value is taken as the width and
    as the fill character, after which the text is awaited, and anything
    else fails with [WidthArgIsNotNumeric] and [FillArgIsNotChar]; a locale
    is taken by [~], and anything else fails there with
    [LocaleArgIsNoLocale]. *)
Theorem modifier_argument_types abort success flags pre post arg :
  ~ In "%"%char pre -> ~ In "%"%char post ->
  let f c := Init None None None
               (raw_Format abort success
                  (pre ++ "%"%char :: c :: "s"%char :: post) flags) in
  (awaits (f "*"%char) 2 /\ awaits (f "/"%char) 2 /\ awaits (f "~"%char) 2) /\
  match arg with
  | VNum _ _ =>
      awaits (feed (f "*"%char) arg) 1 /\ awaits (feed (f "/"%char) arg) 1 /\
      failed_with kLocaleArgIsNoLocale (f "~"%char) (feed (f "~"%char) arg)
  | VStr _ =>
      failed_with kWidthArgIsNotNumeric (f "*"%char) (feed (f "*"%char) arg) /\
      failed_with kFillArgIsNotChar (f "/"%char) (feed (f "/"%char) arg) /\
      failed_with kLocaleArgIsNoLocale (f "~"%char) (feed (f "~"%char) arg)
  | VLocale _ =>
      failed_with kWidthArgIsNotNumeric (f "*"%char) (feed (f "*"%char) arg) /\
      failed_with kFillArgIsNotChar (f "/"%char) (feed (f "/"%char) arg) /\
      awaits (feed (f "~"%char) arg) 1
  end.
Proof.
  intros Hpre Hpost f.
  destruct (@feed_modifier_s abort success flags pre post "*"%char
              Defines.kWidth SetWidth arg Hpre Hpost eq_refl eq_refl eq_refl
              (apply_reference_kWidth arg)) as [A1 B1].
  destruct (@feed_modifier_s abort success flags pre post "/"%char
              Defines.kFill SetFill arg Hpre Hpost eq_refl eq_refl eq_refl
              (apply_reference_kFill arg)) as [A2 B2].
  destruct (@feed_modifier_s abort success flags pre post "~"%char
              Defines.kLocale SetLocale arg Hpre Hpost eq_refl eq_refl eq_refl
              (apply_reference_kLocale arg)) as [A3 B3].
  split; [auto|].
  destruct arg as [t v|s|l]; cbn [SetFill SetLocale] in B2, B3.
  - split; [|split; [exact B2|exact B3]].
    destruct (SetWidth new_ostringstream (VNum t v)) eqn:E; [exact B1|].
    exfalso. unfold SetWidth in E.
    destruct t; try discriminate E;
      repeat (destruct_match_in E; try discriminate E).
  - auto.
  - auto.
Qed.

Lemma modifier_argument_types_witness :
  let pre := s2l "<" in
  let post := s2l ">" in
  let arg := VStr (s2l "wide") in
  let f c := Init None None None
               (raw_Format false (Some true)
                  (pre ++ "%"%char :: c :: "s"%char :: post) Special.None_) in
  (~ In "%"%char pre /\ ~ In "%"%char post) /\
  (awaits (f "*"%char) 2 /\ awaits (f "/"%char) 2 /\ awaits (f "~"%char) 2) /\
  failed_with kWidthArgIsNotNumeric (f "*"%char) (feed (f "*"%char) arg) /\
  failed_with kFillArgIsNotChar (f "/"%char) (feed (f "/"%char) arg) /\
  failed_with kLocaleArgIsNoLocale (f "~"%char) (feed (f "~"%char) arg).
Proof.
  assert (~ In "%"%char (s2l "<")) as H1 by (apply literal_text; reflexivity).
  assert (~ In "%"%char (s2l ">")) as H2 by (apply literal_text; reflexivity).
  split; [auto|].
  exact (@modifier_argument_types false (Some true) Special.None_ (s2l "<")
           (s2l ">") (VStr (s2l "wide")) H1 H2).
Defined.

(** ** The sign of a width *)

(** X27: [SetWidth] takes the absolute value of its argument.  For a
    value of an integral type that [std::streamsize] holds and that is not
    the least value of a signed type, the width of the stream becomes the
    absolute value; a negative value sets the alignment to left, another
    one leaves the flags as they are; the text of the stream is
    untouched. *)
Theorem SetWidth_takes_the_absolute_value os t v :
  in_range t v -> (v <= 2 ^ 63 - 1)%Z ->
  (type_min t < v)%Z \/ is_signed t = false ->
  exists os',
    SetWidth os (VNum t v) = Done os' /\
    os_width os' = Z.abs v /\
    ((v < 0)%Z -> alignment os' = ios_base.left) /\
    ((0 <= v)%Z -> os_flags os' = os_flags os) /\
    os_str os' = os_str os /\ os_fill os' = os_fill os.
Proof.
  intros Hr Hmax Hmin.
  assert (is_signed t = false -> (0 <= v)%Z) as Hu.
  { intros Hs. unfold in_range, type_min in Hr. rewrite Hs in Hr. lia. }
  destruct (Z.ltb_spec v 0) as [Hneg|Hpos].
  - assert (is_signed t = true) as Hs
      by (destruct (is_signed t) eqn:E; [reflexivity|specialize (Hu eq_refl); lia]).
    assert (type_min t < v)%Z as Hlt
      by (destruct Hmin as [H|H]; [exact H|congruence]).
    destruct (@SetWidth_negative os t v Hs (conj Hlt Hneg))
      as (os' & E & W & _ & Al).
    exists os'. split; [exact E|]. split; [lia|]. split; [auto|].
    split; [lia|]. split; [eapply SetWidth_str; exact E|].
    unfold SetWidth in E.
    destruct t; try discriminate Hs;
      repeat (destruct_match_in E; try discriminate E);
      injection E as <-; reflexivity.
  - destruct (@SetWidth_keeps_alignment os t v (or_introl Hpos))
      as (os' & E & W & Fl).
    exists os'. split; [exact E|]. split.
    + rewrite W, to_streamsize_small by lia. lia.
    + split; [lia|]. split; [auto|]. split; [eapply SetWidth_str; exact E|].
      unfold SetWidth in E.
      destruct t; repeat (destruct_match_in E; try discriminate E);
        injection E as <-; reflexivity.
Qed.

Lemma SetWidth_takes_the_absolute_value_witness :
  in_range TLong (-40) /\
  exists os',
    SetWidth new_ostringstream (VNum TLong (-40)) = Done os' /\
    os_width os' = Z.abs (-40) /\
    ((-40 < 0)%Z -> alignment os' = ios_base.left) /\
    ((0 <= -40)%Z -> os_flags os' = os_flags new_ostringstream) /\
    os_str os' = os_str new_ostringstream /\
    os_fill os' = os_fill new_ostringstream.
Proof.
  assert (in_range TLong (-40)) as H by (vm_compute; split; discriminate).
  split; [exact H|].
  apply (@SetWidth_takes_the_absolute_value new_ostringstream TLong (-40)%Z H).
  - vm_compute. discriminate.
  - left. reflexivity.
Defined.

(** ** Output to a stream *)

(** X28: what [Output] to a [std::ostream] ends with under the policy that
    reports errors.  An empty text is neither inserted nor flushed and is a
    success.  Otherwise the output fails with [WriteFailed] when the stream
    is bad after the insertion, with [FlushFailed] when the flush flag is
    set and the stream is bad after the flush, and is a success otherwise.
    The count is not touched. *)
Theorem Output_to_stream_result f s :
  aborted_ f = None -> abort_ f = false ->
  let f' := Output_stream s f in
  text_ f' = text_ f /\ aborted_ f' = None /\ count_ f' = count_ f /\
  error_ f'
  = match text_ f with
    | [] => kNone
    | _ => if bad_after_write s then kWriteFailed
           else if flush f && bad_after_flush s then kFlushFailed
           else kNone
    end /\
  success_ f' = set_success_value (Code_eqb (error_ f') kNone) (success_ f).
Proof.
  intros Ha Hb f'.
  assert (exists g, Check f = g /\ aborted_ g = None /\ abort_ g = false /\
                    text_ g = text_ f /\ flags_ g = flags_ f /\
                    count_ g = count_ f /\
                    forall b, set_success_value b (success_ g)
                              = set_success_value b (success_ f))
    as (g & Eg & Ga & Gb & Gt & Gf & Gc & Gs).
  { eexists. split; [reflexivity|]. unfold Check, Throw. rewrite Ha, Hb.
    destruct (parse_ f); cbn; rewrite ?Ha, ?Hb; repeat split; auto;
      intros b; apply set_success_value_twice. }
  unfold f', Output_stream. rewrite Eg, Ga. rewrite <- Gt, <- Gc.
  clear f' Eg.
  destruct g as [ab su er co te pa fl ap abd]. cbn in Ga, Gb, Gs, Gf. subst.
  unfold OutputInternal_stream, flush.
  cbn [clear_error text_ abort_ success_ error_ count_ parse_ flags_
       appended_ aborted_].
  destruct te as [|c te].
  - cbn. rewrite <- Gs. repeat split; auto.
  - destruct (bad_after_write s).
    + cbn. rewrite <- Gs, ?set_success_value_twice. repeat split; auto.
    + destruct (_ && _); cbn; rewrite <- Gs, ?set_success_value_twice;
        repeat split; auto.
Qed.

Lemma Output_to_stream_result_witness :
  let f := Init None None None
             (raw_Format false (Some true) (s2l "text") Special.NewlineFlush)
  in
  let s := mkStream false true in
  (aborted_ f = None /\ abort_ f = false) /\
  error_ (Output_stream s f) = kFlushFailed /\
  success_ (Output_stream s f) = Some false /\
  count_ (Output_stream s f) = count_ f.
Proof.
  split; [vm_compute; auto|]. split; [reflexivity|]. split; [reflexivity|].
  exact (proj1 (proj2 (proj2
           (@Output_to_stream_result
              (Init None None None
                 (raw_Format false (Some true) (s2l "text")
                    Special.NewlineFlush))
              (mkStream false true) eq_refl eq_refl)))).
Defined.

(** ** [Say] *)

Lemma Throw_not_complete e f :
  e <> kNone -> aborted_ f = None -> ~ awaits (Throw e f) 0.
Proof.
  intros He Ha (A & B). unfold Throw in *. rewrite Ha in *.
  destruct (abort_ f); cbn in *; [discriminate|].
  destruct B as [_ B]. exact (He B).
Qed.

Lemma Throw_flags e f : flags_ (Throw e f) = flags_ f.
Proof.
  unfold Throw. destruct (aborted_ f); [reflexivity|].
  destruct (abort_ f); reflexivity.
Qed.

Lemma Throw_sinks e f p :
  parse_ (Throw e f) = Some p -> parse_ f = Some p.
Proof.
  unfold Throw. destruct (aborted_ f); [auto|].
  destruct (abort_ f); cbn; [auto|discriminate].
Qed.

(** [InitialOutput] to a [FILE] under the newline flag. *)
Lemma InitialOutput_to_file stdout f p :
  parse_ f = Some p -> append_ p = None -> file_ p = Some stdout ->
  aborted_ f = None ->
  Special.HaveBits (flags_ f) Special.kNewline = true ->
  Say_inv stdout (InitialOutput f).
Proof.
  intros Hp H1 H2 Ha Hn.
  destruct f as [ab su er co te pa fl ap abd].
  cbn [parse_ aborted_ flags_] in Hp, Ha, Hn. subst.
  unfold InitialOutput. cbn [parse_ flags_]. rewrite Hn, H1, H2.
  unfold set_text_, OutputInternal_file.
  cbn [clear_error text_ abort_ success_ error_ count_ parse_ flags_
       appended_ aborted_].
  destruct (te ++ ["010"%char]) as [|c body] eqn:Et;
    [destruct te; discriminate Et|].
  rewrite <- Et.
  pose proof (Nat.le_min_l (length (te ++ ["010"%char])) (fwrite_accepts stdout))
    as Hle.
  set (n := Nat.min (length (te ++ ["010"%char])) (fwrite_accepts stdout)) in *.
  destruct (n <? length (te ++ ["010"%char])) eqn:El.
  - unfold Throw. cbn [aborted_ abort_].
    destruct ab; cbn; unfold Say_inv; cbn; (split; [exact Hn|]);
      (split; [intros q Hq; inversion Hq; subst; auto|]);
      intros (A & B); cbn in *; try discriminate;
      destruct B as [_ B]; discriminate.
  - apply Nat.ltb_ge in El.
    unfold flush. cbn [flags_].
    destruct (_ && _).
    + unfold Throw. cbn [aborted_ abort_].
      destruct ab; cbn; unfold Say_inv; cbn; (split; [exact Hn|]);
        (split; [intros q Hq; inversion Hq; subst; auto|]);
        intros (A & B); cbn in *; try discriminate;
        destruct B as [_ B]; discriminate.
    + cbn. unfold Say_inv. cbn. split; [exact Hn|].
      split; [intros q Hq; discriminate|].
      intros _. split; [exists te; reflexivity|]. lia.
Qed.

Lemma Say_inv_not_complete stdout f :
  Special.HaveBits (flags_ f) Special.kNewline = true ->
  (forall p, parse_ f = Some p -> append_ p = None /\ file_ p = Some stdout) ->
  ~ awaits f 0 -> Say_inv stdout f.
Proof.
  intros Hn Hs Hc. split; [exact Hn|]. split; [exact Hs|].
  intros A. contradiction.
Qed.

Lemma Say_inv_Throw stdout e f :
  e <> kNone -> aborted_ f = None -> Say_inv stdout f ->
  Say_inv stdout (Throw e f).
Proof.
  intros He Ha (Hn & Hs & _). apply Say_inv_not_complete.
  - rewrite Throw_flags. exact Hn.
  - intros p Hp. apply Hs. apply (Throw_sinks _ _ Hp).
  - apply Throw_not_complete; assumption.
Qed.

Lemma feed_Say_inv stdout f arg :
  Say_inv stdout f -> Say_inv stdout (feed f arg).
Proof.
  intros H. pose proof H as (Hn & Hs & Hc).
  unfold feed. destruct (aborted_ f) eqn:Ha; [exact H|].
  destruct (parse_ f) as [p|] eqn:Ep.
  - destruct (Hs p eq_refl) as [S1 S2].
    destruct (simple_ p).
    + destruct (StringStandard new_ostringstream arg) as [os|e] eqn:Es.
      * apply (@InitialOutput_to_file stdout _ p); try assumption.
      * apply Say_inv_Throw; [|exact Ha|exact H].
        destruct arg; cbn in Es; congruence.
    + destruct (apply_defines _ arg (format_ p)) as [format|e] eqn:Ed.
      * cbn [next_arg set_format_ current_arg_ args_].
        destruct (_ =? _).
        -- unfold FinishInsertingArgs. cbn [parse_ set_parse_].
           eapply InitialOutput_to_file; try reflexivity; assumption.
        -- apply Say_inv_not_complete.
           ++ exact Hn.
           ++ cbn. intros q Hq. injection Hq as <-. cbn. auto.
           ++ intros (_ & A). cbn in A. destruct A; lia.
      * apply Say_inv_Throw; [|exact Ha|exact H].
        eapply apply_defines_error. exact Ed.
  - destruct (Code_eqb (error_ f) kNone); [|exact H].
    apply Say_inv_Throw; [discriminate|exact Ha|exact H].
Qed.

Lemma Say_Say_inv abort success stdout t flags :
  Say_inv stdout (Say abort success stdout t flags).
Proof.
  assert (Special.HaveBits
            (Special.New (Z.lor (Special.flags_ flags) Special.kNewline))
            Special.kNewline = true) as Hn
    by apply (HaveBits_SetBits_kNewline flags).
  unfold Say, Init.
  change (text_ (set_parse_ _ (raw_Format abort success t ?x))) with t.
  destruct (ParseFormat t) as [[st|e]|] eqn:E.
  - destruct (p_args st) eqn:Ea.
    + eapply InitialOutput_to_file; try reflexivity. exact Hn.
    + apply Say_inv_not_complete.
      * exact Hn.
      * cbn. intros q Hq. injection Hq as <-. cbn. auto.
      * intros (_ & A). cbn in A. destruct A; lia.
  - apply Say_inv_Throw.
    + eapply syntax_error_codes. eapply ParseFormat_Thrown. exact E.
    + reflexivity.
    + apply Say_inv_not_complete.
      * exact Hn.
      * cbn. intros q Hq. injection Hq as <-. cbn. auto.
      * intros (_ & A). cbn in A. destruct A; lia.
  - exfalso. revert E. apply ParseFormat_total.
Qed.

(** X29: [Say] ends every text with a newline.  Whatever flags are given,
    the newline flag of the object is set; when the object is complete
    after the arguments, its text ends with a newline and the member
    [count_] is the size of the text, all of which the standard output has
    taken.  The accessor [count()], declared [bool], then returns true and
    not that size. *)
Theorem Say_ends_with_a_newline abort success stdout t flags args :
  let f := feed_all (Say abort success stdout t flags) args in
  Special.HaveBits (flags_ f) Special.kNewline = true /\
  (awaits f 0 ->
   (exists body, text_ f = body ++ ["010"%char]) /\
   count_ f = length (text_ f) /\ count f = true).
Proof.
  intros f.
  assert (Say_inv stdout f) as (Hn & _ & Hc).
  { unfold f. generalize (Say_Say_inv abort success stdout t flags).
    generalize (Say abort success stdout t flags).
    induction args as [|a args IH]; intros g Hg; [exact Hg|].
    cbn [feed_all fold_left]. apply IH. apply feed_Say_inv. exact Hg. }
  split; [exact Hn|]. intros A. destruct (Hc A) as [(body & B) C].
  split; [exists body; exact B|]. split; [exact C|].
  unfold count. rewrite C, B, length_app. cbn [length].
  replace (length body + 1) with (S (length body)) by lia. reflexivity.
Qed.

Lemma Say_ends_with_a_newline_witness :
  let f := feed_all (Say false (Some true) (mkFILE 80 false) (s2l "%s!")
                       Special.None_) [VStr (s2l "done")] in
  awaits f 0 /\
  (Special.HaveBits (flags_ f) Special.kNewline = true /\
   (awaits f 0 ->
    (exists body, text_ f = body ++ ["010"%char]) /\
    count_ f = length (text_ f) /\ count f = true)) /\
  text_ f = s2l "done!" ++ ["010"%char] /\ count_ f = 6 /\ count f = true.
Proof.
  split; [vm_compute; auto|]. split.
  - exact (@Say_ends_with_a_newline false (Some true) (mkFILE 80 false)
             (s2l "%s!") Special.None_ [VStr (s2l "done")]).
  - vm_compute. auto.
Defined.

(** * The space modifier, from the format to the text *)

(** ** The assembler at any [Manip] *)

Lemma assemble_app t ms1 ms : forall bs1 bs pos result,
  length bs1 = 2 * length ms1 ->
  assemble t (ms1 ++ ms) (bs1 ++ bs) pos result
  = assemble t ms bs (snd (assemble t ms1 bs1 pos result))
             (fst (assemble t ms1 bs1 pos result)).
Proof.
  induction ms1 as [|m ms1 IH]; intros bs1 bs pos result Hlen.
  - destruct bs1; [reflexivity|discriminate Hlen].
  - destruct bs1 as [|b [|e bs1]]; cbn [length] in Hlen; try lia.
    cbn [app assemble]. apply IH. lia.
Qed.

Lemma Throw_text e f : text_ (Throw e f) = text_ f.
Proof.
  unfold Throw. destruct (aborted_ f); [reflexivity|].
  destruct (abort_ f); reflexivity.
Qed.

Lemma OutputInternal_file_text file f :
  text_ (OutputInternal_file file f) = text_ f.
Proof.
  destruct f as [ab su er co te pa fl ap abd].
  unfold OutputInternal_file. cbn [clear_error text_].
  destruct te as [|c te]; [reflexivity|].
  set (n := Nat.min _ _). set (len := length _). clearbody n len.
  cbv zeta. cbn [clear_error abort_ success_ text_ parse_ flags_ appended_
                 aborted_].
  destruct (n <? len).
  - unfold Throw. cbn [aborted_ abort_]. destruct abd; [reflexivity|].
    destruct ab; reflexivity.
  - destruct (_ && _); [|reflexivity].
    unfold Throw. cbn [aborted_ abort_]. destruct abd; [reflexivity|].
    destruct ab; reflexivity.
Qed.

Lemma OutputInternal_stream_text s f :
  text_ (OutputInternal_stream s f) = text_ f.
Proof.
  destruct f as [ab su er co te pa fl ap abd].
  unfold OutputInternal_stream. cbn [clear_error text_].
  destruct te as [|c te]; [reflexivity|].
  cbv zeta. cbn [clear_error abort_ success_ text_ parse_ flags_ appended_
                 aborted_ count_].
  destruct (bad_after_write s).
  - unfold Throw. cbn [aborted_ abort_]. destruct abd; [reflexivity|].
    destruct ab; reflexivity.
  - destruct (_ && _); [|reflexivity].
    unfold Throw. cbn [aborted_ abort_]. destruct abd; [reflexivity|].
    destruct ab; reflexivity.
Qed.

(** [InitialOutput] leaves the text as it is but for the newline of the
    flags, whatever the sink is and whether the output succeeds or not. *)
Lemma InitialOutput_text f :
  parse_ f <> None ->
  text_ (InitialOutput f)
  = text_ f ++ (if Special.HaveBits (flags_ f) Special.kNewline
                then ["010"%char] else []).
Proof.
  intros Hp. unfold InitialOutput.
  destruct (parse_ f) as [parse|]; [clear Hp|contradiction].
  set (f1 := if Special.HaveBits (flags_ f) Special.kNewline
             then set_text_ (text_ f ++ ["010"%char]) f else f).
  assert (text_ f1
          = text_ f ++ (if Special.HaveBits (flags_ f) Special.kNewline
                        then ["010"%char] else [])) as <-.
  { unfold f1. destruct (Special.HaveBits _ _);
      [reflexivity | symmetry; apply app_nil_r]. }
  clearbody f1.
  match goal with
  | |- text_ (match aborted_ ?g with _ => _ end) = _ =>
      assert (text_ g = text_ f1) as <-;
        [|destruct (aborted_ g); reflexivity]
  end.
  destruct (append_ parse); [reflexivity|].
  destruct (file_ parse); [apply OutputInternal_file_text|].
  destruct (sink_ostream_ parse); [apply OutputInternal_stream_text|].
  reflexivity.
Qed.

(** The text that [FinishInsertingArgs] leaves: the assembled text of the
    [Manip]s before [m], the piece of the format before the directive of
    [m], what the assembler appends for [m], then the same for the [Manip]s
    after it, the rest of the format and the newline of the flags. *)
Lemma FinishInsertingArgs_text f parse ms1 m ms2 bs1 b e bs2 :
  parse_ f = Some parse ->
  format_ parse = ms1 ++ m :: ms2 ->
  borders_ parse = bs1 ++ b :: e :: bs2 ->
  length bs1 = 2 * length ms1 ->
  let t := text_ f in
  let r1 := assemble t ms1 bs1 0 [] in
  let r2 := assemble t ms2 bs2 e [] in
  text_ (FinishInsertingArgs f)
  = fst r1 ++ substr t (snd r1) (b - snd r1) ++ manip_text m
      ++ fst r2 ++ skipn (snd r2) t
      ++ (if Special.HaveBits (flags_ f) Special.kNewline
          then ["010"%char] else []).
Proof.
  intros Hp Hf Hb Hlen t r1 r2. unfold FinishInsertingArgs. rewrite Hp.
  rewrite InitialOutput_text
    by (destruct f; cbn; cbn in Hp; rewrite Hp; discriminate).
  change (flags_ (set_text_ ?x f)) with (flags_ f).
  change (text_ (set_text_ ?x f)) with x.
  rewrite Hf, Hb, (@assemble_app (text_ f) ms1 (m :: ms2) bs1
                     (b :: e :: bs2) 0 [] Hlen).
  fold t. fold r1. cbn [assemble].
  rewrite <- (app_nil_r (fst r1 ++ substr t (snd r1) (b - snd r1)
                           ++ manip_text m)).
  rewrite assemble_prefix. fold r2. cbn [fst snd].
  rewrite <- !app_assoc. reflexivity.
Qed.

Lemma manip_text_first_plus m a c :
  ignored_is_empty m ->
  has (extensions_ m) Extensions.kPlusSpace = true ->
  os_str (ostream_ m) = a ++ "+"%char :: c -> ~ In "+"%char a ->
  manip_text m = a ++ " "%char :: c.
Proof.
  intros Hign Hplus Hs Hn. unfold manip_text.
  destruct (has (extensions_ m) Extensions.kIgnore) eqn:Ei.
  - rewrite (Hign Ei) in Hs. destruct a; discriminate.
  - rewrite Hplus. cbn [negb]. rewrite Hs. apply plus_to_space_first.
    exact Hn.
Qed.

Lemma manip_text_no_plus m :
  ignored_is_empty m -> ~ In "+"%char (os_str (ostream_ m)) ->
  manip_text m = os_str (ostream_ m).
Proof.
  intros Hign Hn. unfold manip_text.
  destruct (has (extensions_ m) Extensions.kIgnore) eqn:Ei.
  - symmetry. apply Hign. exact Ei.
  - destruct (has (extensions_ m) Extensions.kPlusSpace); cbn [negb];
      [apply plus_to_space_absent; exact Hn | reflexivity].
Qed.

Lemma manip_text_flag_clear m :
  ignored_is_empty m ->
  has (extensions_ m) Extensions.kPlusSpace = false ->
  manip_text m = os_str (ostream_ m).
Proof.
  intros Hign Hplus. unfold manip_text.
  destruct (has (extensions_ m) Extensions.kIgnore) eqn:Ei.
  - symmetry. apply Hign. exact Ei.
  - rewrite Hplus. reflexivity.
Qed.

(** ** A directive of one modifier and the specifier *)

(** The format [pre ++ "%" ++ [c1; c] ++ post], where [pre] and [post] hold
    no [%], [c1] is a modifier that takes no argument and [c] is the
    specifier. *)
Lemma ParseFormat_modifier_directive pre c1 c post m1 m :
  ~ In "%"%char pre -> ~ In "%"%char post ->
  Ascii.eqb c1 "%" = false -> IsPositiveNumber c1 = false ->
  let t := "%"%char :: c1 :: c :: post in
  let st0 := push_border 0 (init_PState t) in
  SpecStep st0 new_Manip 0 1 = Next st0 m1 2 ->
  SpecStep st0 m1 0 2 = Last st0 m 3 ->
  ParseFormat (pre ++ t)
  = Some (Done (shift pre
                  (mkPState t [m] [0; 3] [[mkRef Defines.kArg 0]] []
                            [mkRef Defines.kArg 0]))).
Proof.
  intros Hpre Hpost Hc Hp t st0 H1 H2.
  rewrite (@ParseFormat_literal_prefix pre t Hpre).
  unfold ParseFormat. rewrite ParseLoop_step.
  unfold t in *.
  rewrite (@LoopStep_directive c1 (c :: post) Hc Hp).
  cbv zeta. rewrite ParseSpec_step. fold st0. rewrite H1.
  cbn [length]. rewrite ParseSpec_step, H2.
  rewrite ParseLoop_step. unfold LoopStep at 1.
  change (find "%" _ 3) with (find_from "%"%char post 3).
  rewrite (@find_from_absent "%"%char post 3 Hpost).
  reflexivity.
Qed.

(** The object made from a format with one directive that takes one
    argument: the text of the [Manip] stands between [pre] and what follows
    the directive. *)
Lemma feed_single_Manip abort success flags pre t m e q arg :
  ParseFormat (pre ++ t)
  = Some (Done (shift pre
                  (mkPState t [m] [0; e] [[mkRef Defines.kArg 0]] [] q))) ->
  let f := Init None None None (raw_Format abort success (pre ++ t) flags) in
  match apply_MainArg arg m with
  | Thrown er => feed f arg = Throw er f
  | Done m' =>
      awaits (feed f arg) 0 /\
      text_ (feed f arg)
      = pre ++ manip_text m' ++ skipn e t
          ++ (if Special.HaveBits flags Special.kNewline
              then ["010"%char] else [])
  end.
Proof.
  intros H f. unfold f, Init.
  change (text_ (set_parse_ _ (raw_Format abort success ?x flags))) with x.
  rewrite H.
  cbn [shift p_args p_text p_format p_borders map].
  unfold feed.
  cbn [awaiting aborted_ set_parse_ set_text_ raw_Format parse_ simple_
       current_arg_ args_ nth format_ apply_defines nth_error manip_
       set_these_].
  rewrite apply_reference_kArg.
  destruct (apply_MainArg arg m) as [m'|er]; cbn [obind upd];
    [|reflexivity].
  cbn [next_arg set_format_ current_arg_ args_ length Nat.eqb format_
       borders_ simple_ append_ file_ sink_ostream_].
  unfold FinishInsertingArgs.
  cbn [parse_ set_parse_ awaiting set_text_ text_ format_ borders_
       next_arg set_format_].
  rewrite assemble_one. cbn [fst snd].
  rewrite skipn_app_length.
  match goal with
  | |- context [InitialOutput ?g] =>
      destruct (@InitialOutput_no_sink g _ eq_refl eq_refl eq_refl eq_refl
                  eq_refl) as (A & T & _)
  end.
  split; [exact A|]. rewrite T. cbn [text_ flags_ set_text_ set_parse_
    awaiting raw_Format]. rewrite <- !app_assoc. reflexivity.
Qed.

(** The directive [% s]: the text of the argument with its first '+'
    replaced. *)
Lemma feed_space_s abort success flags pre post s :
  ~ In "%"%char pre -> ~ In "%"%char post ->
  text_ (feed (Init None None None
                 (raw_Format abort success
                    (pre ++ "%"%char :: " "%char :: "s"%char :: post) flags))
           (VStr s))
  = pre ++ plus_to_space s ++ post
      ++ (if Special.HaveBits flags Special.kNewline
          then ["010"%char] else []).
Proof.
  intros Hpre Hpost.
  pose proof (@feed_single_Manip abort success flags pre _ _ 3 _ (VStr s)
                (@ParseFormat_modifier_directive pre " "%char "s"%char post
                   _ _ Hpre Hpost eq_refl eq_refl eq_refl eq_refl)) as H.
  cbv zeta in H.
  match type of H with
  | match apply_MainArg _ ?m with _ => _ end =>
      change (apply_MainArg (VStr s) m)
        with (Done (mkManip (put_text (ostream_ m) s) (extensions_ m)
                      (need_ m))) in H
  end.
  destruct H as [_ H]. rewrite H. cbn [skipn]. f_equal.
  unfold manip_text.
  cbn [extensions_ ostream_ on_os or_ext set_ext new_Manip put_text write
       width os_str setf new_ostringstream app].
  rewrite pad_width_0 by reflexivity. reflexivity.
Qed.

(** The directive [%s]: the text of the argument as it is. *)
Lemma feed_plain_s abort success flags pre post s :
  ~ In "%"%char pre -> ~ In "%"%char post ->
  text_ (feed (Init None None None
                 (raw_Format abort success
                    (pre ++ "%"%char :: "s"%char :: post) flags))
           (VStr s))
  = pre ++ s ++ post
      ++ (if Special.HaveBits flags Special.kNewline
          then ["010"%char] else []).
Proof.
  intros Hpre Hpost.
  pose proof (@feed_single_Manip abort success flags pre _ _ 2 _ (VStr s)
                (@ParseFormat_one_directive pre "s"%char post _ Hpre Hpost
                   eq_refl eq_refl eq_refl)) as H.
  cbv zeta in H.
  match type of H with
  | match apply_MainArg _ ?m with _ => _ end =>
      change (apply_MainArg (VStr s) m)
        with (Done (mkManip (put_text (ostream_ m) s) (extensions_ m)
                      (need_ m))) in H
  end.
  destruct H as [_ H]. rewrite H. cbn [skipn]. f_equal.
  unfold manip_text.
  cbn [extensions_ ostream_ on_os or_ext set_ext new_Manip put_text write
       width os_str setf new_ostringstream app].
  rewrite pad_width_0 by reflexivity. reflexivity.
Qed.

(** ** The substitution of the first '+' *)

(** C9: where [FinishInsertingArgs] assembles the text, it puts for a
    [Manip] whose space-for-plus flag is set the rendered text with its
    first '+' replaced by a space, later '+' characters staying as they
    are, and the rendered text unchanged when the flag is not set or when
    the text holds no '+'.  This holds for a [Manip] at any place of
    [format_]: before it stands the assembled text of the [Manip]s before
    it and the piece of the format up to its directive, after it the
    assembled text of the [Manip]s after it, the rest of the format and
    the newline of the flags.  [operator%] calls [FinishInsertingArgs] with
    the last argument, and every [Manip] of a constructed object satisfies
    [ignored_is_empty].  From the format to the text: [% s] fed a text
    gives the text with its first '+' replaced, [%s] gives the text as it
    is. *)
Theorem space_for_plus_substitution :
  (forall f parse ms1 m ms2 bs1 b e bs2,
     parse_ f = Some parse ->
     format_ parse = ms1 ++ m :: ms2 ->
     borders_ parse = bs1 ++ b :: e :: bs2 ->
     length bs1 = 2 * length ms1 ->
     ignored_is_empty m ->
     let t := text_ f in
     let r1 := assemble t ms1 bs1 0 [] in
     let r2 := assemble t ms2 bs2 e [] in
     let placed shown :=
       text_ (FinishInsertingArgs f)
       = fst r1 ++ substr t (snd r1) (b - snd r1) ++ shown
           ++ fst r2 ++ skipn (snd r2) t
           ++ (if Special.HaveBits (flags_ f) Special.kNewline
               then ["010"%char] else []) in
     (has (extensions_ m) Extensions.kPlusSpace = true ->
      forall a c, os_str (ostream_ m) = a ++ "+"%char :: c ->
                  ~ In "+"%char a ->
                  placed (a ++ " "%char :: c)) /\
     (~ In "+"%char (os_str (ostream_ m)) -> placed (os_str (ostream_ m))) /\
     (has (extensions_ m) Extensions.kPlusSpace = false ->
      placed (os_str (ostream_ m)))) /\
  (forall f parse arg format,
     manips_ok f ->
     aborted_ f = None -> parse_ f = Some parse -> simple_ parse = false ->
     apply_defines (nth (current_arg_ parse) (args_ parse) []) arg
       (format_ parse) = Done format ->
     S (current_arg_ parse) = length (args_ parse) ->
     feed f arg
     = FinishInsertingArgs
         (set_parse_ (Some (next_arg (set_format_ format parse))) f) /\
     Forall ignored_is_empty format) /\
  (forall abort success flags pre post,
     ~ In "%"%char pre -> ~ In "%"%char post ->
     let with_space :=
       Init None None None
         (raw_Format abort success
            (pre ++ "%"%char :: " "%char :: "s"%char :: post) flags) in
     let without :=
       Init None None None
         (raw_Format abort success
            (pre ++ "%"%char :: "s"%char :: post) flags) in
     let newline := if Special.HaveBits flags Special.kNewline
                    then ["010"%char] else [] in
     (forall a c,
        ~ In "+"%char a ->
        text_ (feed with_space (VStr (a ++ "+"%char :: c)))
        = pre ++ (a ++ " "%char :: c) ++ post ++ newline) /\
     (forall s,
        ~ In "+"%char s ->
        text_ (feed with_space (VStr s)) = pre ++ s ++ post ++ newline) /\
     (forall s, text_ (feed without (VStr s)) = pre ++ s ++ post ++ newline)) /\
  text_ (feed_all (Format_reported (Some true) "%+d,% s,% d,%+d,+"
                     Special.None_)
           [VNum TInt 5; VStr (s2l "1+2+3"); VNum TInt 7; VNum TInt (-1)])
  = s2l "+5,1 2+3, 7,-1,+".
Proof.
  split; [|split; [|split; [|vm_compute; reflexivity]]].
  - intros f parse ms1 m ms2 bs1 b e bs2 Hp Hf Hb Hlen Hign t r1 r2 placed.
    pose proof (@FinishInsertingArgs_text f parse ms1 m ms2 bs1 b e bs2
                  Hp Hf Hb Hlen) as H.
    cbv zeta in H. unfold placed, r1, r2, t.
    split; [|split].
    + intros Hplus a c Hs Hn.
      rewrite H, (@manip_text_first_plus m a c Hign Hplus Hs Hn).
      reflexivity.
    + intros Hn. rewrite H, (@manip_text_no_plus m Hign Hn). reflexivity.
    + intros Hplus. rewrite H, (@manip_text_flag_clear m Hign Hplus).
      reflexivity.
  - intros f parse arg format Hok Ha Hp Hs Hd Hlast. split.
    + unfold feed. rewrite Ha, Hp, Hs, Hd.
      cbn [next_arg set_format_ current_arg_ args_].
      rewrite Hlast, Nat.eqb_refl. reflexivity.
    + unfold manips_ok in Hok. rewrite Hp in Hok.
      eapply apply_defines_ignored; [exact Hok|exact Hd].
  - intros abort success flags pre post Hpre Hpost with_space without newline.
    unfold with_space, without, newline. split; [|split].
    + intros a c Hn.
      rewrite (@feed_space_s abort success flags pre post _ Hpre Hpost).
      rewrite (@plus_to_space_first a c Hn). reflexivity.
    + intros s Hn.
      rewrite (@feed_space_s abort success flags pre post _ Hpre Hpost).
      rewrite (@plus_to_space_absent s Hn). reflexivity.
    + intros s. apply feed_plain_s; assumption.
Qed.

Lemma space_for_plus_substitution_witness :
  let pre := s2l "<" in
  let post := s2l ">" in
  let a := s2l "1" in
  let c := s2l "2+3" in
  (~ In "%"%char pre /\ ~ In "%"%char post /\ ~ In "+"%char a) /\
  text_ (feed (Init None None None
                 (raw_Format false (Some true)
                    (pre ++ "%"%char :: " "%char :: "s"%char :: post)
                    Special.NewlineFlush))
           (VStr (a ++ "+"%char :: c)))
  = pre ++ (a ++ " "%char :: c) ++ post
      ++ (if Special.HaveBits Special.NewlineFlush Special.kNewline
          then ["010"%char] else []).
Proof.
  assert (~ In "%"%char (s2l "<")) as H1 by (apply literal_text; reflexivity).
  assert (~ In "%"%char (s2l ">")) as H2 by (apply literal_text; reflexivity).
  assert (~ In "+"%char (s2l "1")) as H3 by (apply literal_text; reflexivity).
  split; [auto|].
  exact (proj1 (proj1 (proj2 (proj2 space_for_plus_substitution))
                  false (Some true) Special.NewlineFlush (s2l "<") (s2l ">")
                  H1 H2)
           (s2l "1") (s2l "2+3") H3).
Defined.

(** ** The sign of a number under the modifier ' ' *)









(** The character after a plain [.] and the fill character after [_] are
    not read as modifiers: a space there is not met by the loop over the
    modifiers, and no flag is set for it. *)
Example space_that_is_no_modifier :
  let dot := s2l "%. d|" in
  let fill_ := s2l "%_ d|" in
  meets_space 6 (push_border 0 (init_PState dot)) new_Manip 0 1 = false /\
  meets_space 6 (push_border 0 (init_PState fill_)) new_Manip 0 1 = false /\
  (exists st m i,
     ParseSpec 6 (push_border 0 (init_PState dot)) new_Manip 0 1
     = Some (Done (st, m, i)) /\
     has (extensions_ m) Extensions.kPlusSpace = false /\
     has (os_flags (ostream_ m)) ios_base.showpos = false) /\
  text_ (feed (Format_reported (Some true) "%. d|" Special.None_)
           (VNum TInt 5)) = s2l "5|" /\
  text_ (feed (Format_reported (Some true) "%_ 3d|" Special.None_)
           (VNum TInt 5)) = s2l "  5|".
Proof.
  split; [reflexivity|]. split; [reflexivity|]. split.
  - eexists. eexists. eexists. split; [reflexivity|].
    split; vm_compute; reflexivity.
  - split; vm_compute; reflexivity.
Qed.


